(** * HexTileGen: the hex-grid core ([hexgrid_utils.py]) in Rocq

    A shallow embedding of the cube/axial/offset coordinate library, its
    ring/spiral enumeration, line rasteriser, field of view, breadth-first
    searches and pixel projection, followed by the properties the
    specification states about them.

    Conventions.
    - A Python [int] is a [Z]; [//] by a positive literal is [Z.div], [%] is
      [Z.modulo], [&] is [Z.land] (all three agree with Python on negative
      operands).
    - A Python [float] is a binary64 [float] of the kernel; the operations
      are the IEEE ones, [round] and the int/float conversions are written
      out exactly through [Prim2SF]/[SF2Prim].
    - A [set] of hexes is a [gset], a [dict] keyed by hexes a [gmap].
    - A raised exception is a [Raise e] in the [result] monad; a [while]
      loop takes a bound on its number of iterations and answers [None]
      when the bound is reached before the loop exits. *)

From Stdlib Require Import ZArith Lia.
From Stdlib Require Import Floats.PrimFloat Floats.FloatOps Floats.SpecFloat.
From stdpp Require Import gmap strings list.

Local Open Scope Z_scope.

(** ** Exceptions and the error monad *)

Inductive exn : Type :=
| ValueError (msg : string)
| ZeroDivisionError
| OverflowError
| KeyError.

Inductive result (A : Type) : Type :=
| Ok (a : A)
| Raise (e : exn).

Arguments Ok {A} a.
Arguments Raise {A} e.

#[global] Instance result_ret : MRet result := fun A a => Ok a.
#[global] Instance result_bind : MBind result := fun A B f m =>
  match m with
  | Ok a => f a
  | Raise e => Raise e
  end.
#[global] Instance result_fmap : FMap result := fun A B f m =>
  match m with
  | Ok a => Ok (f a)
  | Raise e => Raise e
  end.

(** [for x in l: s = body s x], stopping at the first exception. *)
Fixpoint foldM {A S : Type} (body : S -> A -> result S) (l : list A) (s : S)
  : result S :=
  match l with
  | [] => Ok s
  | x :: l' => s' ← body s x; foldM body l' s'
  end.

(** [range(n)] and [range(a, b)] on Python ints. *)
Definition range (n : Z) : list Z :=
  map Z.of_nat (seq 0 (Z.to_nat n)).

Definition range_from (a b : Z) : list Z :=
  map (fun i => a + Z.of_nat i) (seq 0 (Z.to_nat (b - a))).

(** ** Coordinate types *)

Definition AxialHex : Type := Z * Z.
Definition CubeHex : Type := Z * Z * Z.
Definition OffsetHex : Type := Z * Z.

(** [hex[0]], [hex[1]], [hex[2]] *)
Definition c0 (h : CubeHex) : Z := h.1.1.
Definition c1 (h : CubeHex) : Z := h.1.2.
Definition c2 (h : CubeHex) : Z := h.2.

Definition CUBE_DIRECTIONS : list CubeHex :=
  [ (1, 0, -1); (1, -1, 0); (0, -1, 1);
    (-1, 0, 1); (-1, 1, 0); (0, 1, -1) ].

(** [CUBE_DIRECTIONS[i]] for an index the code keeps in range. *)
Definition direction_at (i : Z) : CubeHex :=
  nth (Z.to_nat i) CUBE_DIRECTIONS (0, 0, 0).

(** ** Coordinate conversions *)

Definition axial_to_cube (hex : AxialHex) : CubeHex :=
  let '(q, r) := hex in
  let s := - q - r in
  (q, r, s).

Definition cube_to_axial (hex : CubeHex) : AxialHex :=
  let '(q, r, s) := hex in
  (q, r).

Definition cube_to_oddr (hex : CubeHex) : OffsetHex :=
  let '(q, r, s) := hex in
  let col := q + (r - Z.land r 1) / 2 in
  let row := r in
  (col, row).

Definition oddr_to_cube (hex : OffsetHex) : CubeHex :=
  let '(col, row) := hex in
  let q := col - (row - Z.land row 1) / 2 in
  let r := row in
  let s := - q - r in
  (q, r, s).

Definition cube_to_evenr (hex : CubeHex) : OffsetHex :=
  let '(q, r, s) := hex in
  let col := q + (r + Z.land r 1) / 2 in
  let row := r in
  (col, row).

Definition evenr_to_cube (hex : OffsetHex) : CubeHex :=
  let '(col, row) := hex in
  let q := col - (row + Z.land row 1) / 2 in
  let r := row in
  let s := - q - r in
  (q, r, s).

Definition cube_to_oddq (hex : CubeHex) : OffsetHex :=
  let '(q, r, s) := hex in
  let col := q in
  let row := r + (q - Z.land q 1) / 2 in
  (col, row).

Definition oddq_to_cube (hex : OffsetHex) : CubeHex :=
  let '(col, row) := hex in
  let q := col in
  let r := row - (col - Z.land col 1) / 2 in
  let s := - q - r in
  (q, r, s).

Definition cube_to_evenq (hex : CubeHex) : OffsetHex :=
  let '(q, r, s) := hex in
  let col := q in
  let row := r + (q + Z.land q 1) / 2 in
  (col, row).

Definition evenq_to_cube (hex : OffsetHex) : CubeHex :=
  let '(col, row) := hex in
  let q := col in
  let r := row - (col + Z.land col 1) / 2 in
  let s := - q - r in
  (q, r, s).

(** ** Hex arithmetic *)

Definition cube_add (a b : CubeHex) : CubeHex :=
  (c0 a + c0 b, c1 a + c1 b, c2 a + c2 b).

Definition cube_subtract (a b : CubeHex) : CubeHex :=
  (c0 a - c0 b, c1 a - c1 b, c2 a - c2 b).

Definition cube_scale (hex : CubeHex) (k : Z) : CubeHex :=
  (c0 hex * k, c1 hex * k, c2 hex * k).

Definition cube_rotate_left (hex : CubeHex) : CubeHex :=
  let '(q, r, s) := hex in
  (- s, - q, - r).

Definition cube_rotate_right (hex : CubeHex) : CubeHex :=
  let '(q, r, s) := hex in
  (- r, - s, - q).

(** ** Distance *)

Definition cube_distance (a b : CubeHex) : Z :=
  (Z.abs (c0 a - c0 b) + Z.abs (c1 a - c1 b) + Z.abs (c2 a - c2 b)) / 2.

Definition axial_distance (a b : AxialHex) : Z :=
  let ac := axial_to_cube a in
  let bc := axial_to_cube b in
  cube_distance ac bc.

Definition offset_distance (a b : OffsetHex) (offset_type : string)
  : result Z :=
  '(ac, bc) ←
    (if String.eqb offset_type "odd-r" then
       Ok (oddr_to_cube a, oddr_to_cube b)
     else if String.eqb offset_type "even-r" then
       Ok (evenr_to_cube a, evenr_to_cube b)
     else if String.eqb offset_type "odd-q" then
       Ok (oddq_to_cube a, oddq_to_cube b)
     else if String.eqb offset_type "even-q" then
       Ok (evenq_to_cube a, evenq_to_cube b)
     else Raise (ValueError "Invalid offset type"));
  Ok (cube_distance ac bc).

(** ** Neighbours *)

Definition cube_neighbor (hex : CubeHex) (direction : Z) : CubeHex :=
  cube_add hex (direction_at (direction mod 6)).

Definition axial_neighbor (hex : AxialHex) (direction : Z) : AxialHex :=
  let cube := axial_to_cube hex in
  let neighbor := cube_neighbor cube direction in
  cube_to_axial neighbor.

(** The second [if]/[elif] chain of [offset_neighbor] has no [else]: falling
    off its end is Python's implicit [return None], here [Ok None]. *)
Definition offset_neighbor (hex : OffsetHex) (direction : Z)
    (offset_type : string) : result (option OffsetHex) :=
  cube ←
    (if String.eqb offset_type "odd-r" then Ok (oddr_to_cube hex)
     else if String.eqb offset_type "even-r" then Ok (evenr_to_cube hex)
     else if String.eqb offset_type "odd-q" then Ok (oddq_to_cube hex)
     else if String.eqb offset_type "even-q" then Ok (evenq_to_cube hex)
     else Raise (ValueError "Invalid offset type"));
  let neighbor := cube_neighbor cube direction in
  if String.eqb offset_type "odd-r" then Ok (Some (cube_to_oddr neighbor))
  else if String.eqb offset_type "even-r" then Ok (Some (cube_to_evenr neighbor))
  else if String.eqb offset_type "odd-q" then Ok (Some (cube_to_oddq neighbor))
  else if String.eqb offset_type "even-q" then Ok (Some (cube_to_evenq neighbor))
  else Ok None.

Definition cube_neighbors (hex : CubeHex) : list CubeHex :=
  map (fun dir => cube_neighbor hex dir) (range 6).

Definition axial_neighbors (hex : AxialHex) : list AxialHex :=
  map (fun dir => axial_neighbor hex dir) (range 6).

Definition offset_neighbors (hex : OffsetHex) (offset_type : string)
  : result (list (option OffsetHex)) :=
  mapM (fun dir => offset_neighbor hex dir offset_type) (range 6).

(** ** Rings and spirals *)

(** The two nested [for] loops of [cube_ring] thread the pair
    [(results, hex)]. *)
Definition ring_step (i : Z) (st : list CubeHex * CubeHex) (j : Z)
  : list CubeHex * CubeHex :=
  let '(results, hex) := st in
  (results ++ [hex], cube_neighbor hex i).

Definition ring_side (radius : Z) (st : list CubeHex * CubeHex) (i : Z)
  : list CubeHex * CubeHex :=
  foldl (ring_step i) st (range radius).

Definition cube_ring (center : CubeHex) (radius : Z) : list CubeHex :=
  if radius =? 0 then [center]
  else
    let results := [] in
    let hex := cube_add center (cube_scale (direction_at 4) radius) in
    fst (foldl (ring_side radius) (results, hex) (range 6)).

Definition cube_spiral (center : CubeHex) (radius : Z) : list CubeHex :=
  let results := [center] in
  foldl (fun results k => results ++ cube_ring center k)
        results (range_from 1 (radius + 1)).

Definition axial_ring (center : AxialHex) (radius : Z) : list AxialHex :=
  let cube_center := axial_to_cube center in
  map cube_to_axial (cube_ring cube_center radius).

Definition axial_spiral (center : AxialHex) (radius : Z) : list AxialHex :=
  let cube_center := axial_to_cube center in
  map cube_to_axial (cube_spiral cube_center radius).

Definition offset_ring (center : OffsetHex) (radius : Z)
    (offset_type : string) : result (list OffsetHex) :=
  if String.eqb offset_type "odd-r" then
    let cube_center := oddr_to_cube center in
    Ok (map cube_to_oddr (cube_ring cube_center radius))
  else if String.eqb offset_type "even-r" then
    let cube_center := evenr_to_cube center in
    Ok (map cube_to_evenr (cube_ring cube_center radius))
  else if String.eqb offset_type "odd-q" then
    let cube_center := oddq_to_cube center in
    Ok (map cube_to_oddq (cube_ring cube_center radius))
  else if String.eqb offset_type "even-q" then
    let cube_center := evenq_to_cube center in
    Ok (map cube_to_evenq (cube_ring cube_center radius))
  else Raise (ValueError "Invalid offset type").

Definition offset_spiral (center : OffsetHex) (radius : Z)
    (offset_type : string) : result (list OffsetHex) :=
  if String.eqb offset_type "odd-r" then
    let cube_center := oddr_to_cube center in
    Ok (map cube_to_oddr (cube_spiral cube_center radius))
  else if String.eqb offset_type "even-r" then
    let cube_center := evenr_to_cube center in
    Ok (map cube_to_evenr (cube_spiral cube_center radius))
  else if String.eqb offset_type "odd-q" then
    let cube_center := oddq_to_cube center in
    Ok (map cube_to_oddq (cube_spiral cube_center radius))
  else if String.eqb offset_type "even-q" then
    let cube_center := evenq_to_cube center in
    Ok (map cube_to_evenq (cube_spiral cube_center radius))
  else Raise (ValueError "Invalid offset type").

(** ** Python numbers

    [cube_round] is called on float triples ([pixel_to_hex]) and on int
    triples (from [cube_lerp], which already rounds); [num] is the value
    of either type it computes with. *)

Inductive num : Type :=
| PyInt (z : Z)
| PyFloat (f : float).

(** [float(z)]: the nearest binary64, ties to even; [OverflowError] when
    that is out of range. *)
Definition float_of_int (z : Z) : result float :=
  match binary_normalize prec emax z 0 false with
  | S754_infinity _ => Raise OverflowError
  | sf => Ok (SF2Prim sf)
  end.

(** The integer nearest to [m * 2^e], ties to the even one. *)
Definition round_half_even (m : positive) (e : Z) : Z :=
  if 0 <=? e then Z.pos m * 2 ^ e
  else
    let d := 2 ^ (- e) in
    let q := Z.pos m / d in
    let r := Z.pos m mod d in
    if 2 * r <? d then q
    else if d <? 2 * r then q + 1
    else if Z.even q then q else q + 1.

(** [round(f)] on a float. *)
Definition round_float (f : float) : result Z :=
  match Prim2SF f with
  | S754_zero _ => Ok 0
  | S754_infinity _ => Raise OverflowError
  | S754_nan => Raise (ValueError "cannot convert float NaN to integer")
  | S754_finite s m e =>
      Ok (if s then - round_half_even m e else round_half_even m e)
  end.

(** [round(x)]: an int is its own rounding. *)
Definition py_round (x : num) : result Z :=
  match x with
  | PyInt z => Ok z
  | PyFloat f => round_float f
  end.

(** [x - y], the int operand converted when the other is a float. *)
Definition num_sub (x y : num) : result num :=
  match x, y with
  | PyInt a, PyInt b => Ok (PyInt (a - b))
  | PyInt a, PyFloat g => f ← float_of_int a; Ok (PyFloat (f - g)%float)
  | PyFloat f, PyInt b => g ← float_of_int b; Ok (PyFloat (f - g)%float)
  | PyFloat f, PyFloat g => Ok (PyFloat (f - g)%float)
  end.

Definition num_abs (x : num) : num :=
  match x with
  | PyInt a => PyInt (Z.abs a)
  | PyFloat f => PyFloat (PrimFloat.abs f)
  end.

(** Exact comparison of an int with a float value ([None]: not a number). *)
Definition compare_int_float (z : Z) (f : spec_float) : option comparison :=
  match f with
  | S754_nan => None
  | S754_infinity s => Some (if s then Gt else Lt)
  | S754_zero _ => Some (z ?= 0)
  | S754_finite s m e =>
      let v := if s then Z.neg m else Z.pos m in
      Some (if 0 <=? e then z ?= v * 2 ^ e else z * 2 ^ (- e) ?= v)
  end.

(** [x > y] *)
Definition num_gt (x y : num) : bool :=
  match x, y with
  | PyInt a, PyInt b => a >? b
  | PyFloat f, PyFloat g => PrimFloat.ltb g f
  | PyInt a, PyFloat g =>
      match compare_int_float a (Prim2SF g) with
      | Some Gt => true
      | _ => false
      end
  | PyFloat f, PyInt b =>
      match compare_int_float b (Prim2SF f) with
      | Some Lt => true
      | _ => false
      end
  end.

(** [x + f] and [x - f] for an int [x] and a float [f]. *)
Definition int_add_float (x : Z) (f : float) : result float :=
  xf ← float_of_int x; Ok (xf + f)%float.

Definition int_sub_float (x : Z) (f : float) : result float :=
  xf ← float_of_int x; Ok (xf - f)%float.

(** [f * x] for a float [f] and an int [x]. *)
Definition float_mul_int (f : float) (x : Z) : result float :=
  xf ← float_of_int x; Ok (f * xf)%float.

(** [f / g] on floats: a zero divisor raises. *)
Definition float_div (f g : float) : result float :=
  if PrimFloat.eqb g 0 then Raise ZeroDivisionError
  else Ok (f / g)%float.

(** [f / x] for a float [f] and an int [x]. *)
Definition float_div_int (f : float) (x : Z) : result float :=
  xf ← float_of_int x; float_div f xf.

(** The literals [1e-6] and [2e-6]: the binary64 values nearest to them. *)
Definition lit_1e_6 : float := 0x1.0c6f7a0b5ed8dp-20%float.
Definition lit_2e_6 : float := 0x1.0c6f7a0b5ed8dp-19%float.

(** ** Line drawing *)

Definition FracHex : Type := float * float * float.

Definition cube_lerp (a b : FracHex) (t : float) : result CubeHex :=
  let '(a0, a1, a2) := a in
  let '(b0, b1, b2) := b in
  x0 ← round_float (a0 + (b0 - a0) * t)%float;
  x1 ← round_float (a1 + (b1 - a1) * t)%float;
  x2 ← round_float (a2 + (b2 - a2) * t)%float;
  Ok (x0, x1, x2).

Definition cube_round (frac : num * num * num) : result CubeHex :=
  let '(frac0, frac1, frac2) := frac in
  q ← py_round frac0;
  r ← py_round frac1;
  s ← py_round frac2;
  q_diff ← num_abs <$> num_sub (PyInt q) frac0;
  r_diff ← num_abs <$> num_sub (PyInt r) frac1;
  s_diff ← num_abs <$> num_sub (PyInt s) frac2;
  if num_gt q_diff r_diff && num_gt q_diff s_diff then
    let q := - r - s in Ok (q, r, s)
  else if num_gt r_diff s_diff then
    let r := - q - s in Ok (q, r, s)
  else
    let s := - q - r in Ok (q, r, s).

(** The int triple [cube_lerp] returns, as [cube_round] receives it. *)
Definition int_triple (h : CubeHex) : num * num * num :=
  (PyInt (c0 h), PyInt (c1 h), PyInt (c2 h)).

Definition line_sample (N : Z) (a_nudge b_nudge : FracHex)
    (results : list CubeHex) (i : Z) : result (list CubeHex) :=
  k ← float_div_int 1 N;
  t ← float_mul_int k i;
  p ← cube_lerp a_nudge b_nudge t;
  h ← cube_round (int_triple p);
  Ok (results ++ [h]).

Definition cube_line (a b : CubeHex) : result (list CubeHex) :=
  let N := cube_distance a b in
  a0 ← int_add_float (c0 a) lit_1e_6;
  a1 ← int_add_float (c1 a) lit_1e_6;
  a2 ← int_sub_float (c2 a) lit_2e_6;
  let a_nudge := (a0, a1, a2) in
  b0 ← int_add_float (c0 b) lit_1e_6;
  b1 ← int_add_float (c1 b) lit_1e_6;
  b2 ← int_sub_float (c2 b) lit_2e_6;
  let b_nudge := (b0, b1, b2) in
  let results := [] in
  foldM (line_sample N a_nudge b_nudge) (range (N + 1)) results.


Definition offset_line (a b : OffsetHex) (offset_type : string)
  : result (list OffsetHex) :=
  if String.eqb offset_type "odd-r" then
    let ac := oddr_to_cube a in
    let bc := oddr_to_cube b in
    line ← cube_line ac bc;
    Ok (map cube_to_oddr line)
  else if String.eqb offset_type "even-r" then
    let ac := evenr_to_cube a in
    let bc := evenr_to_cube b in
    line ← cube_line ac bc;
    Ok (map cube_to_evenr line)
  else if String.eqb offset_type "odd-q" then
    let ac := oddq_to_cube a in
    let bc := oddq_to_cube b in
    line ← cube_line ac bc;
    Ok (map cube_to_oddq line)
  else if String.eqb offset_type "even-q" then
    let ac := evenq_to_cube a in
    let bc := evenq_to_cube b in
    line ← cube_line ac bc;
    Ok (map cube_to_evenq line)
  else Raise (ValueError "Invalid offset type").

(** ** Field of view *)

(** The innermost [for h in line] of [cube_visible]: the value of
    [blocked] when the loop ends, by exhaustion or by [break]. *)
Fixpoint line_blocked (center : CubeHex) (radius : Z)
    (obstacles : gset CubeHex) (line : list CubeHex) : bool :=
  match line with
  | [] => false
  | h :: line' =>
      if bool_decide (h ∈ obstacles) then true
      else if cube_distance center h >? radius then true
      else line_blocked center radius obstacles line'
  end.

Definition visible_hex (center : CubeHex) (radius : Z)
    (obstacles : gset CubeHex) (visible : gset CubeHex) (hex : CubeHex)
  : result (gset CubeHex) :=
  line ← cube_line center hex;
  let blocked := line_blocked center radius obstacles line in
  if negb blocked then Ok ({[hex]} ∪ visible) else Ok visible.

Definition visible_ring (center : CubeHex) (radius : Z)
    (obstacles : gset CubeHex) (visible : gset CubeHex) (ring_radius : Z)
  : result (gset CubeHex) :=
  let ring := cube_ring center ring_radius in
  foldM (visible_hex center radius obstacles) ring visible.

Definition cube_visible (center : CubeHex) (radius : Z)
    (obstacles : gset CubeHex) : result (gset CubeHex) :=
  let visible : gset CubeHex := {[center]} in
  foldM (visible_ring center radius obstacles)
        (range_from 1 (radius + 1)) visible.


Definition offset_visible (center : OffsetHex) (radius : Z)
    (obstacles : gset OffsetHex) (offset_type : string)
  : result (gset OffsetHex) :=
  if String.eqb offset_type "odd-r" then
    let cube_center := oddr_to_cube center in
    let cube_obstacles : gset CubeHex := set_map oddr_to_cube obstacles in
    visible_cubes ← cube_visible cube_center radius cube_obstacles;
    Ok (set_map cube_to_oddr visible_cubes)
  else if String.eqb offset_type "even-r" then
    let cube_center := evenr_to_cube center in
    let cube_obstacles : gset CubeHex := set_map evenr_to_cube obstacles in
    visible_cubes ← cube_visible cube_center radius cube_obstacles;
    Ok (set_map cube_to_evenr visible_cubes)
  else if String.eqb offset_type "odd-q" then
    let cube_center := oddq_to_cube center in
    let cube_obstacles : gset CubeHex := set_map oddq_to_cube obstacles in
    visible_cubes ← cube_visible cube_center radius cube_obstacles;
    Ok (set_map cube_to_oddq visible_cubes)
  else if String.eqb offset_type "even-q" then
    let cube_center := evenq_to_cube center in
    let cube_obstacles : gset CubeHex := set_map evenq_to_cube obstacles in
    visible_cubes ← cube_visible cube_center radius cube_obstacles;
    Ok (set_map cube_to_evenq visible_cubes)
  else Raise (ValueError "Invalid offset type").

(** ** Pathfinding *)

(** [d[k]] on a dict. *)
Definition dict_get {V : Type} (d : gmap CubeHex V) (k : CubeHex)
  : result V :=
  match d !! k with
  | Some v => Ok v
  | None => Raise KeyError
  end.

(** The state of [cube_bfs]'s loop.  A value of [came_from] is [None] for
    the start and the predecessor otherwise. *)
Record bfs_state : Type := BfsState {
  frontier : list CubeHex;
  came_from : gmap CubeHex (option CubeHex);
  distance : gmap CubeHex Z;
  found_goals : gset CubeHex
}.

(** One pass of [for neighbor in cube_neighbors(current)] in [cube_bfs];
    the three [continue]s leave the state as it is. *)
Definition bfs_visit (obstacles : gset CubeHex) (max_distance : option Z)
    (current : CubeHex) (st : bfs_state) (neighbor : CubeHex)
  : result bfs_state :=
  if bool_decide (neighbor ∈ obstacles) then Ok st
  else
    match distance st !! neighbor with
    | Some _ => Ok st
    | None =>
        d ← dict_get (distance st) current;
        if (match max_distance with
            | Some m => d >=? m
            | None => false
            end)
        then Ok st
        else
          Ok {| frontier := frontier st ++ [neighbor];
                came_from := <[neighbor := Some current]> (came_from st);
                distance := <[neighbor := d + 1]> (distance st);
                found_goals := found_goals st |}
    end.

(** The [while frontier] loop of [cube_bfs], at most [fuel] iterations. *)
Fixpoint bfs_loop (fuel : nat) (goals obstacles : gset CubeHex)
    (max_distance : option Z) (st : bfs_state) : option (result bfs_state) :=
  match fuel with
  | O => None
  | S fuel' =>
      match frontier st with
      | [] => Some (Ok st)
      | current :: rest =>
          let found :=
            if bool_decide (current ∈ goals)
            then {[current]} ∪ found_goals st
            else found_goals st in
          let st1 := {| frontier := rest;
                        came_from := came_from st;
                        distance := distance st;
                        found_goals := found |} in
          if bool_decide (current ∈ goals)
             && (Z.of_nat (size found) =? Z.of_nat (size goals))
          then Some (Ok st1)
          else
            match foldM (bfs_visit obstacles max_distance current)
                        (cube_neighbors current) st1 with
            | Ok st2 => bfs_loop fuel' goals obstacles max_distance st2
            | Raise e => Some (Raise e)
            end
      end
  end.

Definition cube_bfs (fuel : nat) (start : CubeHex)
    (goals obstacles : gset CubeHex) (max_distance : option Z)
  : option (result (gmap CubeHex Z)) :=
  let st := {| frontier := [start];
               came_from := {[start := None]};
               distance := {[start := 0]};
               found_goals := ∅ |} in
  match bfs_loop fuel goals obstacles max_distance st with
  | None => None
  | Some (Raise e) => Some (Raise e)
  | Some (Ok st') => Some (Ok (distance st'))
  end.

(** One pass of [for neighbor in cube_neighbors(current)] in [cube_path],
    on the pair [(frontier, came_from)]. *)
Definition path_visit (obstacles : gset CubeHex) (current : CubeHex)
    (st : list CubeHex * gmap CubeHex (option CubeHex)) (neighbor : CubeHex)
  : list CubeHex * gmap CubeHex (option CubeHex) :=
  let '(frontier, came_from) := st in
  if bool_decide (neighbor ∈ obstacles) then st
  else
    match came_from !! neighbor with
    | Some _ => st
    | None => (frontier ++ [neighbor], <[neighbor := Some current]> came_from)
    end.

(** The [while frontier] loop of [cube_path]; it answers [came_from] as
    the loop leaves it. *)
Fixpoint path_loop (fuel : nat) (goal : CubeHex) (obstacles : gset CubeHex)
    (frontier : list CubeHex) (came_from : gmap CubeHex (option CubeHex))
  : option (gmap CubeHex (option CubeHex)) :=
  match fuel with
  | O => None
  | S fuel' =>
      match frontier with
      | [] => Some came_from
      | current :: frontier =>
          if bool_decide (current = goal) then Some came_from
          else
            let '(frontier, came_from) :=
              foldl (path_visit obstacles current) (frontier, came_from)
                    (cube_neighbors current) in
            path_loop fuel' goal obstacles frontier came_from
      end
  end.

(** The [while current != start] loop of [cube_path]; it answers [path]
    as the loop leaves it.  Reading the [None] stored for the start makes
    [current] a [None], which is not a key of [came_from]: the next
    iteration raises [KeyError]. *)
Fixpoint path_walk (fuel : nat) (came_from : gmap CubeHex (option CubeHex))
    (start : CubeHex) (current : CubeHex) (path : list CubeHex)
  : option (result (list CubeHex)) :=
  match fuel with
  | O => None
  | S fuel' =>
      if bool_decide (current = start) then Some (Ok path)
      else
        let path := path ++ [current] in
        match came_from !! current with
        | None => Some (Raise KeyError)
        | Some None => Some (Raise KeyError)
        | Some (Some current) => path_walk fuel' came_from start current path
        end
  end.

(** [cube_path]: [Some (Ok None)] is the [return None], [Some (Ok (Some
    path))] the returned path, [None] a loop that did not end within
    [fuel] iterations. *)
Definition cube_path (fuel : nat) (start goal : CubeHex)
    (obstacles : gset CubeHex)
  : option (result (option (list CubeHex))) :=
  let frontier := [start] in
  let came_from : gmap CubeHex (option CubeHex) := {[start := None]} in
  match path_loop fuel goal obstacles frontier came_from with
  | None => None
  | Some came_from =>
      match came_from !! goal with
      | None => Some (Ok None)
      | Some _ =>
          let current := goal in
          let path := [] in
          match path_walk fuel came_from start current path with
          | None => None
          | Some (Raise e) => Some (Raise e)
          | Some (Ok path) =>
              let path := path ++ [start] in
              Some (Ok (Some (reverse path)))
          end
      end
  end.

Definition axial_path (fuel : nat) (start goal : AxialHex)
    (obstacles : gset AxialHex)
  : option (result (option (list AxialHex))) :=
  let cube_start := axial_to_cube start in
  let cube_goal := axial_to_cube goal in
  let cube_obstacles : gset CubeHex := set_map axial_to_cube obstacles in
  match cube_path fuel cube_start cube_goal cube_obstacles with
  | None => None
  | Some (Raise e) => Some (Raise e)
  | Some (Ok None) => Some (Ok None)
  | Some (Ok (Some cube_path_result)) =>
      Some (Ok (Some (map cube_to_axial cube_path_result)))
  end.

(** The last [if]/[elif] chain of [offset_path] has no [else]; as in
    [offset_neighbor], falling off its end is [Ok None]. *)
Definition offset_path (fuel : nat) (start goal : OffsetHex)
    (obstacles : gset OffsetHex) (offset_type : string)
  : option (result (option (list OffsetHex))) :=
  let converted : result (CubeHex * CubeHex * gset CubeHex) :=
    if String.eqb offset_type "odd-r" then
      Ok (oddr_to_cube start, oddr_to_cube goal,
          set_map oddr_to_cube obstacles)
    else if String.eqb offset_type "even-r" then
      Ok (evenr_to_cube start, evenr_to_cube goal,
          set_map evenr_to_cube obstacles)
    else if String.eqb offset_type "odd-q" then
      Ok (oddq_to_cube start, oddq_to_cube goal,
          set_map oddq_to_cube obstacles)
    else if String.eqb offset_type "even-q" then
      Ok (evenq_to_cube start, evenq_to_cube goal,
          set_map evenq_to_cube obstacles)
    else Raise (ValueError "Invalid offset type") in
  match converted with
  | Raise e => Some (Raise e)
  | Ok (cube_start, cube_goal, cube_obstacles) =>
      match cube_path fuel cube_start cube_goal cube_obstacles with
      | None => None
      | Some (Raise e) => Some (Raise e)
      | Some (Ok None) => Some (Ok None)
      | Some (Ok (Some cube_path_result)) =>
          if String.eqb offset_type "odd-r" then
            Some (Ok (Some (map cube_to_oddr cube_path_result)))
          else if String.eqb offset_type "even-r" then
            Some (Ok (Some (map cube_to_evenr cube_path_result)))
          else if String.eqb offset_type "odd-q" then
            Some (Ok (Some (map cube_to_oddq cube_path_result)))
          else if String.eqb offset_type "even-q" then
            Some (Ok (Some (map cube_to_evenq cube_path_result)))
          else Some (Ok None)
      end
  end.

(** ** Map generation *)

Definition generate_hex_map (radius : Z) (center : CubeHex) : gset CubeHex :=
  list_to_set (cube_spiral center radius).

(** [offset_type] is a parameter of [generate_rectangular_map] that its
    body never reads. *)
Definition generate_rectangular_map (width height : Z) (offset_type : string)
  : gset OffsetHex :=
  let hexes : gset OffsetHex := ∅ in
  foldl (fun hexes col =>
           foldl (fun hexes row => {[(col, row)]} ∪ hexes)
                 hexes (range height))
        hexes (range width).

(** ** Pixel projection *)

Record Orientation : Type := {
  f0 : float; f1 : float; f2 : float; f3 : float;
  b0 : float; b1 : float; b2 : float; b3 : float;
  start_angle : float
}.

Definition LAYOUT_POINTY : Orientation :=
  {| f0 := PrimFloat.sqrt 3;
     f1 := (PrimFloat.sqrt 3 / 2)%float;
     f2 := 0%float;
     f3 := (3 / 2)%float;
     b0 := (PrimFloat.sqrt 3 / 3)%float;
     b1 := (-1 / 3)%float;
     b2 := 0%float;
     b3 := (2 / 3)%float;
     start_angle := 0.5%float |}.

Definition LAYOUT_FLAT : Orientation :=
  {| f0 := (3 / 2)%float;
     f1 := 0%float;
     f2 := (PrimFloat.sqrt 3 / 2)%float;
     f3 := PrimFloat.sqrt 3;
     b0 := (2 / 3)%float;
     b1 := 0%float;
     b2 := (-1 / 3)%float;
     b3 := (PrimFloat.sqrt 3 / 3)%float;
     start_angle := 0%float |}.

Definition hex_to_pixel (hex : CubeHex) (size : float) (layout : string)
  : result (float * float) :=
  let orientation :=
    if String.eqb layout "pointy" then LAYOUT_POINTY else LAYOUT_FLAT in
  x0 ← float_mul_int (f0 orientation) (c0 hex);
  x1 ← float_mul_int (f1 orientation) (c1 hex);
  let x := ((x0 + x1) * size)%float in
  y0 ← float_mul_int (f2 orientation) (c0 hex);
  y1 ← float_mul_int (f3 orientation) (c1 hex);
  let y := ((y0 + y1) * size)%float in
  Ok (x, y).

Definition pixel_to_hex (point : float * float) (size : float)
    (layout : string) : result CubeHex :=
  let orientation :=
    if String.eqb layout "pointy" then LAYOUT_POINTY else LAYOUT_FLAT in
  let '(x, y) := point in
  x ← float_div x size;
  y ← float_div y size;
  let q := (b0 orientation * x + b1 orientation * y)%float in
  let r := (b2 orientation * x + b3 orientation * y)%float in
  cube_round (PyFloat q, PyFloat r, PyFloat (- q - r)%float).

(** [math.cos] and [math.sin] belong to the C library, not to this
    repository: the corner functions take them as parameters.  [math.pi]
    is the binary64 nearest to pi. *)
Definition math_pi : float := 0x1.921fb54442d18p+1%float.

Section Corners.
Variables math_cos math_sin : float -> float.

Definition hex_corner_offset (corner : Z) (size : float) (layout : string)
  : result (float * float) :=
  let angle_deg := 60 * corner + (if String.eqb layout "pointy" then 30 else 0) in
  angle_rad ← float_mul_int (math_pi / 180)%float angle_deg;
  Ok ((size * math_cos angle_rad)%float, (size * math_sin angle_rad)%float).

Definition polygon_corner (hex : CubeHex) (size : float) (layout : string)
    (center : float * float) (corners : list (float * float)) (i : Z)
  : result (list (float * float)) :=
  offset ← hex_corner_offset i size layout;
  Ok (corners ++ [((center.1 + offset.1)%float, (center.2 + offset.2)%float)]).

Definition polygon_corners (hex : CubeHex) (size : float) (layout : string)
  : result (list (float * float)) :=
  let corners := [] in
  center ← hex_to_pixel hex size layout;
  foldM (polygon_corner hex size layout center) (range 6) corners.
End Corners.

(** * Vocabulary of the specification *)

(** The invariant of a cube hex. *)
Definition zero_sum (h : CubeHex) : Prop := c0 h + c1 h + c2 h = 0.

(** Two hexes are adjacent when one is one of the six neighbours of the
    other. *)
Definition adjacent (a b : CubeHex) : Prop := b ∈ cube_neighbors a.

(** [l] is a chain of adjacent hexes. *)
Fixpoint chain (l : list CubeHex) : Prop :=
  match l with
  | a :: (b :: _) as l' => adjacent a b /\ chain l'
  | _ => True
  end.

(** One side of a ring as the inner loop of [cube_ring] walks it: [n]
    hexes from [hex], each the neighbour in direction [i] of the one
    before; and the hex the walk stops on. *)
Fixpoint side (i : Z) (hex : CubeHex) (n : nat) : list CubeHex :=
  match n with
  | O => []
  | S n' => hex :: side i (cube_neighbor hex i) n'
  end.

Fixpoint side_end (i : Z) (hex : CubeHex) (n : nat) : CubeHex :=
  match n with
  | O => hex
  | S n' => side_end i (cube_neighbor hex i) n'
  end.

(** Two runs of a set-valued computation, the second ending like the
    first but with a set at least as large. *)
Definition result_le (r r' : result (gset CubeHex)) : Prop :=
  match r, r' with
  | Ok V, Ok V' => V ⊆ V'
  | Raise e, Raise e' => e = e'
  | _, _ => False
  end.

(** The hexes a search from [start] can ever reach: those whose
    difference with [start] is a cube vector. *)
Definition aligned (start h : CubeHex) : Prop :=
  zero_sum (cube_subtract h start).

(** [l] leads from [start] to [goal] by steps between adjacent hexes and
    enters no obstacle (where it starts is not looked at). *)
Definition route (obstacles : gset CubeHex) (start goal : CubeHex)
    (l : list CubeHex) : Prop :=
  head l = Some start /\ last l = Some goal /\ chain l /\
  forall h, h ∈ tail l -> h ∉ obstacles.

(** [l] is the route from [start] to [h] that the predecessors recorded
    in [came_from] spell out. *)
Inductive linked (obstacles : gset CubeHex)
    (came_from : gmap CubeHex (option CubeHex)) (start : CubeHex)
  : CubeHex -> list CubeHex -> Prop :=
| linked_start : linked obstacles came_from start start [start]
| linked_step (h p : CubeHex) (l : list CubeHex) :
    h <> start ->
    came_from !! h = Some (Some p) ->
    adjacent p h ->
    h ∉ obstacles ->
    linked obstacles came_from start p l ->
    linked obstacles came_from start h (l ++ [h]).

(** The invariant of the [while frontier] loop of [cube_path]. *)
Record path_inv (obstacles : gset CubeHex) (start goal : CubeHex)
    (frontier : list CubeHex) (came_from : gmap CubeHex (option CubeHex))
  : Prop := PathInv {
  pi_start : came_from !! start = Some None;
  pi_linked : forall h, is_Some (came_from !! h) ->
              exists l, linked obstacles came_from start h l;
  pi_front : forall h, h ∈ frontier -> is_Some (came_from !! h);
  pi_closed : forall h n, is_Some (came_from !! h) -> h ∉ frontier ->
              adjacent h n -> n ∉ obstacles -> is_Some (came_from !! n);
  pi_goal : is_Some (came_from !! goal) -> goal ∈ frontier
}.

(** The invariant of a breadth-first search without obstacles, in terms
    of the frontier and of the hexes seen so far: the frontier holds
    hexes at distance [d] from the start followed by hexes at distance
    [d + 1]; every hex within distance [d] has been seen; a seen hex that
    has left the frontier has all its neighbours seen. *)
Record level_inv (start : CubeHex) (d : Z) (frontier : list CubeHex)
    (seen : CubeHex -> Prop) : Prop := LevelInv {
  li_level : 0 <= d;
  li_split : exists A B,
      frontier = A ++ B /\
      (forall x, x ∈ A -> cube_distance start x = d) /\
      (forall x, x ∈ B -> cube_distance start x = d + 1);
  li_seen : forall h, seen h ->
            aligned start h /\ cube_distance start h <= d + 1;
  li_full : forall h, aligned start h -> cube_distance start h <= d -> seen h;
  li_closed : forall h n, seen h -> h ∉ frontier -> adjacent h n -> seen n;
  li_front : forall h, h ∈ frontier -> seen h
}.

(** Every recorded predecessor is one step closer to the start. *)
Definition pred_level (start : CubeHex)
    (came_from : gmap CubeHex (option CubeHex)) : Prop :=
  forall h p, came_from !! h = Some (Some p) ->
              cube_distance start h = cube_distance start p + 1.

(** The invariant of the loop of [cube_bfs] on the open grid: the levels
    of the frontier, and every recorded distance is the hex distance. *)
Definition bfs_inv (start : CubeHex) (d : Z) (st : bfs_state) : Prop :=
  level_inv start d (frontier st) (fun h => is_Some (distance st !! h)) /\
  forall h v, distance st !! h = Some v -> v = cube_distance start h.

(** What the loop of [cube_bfs] keeps besides, while it runs with a
    non-empty set of goals: no hex waits twice in the frontier, the goals
    found are the goals that have left the frontier, and some goal is
    still to be found. *)
Record bfs_run_inv (start : CubeHex) (goals : gset CubeHex) (d : Z)
    (st : bfs_state) : Prop := BfsRunInv {
  br_inv : bfs_inv start d st;
  br_nodup : NoDup (frontier st);
  br_found : forall g, g ∈ found_goals st <->
                       g ∈ goals /\ is_Some (distance st !! g) /\
                       g ∉ frontier st;
  br_more : found_goals st <> goals
}.

(** The four parity schemes of the offset functions. *)
Definition recognized (offset_type : string) : Prop :=
  offset_type = "odd-r" \/ offset_type = "even-r" \/
  offset_type = "odd-q" \/ offset_type = "even-q".

(** The line of sight from [center] to [hex] is drawn and runs through no
    obstacle and through no hex farther than [radius] from the centre. *)
Definition unblocked (center : CubeHex) (radius : Z)
    (obstacles : gset CubeHex) (hex : CubeHex) : Prop :=
  exists line, cube_line center hex = Ok line /\
               forall x, x ∈ line ->
                         (x ∉ obstacles) /\ cube_distance center x <= radius.

(** The number of steps of a route: one less than its hexes. *)
Definition steps (l : list CubeHex) : Z := Z.of_nat (length l) - 1.

(** A hex recorded at distance [d] has its neighbours looked at: there is
    no bound, or [d] is below it. *)
Definition expands (max_distance : option Z) (d : Z) : Prop :=
  match max_distance with
  | Some m => d < m
  | None => True
  end.

(** The invariant of a breadth-first search among obstacles and under a
    bound, in terms of the frontier and of the level [lev] at which each
    hex seen so far was recorded: the frontier holds hexes of level [d]
    followed by hexes of level [d + 1]; a level is the number of steps of
    some route, and of no more steps than any route of at most [d] steps
    that the bound allows; a hex that has left the frontier and is
    expanded has all its free neighbours seen. *)
Record search_inv (obstacles : gset CubeHex) (start : CubeHex)
    (max_distance : option Z) (d : Z) (frontier : list CubeHex)
    (lev : CubeHex -> Z -> Prop) : Prop := SearchInv {
  si_level : 0 <= d;
  si_split : exists A B,
      frontier = A ++ B /\
      (forall x, x ∈ A -> lev x d) /\
      (forall x, x ∈ B -> lev x (d + 1));
  si_fun : forall h n m, lev h n -> lev h m -> n = m;
  si_route : forall h n, lev h n ->
      n <= d + 1 /\ exists l, route obstacles start h l /\ steps l = n;
  si_bounded : forall h n, lev h n -> n = 0 \/ expands max_distance (n - 1);
  si_min : forall h l, route obstacles start h l -> steps l <= d ->
      steps l = 0 \/ expands max_distance (steps l - 1) ->
      exists n, lev h n /\ n <= steps l;
  si_closed : forall h n k, lev h n -> h ∉ frontier ->
      expands max_distance n -> adjacent h k -> k ∉ obstacles ->
      exists m, lev k m;
  si_front : forall h, h ∈ frontier -> exists n, lev h n
}.

(** The level of a hex in [cube_path]: the steps of the route its
    predecessors spell out. *)
Definition path_lev (obstacles : gset CubeHex)
    (came_from : gmap CubeHex (option CubeHex)) (start : CubeHex)
    (h : CubeHex) (n : Z) : Prop :=
  exists l, linked obstacles came_from start h l /\ steps l = n.

(** The level of a hex in [cube_bfs]: its recorded distance. *)
Definition bfs_lev (st : bfs_state) (h : CubeHex) (n : Z) : Prop :=
  distance st !! h = Some n.

(** The two exceptions of a conversion between [int] and [float]. *)
Definition conversion_error (e : exn) : Prop :=
  e = OverflowError \/ e = ValueError "cannot convert float NaN to integer".




(** * Properties *)

(** ** Arithmetic helpers *)

Lemma range_elem (n x : Z) : x ∈ range n <-> 0 <= x < n.
Proof.
  unfold range. rewrite list_elem_of_fmap. split.
  - intros (k & -> & Hk). apply elem_of_seq in Hk. lia.
  - intros H. exists (Z.to_nat x). split; [lia|]. apply elem_of_seq. lia.
Qed.

Lemma range_from_elem (a b x : Z) : x ∈ range_from a b <-> a <= x < b.
Proof.
  unfold range_from. rewrite list_elem_of_fmap. split.
  - intros (k & -> & Hk). apply elem_of_seq in Hk. lia.
  - intros H. exists (Z.to_nat (x - a)). split; [lia|]. apply elem_of_seq. lia.
Qed.

(** ** Coordinate conversions (C7) *)

Lemma oddr_roundtrip (h : CubeHex) :
  zero_sum h -> oddr_to_cube (cube_to_oddr h) = h.
Proof.
  destruct h as [[q r] s]. unfold zero_sum, c0, c1, c2. simpl. intros H.
  repeat f_equal; lia.
Qed.

Lemma evenr_roundtrip (h : CubeHex) :
  zero_sum h -> evenr_to_cube (cube_to_evenr h) = h.
Proof.
  destruct h as [[q r] s]. unfold zero_sum, c0, c1, c2. simpl. intros H.
  repeat f_equal; lia.
Qed.

Lemma oddq_roundtrip (h : CubeHex) :
  zero_sum h -> oddq_to_cube (cube_to_oddq h) = h.
Proof.
  destruct h as [[q r] s]. unfold zero_sum, c0, c1, c2. simpl. intros H.
  repeat f_equal; lia.
Qed.

Lemma evenq_roundtrip (h : CubeHex) :
  zero_sum h -> evenq_to_cube (cube_to_evenq h) = h.
Proof.
  destruct h as [[q r] s]. unfold zero_sum, c0, c1, c2. simpl. intros H.
  repeat f_equal; lia.
Qed.

Lemma axial_roundtrip (h : CubeHex) :
  zero_sum h -> axial_to_cube (cube_to_axial h) = h.
Proof.
  destruct h as [[q r] s]. unfold zero_sum, c0, c1, c2. simpl. intros H.
  repeat f_equal; lia.
Qed.

(** C7. For each of the four parity schemes, and for the axial form, a
    cube hex with [q + r + s = 0] converted out of cube space and back is
    the hex itself; the conversions are functions on [Z] only. *)
Theorem conversions_roundtrip (h : CubeHex) :
  zero_sum h ->
  oddr_to_cube (cube_to_oddr h) = h /\
  evenr_to_cube (cube_to_evenr h) = h /\
  oddq_to_cube (cube_to_oddq h) = h /\
  evenq_to_cube (cube_to_evenq h) = h /\
  axial_to_cube (cube_to_axial h) = h.
Proof.
  intros H.
  repeat split;
    auto using oddr_roundtrip, evenr_roundtrip, oddq_roundtrip,
      evenq_roundtrip, axial_roundtrip.
Qed.

Lemma conversions_roundtrip_witness :
  zero_sum (3, -5, 2) /\
  oddr_to_cube (cube_to_oddr (3, -5, 2)) = (3, -5, 2) /\
  evenr_to_cube (cube_to_evenr (3, -5, 2)) = (3, -5, 2) /\
  oddq_to_cube (cube_to_oddq (3, -5, 2)) = (3, -5, 2) /\
  evenq_to_cube (cube_to_evenq (3, -5, 2)) = (3, -5, 2) /\
  axial_to_cube (cube_to_axial (3, -5, 2)) = (3, -5, 2).
Proof.
  split; [reflexivity|]. apply (conversions_roundtrip (3, -5, 2)). reflexivity.
Defined.

(** ** Rectangular maps (C10) *)

Lemma rect_rows (col : Z) (rows : list Z) (hexes : gset OffsetHex)
    (p : OffsetHex) :
  p ∈ foldl (fun hexes row => {[(col, row)]} ∪ hexes) hexes rows <->
  p ∈ hexes \/ exists row, row ∈ rows /\ p = (col, row).
Proof.
  revert hexes. induction rows as [|row rows IH]; intros hexes; simpl.
  - split; [auto|]. intros [H|(row & Hrow & _)]; [done|]. inversion Hrow.
  - rewrite IH, elem_of_union, elem_of_singleton. split.
    + intros [[->|H]|(row' & Hin & ->)]; eauto using list_elem_of_here.
      right. exists row'. split; [by apply list_elem_of_further|done].
    + intros [H|(row' & Hin & ->)]; [auto|].
      apply elem_of_cons in Hin as [->|Hin]; eauto.
Qed.

Lemma rect_cols (rows cols : list Z) (hexes : gset OffsetHex)
    (p : OffsetHex) :
  p ∈ foldl (fun hexes col =>
               foldl (fun hexes row => {[(col, row)]} ∪ hexes) hexes rows)
            hexes cols <->
  p ∈ hexes \/ exists col row, col ∈ cols /\ row ∈ rows /\ p = (col, row).
Proof.
  revert hexes. induction cols as [|col cols IH]; intros hexes; simpl.
  - split; [auto|]. intros [H|(col & row & Hcol & _)]; [done|]. inversion Hcol.
  - rewrite IH, rect_rows. split.
    + intros [[H|(row & Hrow & ->)]|(col' & row & Hcol & Hrow & ->)].
      * by left.
      * right. exists col, row. split; [apply list_elem_of_here|done].
      * right. exists col', row. split; [by apply list_elem_of_further|done].
    + intros [H|(col' & row & Hcol & Hrow & ->)]; [auto|].
      apply elem_of_cons in Hcol as [->|Hcol]; [left; right|right]; eauto.
Qed.

(** C10. [generate_rectangular_map] does not depend on its parity-scheme
    argument: for any two scheme strings, recognised or not, it returns
    the same set, the one of all [(col, row)] with [0 <= col < width] and
    [0 <= row < height]. *)
Theorem rectangular_map_ignores_scheme (width height : Z) (s1 s2 : string) :
  generate_rectangular_map width height s1
  = generate_rectangular_map width height s2 /\
  forall col row,
    (col, row) ∈ generate_rectangular_map width height s1 <->
    0 <= col < width /\ 0 <= row < height.
Proof.
  split; [reflexivity|]. intros col row.
  unfold generate_rectangular_map. rewrite rect_cols. split.
  - intros [H|(col' & row' & Hcol & Hrow & E)]; [set_solver|].
    inversion E; subst. by rewrite <- !range_elem.
  - intros [Hcol Hrow]. right. exists col, row.
    by rewrite !range_elem.
Qed.

(** ** Scheme and layout selectors (C3) *)

Lemma eqb_other (s t : string) : s <> t -> String.eqb s t = false.
Proof. apply String.eqb_neq. Qed.

(** C3, as the specification states it, fails on the code: the string
    ["oblique"] is neither a parity scheme nor a layout, and the pixel
    functions and the rectangular map return a value for it (the value
    of the flat layout). *)
Lemma selector_counterexample :
  hex_to_pixel (1, 0, -1) 2 "oblique" = Ok (3, PrimFloat.sqrt 3)%float /\
  pixel_to_hex (3, 2)%float 2 "oblique" = Ok (1, 0, -1) /\
  generate_rectangular_map 1 1 "oblique" = {[ (0, 0) ]}.
Proof.
  split; [|split].
  - vm_compute. reflexivity.
  - vm_compute. reflexivity.
  - vm_compute. reflexivity.
Qed.

Ltac unknown_scheme :=
  repeat match goal with
  | H : ?s <> ?t |- context [String.eqb ?s ?t] =>
      rewrite (eqb_other s t H)
  end.

(** C3, amended.  A scheme string other than the four recognised ones makes
    every offset operation that dispatches on it raise [ValueError] at the
    call, before any conversion or search; [generate_rectangular_map] does
    not read the scheme.  A layout string other than ["pointy"] is read as
    the flat layout by the three pixel functions. *)
Theorem selector_handling (offset_type layout : string)
    (math_cos math_sin : float -> float) :
  offset_type <> "odd-r" -> offset_type <> "even-r" ->
  offset_type <> "odd-q" -> offset_type <> "even-q" ->
  layout <> "pointy" ->
  (forall a b,
     offset_distance a b offset_type = Raise (ValueError "Invalid offset type")) /\
  (forall hex direction,
     offset_neighbor hex direction offset_type
     = Raise (ValueError "Invalid offset type")) /\
  (forall hex,
     offset_neighbors hex offset_type = Raise (ValueError "Invalid offset type")) /\
  (forall center radius,
     offset_ring center radius offset_type
     = Raise (ValueError "Invalid offset type")) /\
  (forall center radius,
     offset_spiral center radius offset_type
     = Raise (ValueError "Invalid offset type")) /\
  (forall a b,
     offset_line a b offset_type = Raise (ValueError "Invalid offset type")) /\
  (forall center radius obstacles,
     offset_visible center radius obstacles offset_type
     = Raise (ValueError "Invalid offset type")) /\
  (forall fuel start goal obstacles,
     offset_path fuel start goal obstacles offset_type
     = Some (Raise (ValueError "Invalid offset type"))) /\
  (forall width height,
     generate_rectangular_map width height offset_type
     = generate_rectangular_map width height "odd-r") /\
  (forall hex size,
     hex_to_pixel hex size layout = hex_to_pixel hex size "flat") /\
  (forall point size,
     pixel_to_hex point size layout = pixel_to_hex point size "flat") /\
  (forall corner size,
     hex_corner_offset math_cos math_sin corner size layout
     = hex_corner_offset math_cos math_sin corner size "flat").
Proof.
  intros H1 H2 H3 H4 HL.
  assert (Hn : forall hex direction,
             offset_neighbor hex direction offset_type
             = Raise (ValueError "Invalid offset type")).
  { intros. unfold offset_neighbor. unknown_scheme. reflexivity. }
  repeat split; intros; try apply Hn;
    unfold offset_distance, offset_neighbors, offset_ring,
      offset_spiral, offset_line, offset_visible, offset_path, hex_to_pixel,
      pixel_to_hex, hex_corner_offset;
    unknown_scheme; try reflexivity.
  change (range 6) with [0; 1; 2; 3; 4; 5]. simpl. rewrite (Hn hex 0). reflexivity.
Qed.

Lemma selector_handling_witness :
  offset_distance (0, 0) (1, 1) "oblique"
  = Raise (ValueError "Invalid offset type") /\
  offset_path 0 (0, 0) (1, 1) ∅ "oblique"
  = Some (Raise (ValueError "Invalid offset type")) /\
  hex_to_pixel (1, 0, -1) 2 "oblique" = hex_to_pixel (1, 0, -1) 2 "flat".
Proof.
  pose proof (selector_handling "oblique" "oblique" (fun x => x) (fun x => x)
                ltac:(discriminate) ltac:(discriminate) ltac:(discriminate)
                ltac:(discriminate) ltac:(discriminate)) as H.
  split; [apply H|]. split; apply H.
Defined.

(** ** Lines (C1, C2) *)

Lemma cube_distance_self (a : CubeHex) : cube_distance a a = 0.
Proof.
  unfold cube_distance. rewrite !Z.sub_diag. reflexivity.
Qed.

Lemma int_add_float_cases (x : Z) (f : float) :
  int_add_float x f = Raise OverflowError \/ exists g, int_add_float x f = Ok g.
Proof.
  unfold int_add_float, float_of_int.
  destruct (binary_normalize prec emax x 0 false); simpl; eauto.
Qed.

Lemma int_sub_float_cases (x : Z) (f : float) :
  int_sub_float x f = Raise OverflowError \/ exists g, int_sub_float x f = Ok g.
Proof.
  unfold int_sub_float, float_of_int.
  destruct (binary_normalize prec emax x 0 false); simpl; eauto.
Qed.

Lemma line_sample_zero (a_nudge b_nudge : FracHex) (results : list CubeHex)
    (i : Z) :
  line_sample 0 a_nudge b_nudge results i = Raise ZeroDivisionError.
Proof. reflexivity. Qed.

(** C2 fails on the code.  For every hex [a], [cube_line a a] raises: the
    distance is 0, the loop runs once, and its first statement divides
    [1.0] by that 0 (unless a coordinate was already too large for the
    conversion to float before the loop). *)
Theorem line_same_hex_raises (a : CubeHex) :
  cube_line a a = Raise ZeroDivisionError \/
  cube_line a a = Raise OverflowError.
Proof.
  unfold cube_line. rewrite cube_distance_self.
  destruct (int_add_float_cases (c0 a) lit_1e_6) as [->|[a0 ->]]; [by right|].
  destruct (int_add_float_cases (c1 a) lit_1e_6) as [->|[a1 ->]]; [by right|].
  destruct (int_sub_float_cases (c2 a) lit_2e_6) as [->|[a2 ->]]; [by right|].
  left. reflexivity.
Qed.

(** The same at the origin, by evaluation. *)
Lemma line_origin_origin :
  cube_line (0, 0, 0) (0, 0, 0) = Raise ZeroDivisionError.
Proof. vm_compute. reflexivity. Qed.

(** C1 fails on the code.  From [(0,0,0)] to [(1,1,-2)] the distance is 2
    and three hexes are returned, but the middle sample is [(1,1,-2)]
    again: the first two hexes are at distance 2 and the last two are
    equal.  [cube_lerp] rounds [q] and [r] one by one (0.500001 to 1,
    twice), so [cube_round] receives integers, finds no rounding error
    and always recomputes [s]. *)
Theorem line_not_connected :
  cube_distance (0, 0, 0) (1, 1, -2) = 2 /\
  cube_line (0, 0, 0) (1, 1, -2) = Ok [(0, 0, 0); (1, 1, -2); (1, 1, -2)] /\
  cube_distance (0, 0, 0) (1, 1, -2) <> 1 /\
  cube_distance (1, 1, -2) (1, 1, -2) <> 1.
Proof.
  repeat split; try (vm_compute; reflexivity); vm_compute; discriminate.
Qed.

(** What [cube_round] does with the integers it gets from [cube_lerp]:
    all three differences are 0, no comparison is strict, and the last
    branch recomputes [s]. *)
Lemma cube_round_int_triple (p : CubeHex) :
  cube_round (int_triple p) = Ok (c0 p, c1 p, - c0 p - c1 p).
Proof.
  unfold cube_round, int_triple. simpl. rewrite !Z.sub_diag. reflexivity.
Qed.

(** ** Rings and spirals (C6) *)

(** An equation between two triples, component by component. *)
Ltac triple :=
  repeat match goal with
  | |- (_, _) = (_, _) => apply f_equal2
  end; try lia.

Lemma ring_side_fold (i : Z) (l : list Z) (results : list CubeHex)
    (hex : CubeHex) :
  foldl (ring_step i) (results, hex) l
  = (results ++ side i hex (length l), side_end i hex (length l)).
Proof.
  revert results hex. induction l as [|j l IH]; intros results hex; simpl.
  - by rewrite app_nil_r.
  - rewrite IH. by rewrite <- app_assoc.
Qed.

Lemma range_length (n : Z) : length (range n) = Z.to_nat n.
Proof. unfold range. by rewrite length_map, length_seq. Qed.

Lemma side_coords (i : Z) (n : nat) (q r s : Z) :
  let d := direction_at (i mod 6) in
  side i (q, r, s) n
  = map (fun j : nat =>
           (q + c0 d * Z.of_nat j, r + c1 d * Z.of_nat j, s + c2 d * Z.of_nat j))
        (seq 0 n) /\
  side_end i (q, r, s) n
  = (q + c0 d * Z.of_nat n, r + c1 d * Z.of_nat n, s + c2 d * Z.of_nat n).
Proof.
  intros d. revert q r s. induction n as [|n IH]; intros q r s.
  - simpl. split; [done|]. triple.
  - simpl side. simpl side_end. unfold cube_neighbor, cube_add. fold d.
    change (c0 (q, r, s)) with q. change (c1 (q, r, s)) with r.
    change (c2 (q, r, s)) with s.
    destruct (IH (q + c0 d) (r + c1 d) (s + c2 d)) as [IH1 IH2].
    rewrite IH1, IH2. split.
    + simpl seq. rewrite <- seq_shift. simpl map. rewrite map_map.
      f_equal; [triple|].
      apply map_ext. intros j. triple.
    + triple.
Qed.

(** The ring of positive radius, side by side, in coordinates. *)
Lemma cube_ring_sides (q r s R : Z) :
  0 < R ->
  let n := Z.to_nat R in
  cube_ring (q, r, s) R
  = map (fun j : nat => (q - R + Z.of_nat j, r + R, s - Z.of_nat j)) (seq 0 n)
    ++ map (fun j : nat => (q + Z.of_nat j, r + R - Z.of_nat j, s - R)) (seq 0 n)
    ++ map (fun j : nat => (q + R, r - Z.of_nat j, s - R + Z.of_nat j)) (seq 0 n)
    ++ map (fun j : nat => (q + R - Z.of_nat j, r - R, s + Z.of_nat j)) (seq 0 n)
    ++ map (fun j : nat => (q - Z.of_nat j, r - R + Z.of_nat j, s + R)) (seq 0 n)
    ++ map (fun j : nat => (q - R, r + Z.of_nat j, s + R - Z.of_nat j)) (seq 0 n).
Proof.
  intros HR n. unfold cube_ring.
  destruct (Z.eqb_spec R 0) as [E|_]; [lia|].
  change (range 6) with [0; 1; 2; 3; 4; 5].
  unfold foldl, ring_side. rewrite !ring_side_fold, range_length. fold n.
  simpl fst. unfold cube_add, cube_scale.
  change (direction_at 4) with ((-1, 1, 0) : CubeHex).
  unfold c0, c1, c2. simpl fst. simpl snd.
  assert (En : Z.of_nat n = R) by lia.
  repeat match goal with
  | |- context [side ?i (?a, ?b, ?c) n] =>
      rewrite (proj1 (side_coords i n a b c))
  | |- context [side_end ?i (?a, ?b, ?c) n] =>
      rewrite (proj2 (side_coords i n a b c))
  end.
  change (direction_at (0 mod 6)) with ((1, 0, -1) : CubeHex).
  change (direction_at (1 mod 6)) with ((1, -1, 0) : CubeHex).
  change (direction_at (2 mod 6)) with ((0, -1, 1) : CubeHex).
  change (direction_at (3 mod 6)) with ((-1, 0, 1) : CubeHex).
  change (direction_at (4 mod 6)) with ((-1, 1, 0) : CubeHex).
  change (direction_at (5 mod 6)) with ((0, 1, -1) : CubeHex).
  unfold c0, c1, c2. simpl fst. simpl snd. rewrite !En.
  simpl app. rewrite <- !app_assoc.
  repeat (f_equal; [apply map_ext; intros j; triple|]).
  apply map_ext; intros j; triple.
Qed.

Lemma side_list_elem (f : nat -> CubeHex) (n : nat) (h : CubeHex) :
  h ∈ map f (seq 0 n) <-> exists j : nat, (j < n)%nat /\ h = f j.
Proof.
  rewrite list_elem_of_fmap. split.
  - intros (j & -> & Hj). apply elem_of_seq in Hj. exists j. split; [lia|done].
  - intros (j & Hj & ->). exists j. split; [done|]. apply elem_of_seq. lia.
Qed.

Lemma side_list_NoDup (f : nat -> CubeHex) (n : nat) :
  (forall i j : nat, f i = f j -> i = j) -> NoDup (map f (seq 0 n)).
Proof.
  intros Hf. apply (NoDup_fmap_2 f (Inj0 := Hf)). apply NoDup_seq.
Qed.

Ltac ring_members :=
  repeat match goal with
  | H : _ ∈ _ ++ _ |- _ => apply elem_of_app in H as [H|H]
  | H : _ ∈ map _ (seq 0 _) |- _ =>
      apply side_list_elem in H as (? & ? & H)
  end.

Lemma cube_ring_NoDup (center : CubeHex) (R : Z) :
  0 < R -> NoDup (cube_ring center R).
Proof.
  destruct center as [[q r] s]. intros HR. rewrite cube_ring_sides by done.
  repeat (apply NoDup_app; split;
    [apply side_list_NoDup; intros i j E; inversion E; lia
    |split;
       [intros x Hx Hy; ring_members; subst x; inversion Hy; lia|]]).
  apply side_list_NoDup; intros i j E; inversion E; lia.
Qed.

Lemma half_of_double (x R : Z) : x = 2 * R -> x / 2 = R.
Proof. intros ->. rewrite Z.mul_comm. apply Z.div_mul. lia. Qed.

Lemma cube_ring_distance (center : CubeHex) (R : Z) (h : CubeHex) :
  0 < R -> h ∈ cube_ring center R -> cube_distance center h = R.
Proof.
  destruct center as [[q r] s]. intros HR Hh.
  rewrite cube_ring_sides in Hh by done.
  ring_members; subst h; unfold cube_distance, c0, c1, c2; simpl;
    apply half_of_double; lia.
Qed.

Lemma cube_ring_length (center : CubeHex) (R : Z) :
  0 < R -> length (cube_ring center R) = Z.to_nat (6 * R).
Proof.
  destruct center as [[q r] s]. intros HR. rewrite cube_ring_sides by done.
  rewrite !length_app, !length_map, !length_seq. lia.
Qed.

Lemma cube_ring_head (center : CubeHex) (R : Z) :
  0 < R ->
  head (cube_ring center R)
  = Some (cube_add center (cube_scale (direction_at 4) R)).
Proof.
  destruct center as [[q r] s]. intros HR. rewrite cube_ring_sides by done.
  destruct (Z.to_nat R) as [|n] eqn:E; [lia|]. simpl.
  unfold cube_add, cube_scale, c0, c1, c2. simpl. apply (f_equal Some). triple.
Qed.

Lemma cube_ring_zero_sum (center : CubeHex) (R : Z) (h : CubeHex) :
  zero_sum center -> h ∈ cube_ring center R -> zero_sum h.
Proof.
  intros Hc Hh. destruct (Z.lt_trichotomy R 0) as [HR|[->|HR]].
  - unfold cube_ring in Hh. destruct (Z.eqb_spec R 0); [lia|].
    change (range 6) with [0; 1; 2; 3; 4; 5] in Hh.
    unfold foldl, ring_side in Hh. rewrite !ring_side_fold, range_length in Hh.
    replace (Z.to_nat R) with O in Hh by lia. simpl in Hh. inversion Hh.
  - unfold cube_ring in Hh. simpl in Hh. apply list_elem_of_singleton in Hh.
    by subst.
  - destruct center as [[q r] s]. rewrite cube_ring_sides in Hh by done.
    unfold zero_sum, c0, c1, c2 in *. simpl in Hc.
    ring_members; subst h; simpl; lia.
Qed.

Lemma foldl_extend {A B : Type} (f : B -> list A) (l : list B)
    (results : list A) :
  foldl (fun results k => results ++ f k) results l
  = results ++ concat (map f l).
Proof.
  revert results. induction l as [|k l IH]; intros results; simpl.
  - by rewrite app_nil_r.
  - by rewrite IH, app_assoc.
Qed.

Lemma cube_spiral_rings (center : CubeHex) (r : Z) :
  cube_spiral center r
  = center :: concat (map (cube_ring center) (range_from 1 (r + 1))).
Proof. unfold cube_spiral. by rewrite foldl_extend. Qed.

Lemma range_from_succ (r : Z) :
  0 <= r -> range_from 1 (r + 1 + 1) = range_from 1 (r + 1) ++ [r + 1].
Proof.
  intros Hr. unfold range_from.
  replace (Z.to_nat (r + 1 + 1 - 1)) with (S (Z.to_nat (r + 1 - 1))) by lia.
  rewrite seq_S, map_app. simpl. do 2 f_equal. lia.
Qed.

Lemma cube_spiral_succ (center : CubeHex) (r : Z) :
  0 <= r ->
  cube_spiral center (r + 1) = cube_spiral center r ++ cube_ring center (r + 1).
Proof.
  intros Hr. rewrite !cube_spiral_rings, range_from_succ by done.
  rewrite map_app, concat_app. simpl. by rewrite app_nil_r.
Qed.

Lemma cube_spiral_zero (center : CubeHex) : cube_spiral center 0 = [center].
Proof. reflexivity. Qed.

Lemma cube_spiral_distance (center : CubeHex) (r : Z) (h : CubeHex) :
  0 <= r -> h ∈ cube_spiral center r -> 0 <= cube_distance center h <= r.
Proof.
  intros Hr. revert h. pattern r. apply natlike_ind; [| |done].
  - intros h Hh. rewrite cube_spiral_zero in Hh.
    apply list_elem_of_singleton in Hh as ->. rewrite cube_distance_self. lia.
  - clear r Hr. intros r Hr IH h Hh.
    replace (Z.succ r) with (r + 1) in * by lia.
    rewrite cube_spiral_succ in Hh by done.
    apply elem_of_app in Hh as [Hh|Hh].
    + specialize (IH h Hh). lia.
    + apply cube_ring_distance in Hh; lia.
Qed.

Lemma cube_spiral_NoDup (center : CubeHex) (r : Z) :
  0 <= r -> NoDup (cube_spiral center r).
Proof.
  intros Hr. pattern r. apply natlike_ind; [| |done].
  - rewrite cube_spiral_zero. apply NoDup_singleton.
  - clear r Hr. intros r Hr IH.
    replace (Z.succ r) with (r + 1) by lia.
    rewrite cube_spiral_succ by done. apply NoDup_app. split; [done|]. split.
    + intros h Hh Hh'. apply cube_spiral_distance in Hh; [|done].
      apply cube_ring_distance in Hh'; lia.
    + apply cube_ring_NoDup. lia.
Qed.

Lemma cube_spiral_length (center : CubeHex) (r : Z) :
  0 <= r -> length (cube_spiral center r) = Z.to_nat (3 * r * r + 3 * r + 1).
Proof.
  intros Hr. pattern r. apply natlike_ind; [| |done].
  - reflexivity.
  - clear r Hr. intros r Hr IH.
    replace (Z.succ r) with (r + 1) by lia.
    rewrite cube_spiral_succ, length_app, IH, cube_ring_length by lia. lia.
Qed.

Lemma cube_spiral_zero_sum (center : CubeHex) (r : Z) (h : CubeHex) :
  zero_sum center -> h ∈ cube_spiral center r -> zero_sum h.
Proof.
  intros Hc. rewrite cube_spiral_rings. intros Hh.
  apply elem_of_cons in Hh as [->|Hh]; [done|].
  apply list_elem_of_In, in_concat in Hh as (ring & Hring & Hh).
  apply in_map_iff in Hring as (k & <- & _).
  apply list_elem_of_In in Hh. by apply cube_ring_zero_sum in Hh.
Qed.

(** C6. The ring of radius 0 is the centre alone.  A ring of radius
    [r > 0] starts at [center + direction[4] * r], has [6 * r] hexes, no
    hex twice, each at distance [r] from the centre.  The spiral is the
    centre followed by the rings of radius 1 to [r] in that order; it has
    [3r² + 3r + 1] hexes, no hex twice. *)
Theorem ring_and_spiral (center : CubeHex) (r : Z) :
  0 <= r ->
  cube_ring center 0 = [center] /\
  (0 < r ->
   head (cube_ring center r)
   = Some (cube_add center (cube_scale (direction_at 4) r)) /\
   length (cube_ring center r) = Z.to_nat (6 * r) /\
   NoDup (cube_ring center r) /\
   forall h, h ∈ cube_ring center r -> cube_distance center h = r) /\
  cube_spiral center r
  = center :: concat (map (cube_ring center) (range_from 1 (r + 1))) /\
  length (cube_spiral center r) = Z.to_nat (3 * r * r + 3 * r + 1) /\
  NoDup (cube_spiral center r).
Proof.
  intros Hr. split; [reflexivity|]. split; [|split; [|split]].
  - intros Hpos. split; [by apply cube_ring_head|].
    split; [by apply cube_ring_length|].
    split; [by apply cube_ring_NoDup|].
    intros h. by apply cube_ring_distance.
  - apply cube_spiral_rings.
  - by apply cube_spiral_length.
  - by apply cube_spiral_NoDup.
Qed.

Lemma ring_and_spiral_witness :
  0 <= 2 /\
  cube_ring (0, 0, 0) 0 = [(0, 0, 0)] /\
  (0 < 2 ->
   head (cube_ring (0, 0, 0) 2)
   = Some (cube_add (0, 0, 0) (cube_scale (direction_at 4) 2)) /\
   length (cube_ring (0, 0, 0) 2) = Z.to_nat (6 * 2) /\
   NoDup (cube_ring (0, 0, 0) 2) /\
   forall h, h ∈ cube_ring (0, 0, 0) 2 -> cube_distance (0, 0, 0) h = 2) /\
  cube_spiral (0, 0, 0) 2
  = (0, 0, 0) :: concat (map (cube_ring (0, 0, 0)) (range_from 1 (2 + 1))) /\
  length (cube_spiral (0, 0, 0) 2) = Z.to_nat (3 * 2 * 2 + 3 * 2 + 1) /\
  NoDup (cube_spiral (0, 0, 0) 2).
Proof.
  split; [lia|]. apply (ring_and_spiral (0, 0, 0) 2). lia.
Defined.

(** ** Field of view (C9) *)

Section Monotone.
Variables (center : CubeHex) (radius : Z).
Variables obstacles obstacles' : gset CubeHex.
Hypothesis fewer : obstacles' ⊆ obstacles.

Lemma line_blocked_mono (line : list CubeHex) :
  line_blocked center radius obstacles' line = true ->
  line_blocked center radius obstacles line = true.
Proof using fewer.
  induction line as [|h line IH]; simpl; [done|].
  destruct (bool_decide_reflect (h ∈ obstacles')) as [Hin|Hout].
  - intros _. rewrite bool_decide_eq_true_2; [done|]. by apply fewer.
  - destruct (bool_decide (h ∈ obstacles)); [done|].
    destruct (cube_distance center h >? radius); [done|]. exact IH.
Qed.

Lemma foldM_le {A : Type} (f f' : gset CubeHex -> A -> result (gset CubeHex))
    (l : list A) :
  (forall V V' x, V ⊆ V' -> result_le (f V x) (f' V' x)) ->
  forall V V', V ⊆ V' -> result_le (foldM f l V) (foldM f' l V').
Proof.
  intros Hf. induction l as [|x l IH]; intros V V' HV; simpl; [done|].
  specialize (Hf V V' x HV). unfold result_le in Hf.
  destruct (f V x) as [W|e], (f' V' x) as [W'|e']; simpl; try done.
  by apply IH.
Qed.

Lemma visible_hex_le (V V' : gset CubeHex) (hex : CubeHex) :
  V ⊆ V' ->
  result_le (visible_hex center radius obstacles V hex)
            (visible_hex center radius obstacles' V' hex).
Proof using fewer.
  intros HV. unfold visible_hex.
  destruct (cube_line center hex) as [line|e]; simpl; [|done].
  pose proof (line_blocked_mono line) as Hb.
  destruct (line_blocked center radius obstacles' line),
           (line_blocked center radius obstacles line); simpl.
  - done.
  - by specialize (Hb eq_refl).
  - by apply union_subseteq_r'.
  - by apply union_mono_l.
Qed.

Lemma visible_ring_le (V V' : gset CubeHex) (ring_radius : Z) :
  V ⊆ V' ->
  result_le (visible_ring center radius obstacles V ring_radius)
            (visible_ring center radius obstacles' V' ring_radius).
Proof using fewer.
  intros HV. unfold visible_ring.
  apply foldM_le; [|done]. intros. by apply visible_hex_le.
Qed.

Lemma cube_visible_le :
  result_le (cube_visible center radius obstacles)
            (cube_visible center radius obstacles').
Proof using fewer.
  unfold cube_visible.
  apply foldM_le; [|done]. intros. by apply visible_ring_le.
Qed.
End Monotone.

(** C9. With fewer obstacles the field of view can only grow: for
    [obstacles' ⊆ obstacles], a call that returns with [obstacles]
    returns with [obstacles'] too, and every hex visible in the first
    is visible in the second.  (A call that raises, for coordinates too
    large for a float, raises the same exception in both.) *)
Theorem fov_monotone (center : CubeHex) (radius : Z)
    (obstacles obstacles' : gset CubeHex) :
  obstacles' ⊆ obstacles ->
  (forall V, cube_visible center radius obstacles = Ok V ->
     exists V', cube_visible center radius obstacles' = Ok V' /\ V ⊆ V') /\
  (forall e, cube_visible center radius obstacles = Raise e ->
     cube_visible center radius obstacles' = Raise e).
Proof.
  intros H.
  pose proof (cube_visible_le center radius obstacles obstacles' H) as Hle.
  unfold result_le in Hle.
  destruct (cube_visible center radius obstacles) as [V|e],
           (cube_visible center radius obstacles') as [V'|e']; try done.
  - split; [|done]. intros W [= <-]. eauto.
  - split; [done|]. intros e0 [= <-]. by subst.
Qed.

(** The scenario of the specification: centre [(0,0,0)], radius 2, one
    obstacle at [(1,-1,0)], against no obstacle at all. *)
Lemma fov_monotone_witness :
  (∅ : gset CubeHex) ⊆ {[ (1, -1, 0) ]} /\
  (forall V, cube_visible (0, 0, 0) 2 {[ (1, -1, 0) ]} = Ok V ->
     exists V', cube_visible (0, 0, 0) 2 ∅ = Ok V' /\ V ⊆ V') /\
  (forall e, cube_visible (0, 0, 0) 2 {[ (1, -1, 0) ]} = Raise e ->
     cube_visible (0, 0, 0) 2 ∅ = Raise e).
Proof.
  split; [apply empty_subseteq|].
  apply (fov_monotone (0, 0, 0) 2 {[ (1, -1, 0) ]} ∅). apply empty_subseteq.
Defined.

(** In that scenario both calls return; the obstacle hides itself and
    the two hexes whose line runs through it, and nothing else. *)
Lemma fov_scenario :
  cube_visible (0, 0, 0) 2 ∅ = Ok (list_to_set (cube_spiral (0, 0, 0) 2)) /\
  cube_visible (0, 0, 0) 2 {[ (1, -1, 0) ]}
  = Ok (list_to_set (cube_spiral (0, 0, 0) 2)
        ∖ {[ (1, -1, 0); (2, -2, 0); (1, -2, 1) ]}).
Proof. split; vm_compute; reflexivity. Qed.

(** ** Geometry of adjacency *)

Lemma cube_neighbors_coords (q r s : Z) :
  cube_neighbors (q, r, s)
  = [ (q + 1, r + 0, s + -1); (q + 1, r + -1, s + 0); (q + 0, r + -1, s + 1);
      (q + -1, r + 0, s + 1); (q + -1, r + 1, s + 0); (q + 0, r + 1, s + -1) ].
Proof. reflexivity. Qed.

Lemma adjacent_coords (q r s q' r' s' : Z) :
  adjacent (q, r, s) (q', r', s') <->
  (q' = q + 1 /\ r' = r /\ s' = s - 1) \/
  (q' = q + 1 /\ r' = r - 1 /\ s' = s) \/
  (q' = q /\ r' = r - 1 /\ s' = s + 1) \/
  (q' = q - 1 /\ r' = r /\ s' = s + 1) \/
  (q' = q - 1 /\ r' = r + 1 /\ s' = s) \/
  (q' = q /\ r' = r + 1 /\ s' = s - 1).
Proof.
  unfold adjacent. rewrite cube_neighbors_coords.
  rewrite !elem_of_cons, elem_of_nil. split.
  - intros H. repeat destruct H as [H|H]; try done; inversion H; lia.
  - intros H.
    repeat destruct H as [H|H]; destruct H as (-> & -> & ->);
      [left|right; left|do 2 right; left|do 3 right; left
      |do 4 right; left|do 5 right; left]; triple.
Qed.

Ltac coords :=
  repeat match goal with
  | h : CubeHex |- _ => destruct h as [[? ?] ?]
  end;
  unfold aligned, zero_sum, cube_subtract, cube_distance, c0, c1, c2 in *;
  simpl fst in *; simpl snd in *.

Lemma adjacent_zero_sum (a b : CubeHex) :
  adjacent a b -> zero_sum a -> zero_sum b.
Proof. coords. rewrite adjacent_coords. lia. Qed.

Lemma adjacent_aligned (start a b : CubeHex) :
  adjacent a b -> aligned start a -> aligned start b.
Proof. coords. rewrite adjacent_coords. lia. Qed.

Lemma adjacent_distance (start a b : CubeHex) :
  adjacent a b -> cube_distance start b <= cube_distance start a + 1.
Proof.
  coords. rewrite adjacent_coords. intros H.
  Z.div_mod_to_equations. lia.
Qed.

Lemma cube_distance_nonneg (a b : CubeHex) : 0 <= cube_distance a b.
Proof. coords. Z.div_mod_to_equations. lia. Qed.

Lemma aligned_distance_zero (start h : CubeHex) :
  aligned start h -> cube_distance start h = 0 -> h = start.
Proof.
  coords. intros H. Z.div_mod_to_equations. intros D. triple.
Qed.

Lemma aligned_self (start : CubeHex) : aligned start start.
Proof. coords. lia. Qed.

(** A hex at positive distance has a neighbour one step closer. *)
Lemma closer_neighbor (start h : CubeHex) :
  aligned start h -> 0 < cube_distance start h ->
  exists k, adjacent k h /\ aligned start k /\
            cube_distance start k = cube_distance start h - 1.
Proof.
  destruct start as [[a b] c], h as [[q r] s].
  unfold aligned, zero_sum, cube_subtract, cube_distance, c0, c1, c2.
  simpl fst. simpl snd. intros Hz Hd.
  assert (Hcase :
    (a < q /\ s < c) \/ (a < q /\ r < b) \/ (r < b /\ c < s) \/
    (q < a /\ c < s) \/ (q < a /\ b < r) \/ (b < r /\ s < c)).
  { revert Hd. Z.div_mod_to_equations. lia. }
  destruct Hcase as [H|[H|[H|[H|[H|H]]]]].
  - exists (q - 1, r, s + 1). rewrite adjacent_coords.
    split; [lia|]. simpl. split; [lia|]. Z.div_mod_to_equations. lia.
  - exists (q - 1, r + 1, s). rewrite adjacent_coords.
    split; [lia|]. simpl. split; [lia|]. Z.div_mod_to_equations. lia.
  - exists (q, r + 1, s - 1). rewrite adjacent_coords.
    split; [lia|]. simpl. split; [lia|]. Z.div_mod_to_equations. lia.
  - exists (q + 1, r, s - 1). rewrite adjacent_coords.
    split; [lia|]. simpl. split; [lia|]. Z.div_mod_to_equations. lia.
  - exists (q + 1, r - 1, s). rewrite adjacent_coords.
    split; [lia|]. simpl. split; [lia|]. Z.div_mod_to_equations. lia.
  - exists (q, r - 1, s + 1). rewrite adjacent_coords.
    split; [lia|]. simpl. split; [lia|]. Z.div_mod_to_equations. lia.
Qed.

(** ** The search loop of [cube_path] *)

(** What one pass over the neighbours of [current] does to the frontier
    and to [came_from]: the hexes of [l] that are no obstacle and not yet
    a key are appended, once each, and given [current] as predecessor. *)
Lemma path_visit_fold (obstacles : gset CubeHex) (current : CubeHex)
    (l frontier : list CubeHex) (came_from : gmap CubeHex (option CubeHex)) :
  exists new came_from',
    foldl (path_visit obstacles current) (frontier, came_from) l
    = (frontier ++ new, came_from') /\
    NoDup new /\
    (forall n, n ∈ new <-> n ∈ l /\ (n ∉ obstacles) /\ came_from !! n = None) /\
    (forall k, came_from' !! k
               = if decide (k ∈ new) then Some (Some current)
                 else came_from !! k).
Proof.
  revert frontier came_from.
  induction l as [|n l IH]; intros frontier came_from; simpl.
  - exists [], came_from. rewrite app_nil_r. split; [done|].
    split; [constructor|]. split.
    + intros n. rewrite elem_of_nil. tauto.
    + intros k. destruct (decide (k ∈ [])) as [H|_]; [inversion H|done].
  - destruct (bool_decide_reflect (n ∈ obstacles)) as [Hobs|Hobs];
      [|destruct (came_from !! n) as [v|] eqn:Hn].
    + destruct (IH frontier came_from) as (new & cf' & E & Hnd & Hnew & Hcf).
      exists new, cf'. repeat split; try done.
      * apply Hnew in H as (? & _). by apply list_elem_of_further.
      * by apply Hnew in H as (_ & ? & _).
      * by apply Hnew in H as (_ & _ & ?).
      * intros (Hin & Ho & Hc). apply Hnew.
        apply elem_of_cons in Hin as [->|Hin]; done.
    + destruct (IH frontier came_from) as (new & cf' & E & Hnd & Hnew & Hcf).
      exists new, cf'. repeat split; try done.
      * apply Hnew in H as (? & _). by apply list_elem_of_further.
      * by apply Hnew in H as (_ & ? & _).
      * by apply Hnew in H as (_ & _ & ?).
      * intros (Hin & Ho & Hc). apply Hnew.
        apply elem_of_cons in Hin as [->|Hin]; [congruence|done].
    + destruct (IH (frontier ++ [n]) (<[n := Some current]> came_from))
        as (new & cf' & E & Hnd & Hnew & Hcf).
      exists (n :: new), cf'. rewrite E, <- app_assoc. split; [done|].
      split; [|split].
      * constructor; [|done]. intros Hin. apply Hnew in Hin as (_ & _ & Hin).
        by rewrite lookup_insert_eq in Hin.
      * intros n'. rewrite elem_of_cons, Hnew, lookup_insert_None. split.
        -- intros [->|(Hin & Ho & Hc & Hne)].
           ++ split; [apply list_elem_of_here|done].
           ++ split; [by apply list_elem_of_further|done].
        -- intros (Hin & Ho & Hc).
           destruct (decide (n' = n)) as [->|Hne]; [by left|right].
           apply elem_of_cons in Hin as [->|Hin]; done.
      * intros k. rewrite Hcf.
        destruct (decide (k ∈ new)) as [Hin|Hout].
        -- by rewrite decide_True by (by apply list_elem_of_further).
        -- destruct (decide (k = n)) as [->|Hne].
           ++ rewrite lookup_insert_eq.
              by rewrite decide_True by apply list_elem_of_here.
           ++ rewrite lookup_insert_ne by done.
              rewrite decide_False; [done|].
              intros Hin. apply elem_of_cons in Hin as [?|?]; done.
Qed.

(** Recorded routes survive the growth of [came_from]. *)
Lemma linked_weaken (obstacles : gset CubeHex)
    (cf cf' : gmap CubeHex (option CubeHex)) (start h : CubeHex)
    (l : list CubeHex) :
  (forall k v, cf !! k = Some v -> cf' !! k = Some v) ->
  linked obstacles cf start h l -> linked obstacles cf' start h l.
Proof.
  intros Hsub. induction 1 as [|h p l Hne Hcf Hadj Hobs Hl IH].
  - constructor.
  - apply linked_step with p; auto.
Qed.

Lemma path_inv_init (obstacles : gset CubeHex) (start goal : CubeHex) :
  path_inv obstacles start goal [start] {[start := None]}.
Proof.
  split.
  - apply lookup_singleton_eq.
  - intros h [v Hv]. apply lookup_singleton_Some in Hv as [<- _].
    exists [start]. constructor.
  - intros h Hh. apply list_elem_of_singleton in Hh as ->.
    rewrite lookup_singleton_eq. eauto.
  - intros h n [v Hv] Hout. apply lookup_singleton_Some in Hv as [<- _].
    destruct Hout. apply list_elem_of_here.
  - intros [v Hv]. apply lookup_singleton_Some in Hv as [<- _].
    apply list_elem_of_here.
Qed.


Lemma linked_route (obstacles : gset CubeHex)
    (cf : gmap CubeHex (option CubeHex)) (start h : CubeHex)
    (l : list CubeHex) :
  linked obstacles cf start h l -> route obstacles start h l.
Proof.
  induction 1 as [|h p l Hne Hcf Hadj Hobs Hl (Hhd & Hlast & Hch & Hfree)].
  - repeat split; simpl; try done. intros h Hh. inversion Hh.
  - destruct l as [|x t]; [done|]. simpl in Hhd. injection Hhd as Hx.
    split; [by rewrite Hx|]. split; [apply last_snoc|]. split.
    + clear Hfree Hl Hx. revert x Hlast Hch.
      induction t as [|y t IH]; intros x Hlast Hch.
      * simpl in Hlast. injection Hlast as ->. simpl. done.
      * destruct Hch as [Hxy Hch]. split; [done|]. apply (IH y); done.
    + simpl. intros k Hk. apply elem_of_app in Hk as [Hk|Hk]; [by apply Hfree|].
      apply list_elem_of_singleton in Hk as ->. done.
Qed.

Lemma path_inv_step (obstacles : gset CubeHex) (start goal current : CubeHex)
    (rest frontier' : list CubeHex)
    (cf cf' : gmap CubeHex (option CubeHex)) :
  path_inv obstacles start goal (current :: rest) cf ->
  current <> goal ->
  foldl (path_visit obstacles current) (rest, cf) (cube_neighbors current)
  = (frontier', cf') ->
  path_inv obstacles start goal frontier' cf' /\
  (exists new,
     frontier' = rest ++ new /\
     (forall n, n ∈ new <->
                adjacent current n /\ (n ∉ obstacles) /\ cf !! n = None) /\
     (forall k, cf' !! k
                = if decide (k ∈ new) then Some (Some current) else cf !! k)) /\
  (forall n, adjacent current n -> n ∉ obstacles -> is_Some (cf' !! n)).
Proof.
  intros [Hstart Hlinked Hfront Hclosed Hgoal] Hne Hfold.
  destruct (path_visit_fold obstacles current (cube_neighbors current) rest cf)
    as (new & cf'' & E & Hnd & Hnew & Hcf).
  rewrite E in Hfold. injection Hfold as <- <-.
  assert (Hsub : forall k v, cf !! k = Some v -> cf'' !! k = Some v).
  { intros k v Hk. rewrite Hcf. rewrite decide_False; [done|].
    intros Hin. apply Hnew in Hin as (_ & _ & Hin). congruence. }
  assert (Hsome : forall k, is_Some (cf !! k) -> is_Some (cf'' !! k)).
  { intros k [v Hv]. exists v. by apply Hsub. }
  assert (Hold : forall k, is_Some (cf'' !! k) -> k ∉ new -> is_Some (cf !! k)).
  { intros k Hk Hout. rewrite Hcf in Hk. by rewrite decide_False in Hk. }
  assert (Hadj : forall n, adjacent current n -> n ∉ obstacles ->
                           is_Some (cf'' !! n)).
  { intros n Hn Hobs. destruct (cf !! n) as [v|] eqn:Hv.
    - exists v. by apply Hsub.
    - rewrite Hcf. rewrite decide_True; [eauto|]. by apply Hnew. }
  split; [|split; [by exists new|done]]. split.
  - by apply Hsub.
  - intros h Hh. destruct (decide (h ∈ new)) as [Hin|Hout].
    + destruct (Hlinked current) as [l Hl].
      { apply Hfront, list_elem_of_here. }
      exists (l ++ [h]). pose proof Hin as Hin'.
      apply Hnew in Hin' as (Hadjh & Hobs & Hnone).
      apply linked_step with current; try done.
      * intros ->. congruence.
      * rewrite Hcf. by rewrite decide_True.
      * by apply linked_weaken with cf.
    + destruct (Hlinked h (Hold h Hh Hout)) as [l Hl].
      exists l. by apply linked_weaken with cf.
  - intros h Hh. apply elem_of_app in Hh as [Hh|Hh].
    + apply Hsome, Hfront. by apply list_elem_of_further.
    + rewrite Hcf. rewrite decide_True by done. eauto.
  - intros h n Hh Hout Hn Hobs.
    assert ((h ∉ rest) /\ h ∉ new) as [Hrest Hnew'].
    { split; intros ?; apply Hout, elem_of_app; auto. }
    destruct (decide (h = current)) as [->|Hc]; [by apply Hadj|].
    apply Hsome, (Hclosed h n); try done.
    + by apply Hold.
    + intros Hin. apply elem_of_cons in Hin as [?|?]; done.
  - intros Hg. apply elem_of_app.
    destruct (decide (goal ∈ new)) as [Hin|Hout]; [by right|left].
    specialize (Hgoal (Hold goal Hg Hout)).
    apply elem_of_cons in Hgoal as [?|?]; done.
Qed.

Lemma path_loop_unfold (fuel : nat) (goal : CubeHex)
    (obstacles : gset CubeHex) (frontier : list CubeHex)
    (cf : gmap CubeHex (option CubeHex)) :
  path_loop (S fuel) goal obstacles frontier cf
  = match frontier with
    | [] => Some cf
    | current :: rest =>
        if bool_decide (current = goal) then Some cf
        else
          let '(frontier, cf) :=
            foldl (path_visit obstacles current) (rest, cf)
                  (cube_neighbors current) in
          path_loop fuel goal obstacles frontier cf
    end.
Proof. reflexivity. Qed.

(** The loop keeps its invariant, and leaves with an empty frontier or
    with the goal at its head. *)
Lemma path_loop_inv (obstacles : gset CubeHex) (start goal : CubeHex)
    (fuel : nat) :
  forall frontier cf cf_out,
    path_inv obstacles start goal frontier cf ->
    path_loop fuel goal obstacles frontier cf = Some cf_out ->
    exists frontier_out,
      path_inv obstacles start goal frontier_out cf_out /\
      (frontier_out = [] \/ head frontier_out = Some goal).
Proof.
  induction fuel as [|fuel IH]; intros frontier cf cf_out Hinv Hloop;
    [done|].
  rewrite path_loop_unfold in Hloop.
  destruct frontier as [|current rest].
  - injection Hloop as <-. exists []. auto.
  - destruct (bool_decide_reflect (current = goal)) as [->|Hne].
    + injection Hloop as <-. exists (goal :: rest). auto.
    + destruct (foldl (path_visit obstacles current) (rest, cf)
                      (cube_neighbors current)) as [frontier' cf'] eqn:E.
      destruct (path_inv_step _ _ _ _ _ _ _ _ Hinv Hne E) as (Hinv' & _).
      by apply (IH frontier' cf').
Qed.

Lemma linked_head (obstacles : gset CubeHex)
    (cf : gmap CubeHex (option CubeHex)) (start h : CubeHex)
    (l : list CubeHex) :
  linked obstacles cf start h l -> exists t, l = start :: t.
Proof.
  intros H. apply linked_route in H as (Hhd & _). by apply head_Some.
Qed.

(** Walking the predecessors back from a hex with a recorded route
    collects that route, last hex first, and ends. *)
Lemma path_walk_linked (obstacles : gset CubeHex)
    (cf : gmap CubeHex (option CubeHex)) (start h : CubeHex)
    (l : list CubeHex) :
  linked obstacles cf start h l ->
  forall fuel path, (length l <= fuel)%nat ->
    path_walk fuel cf start h path = Some (Ok (path ++ reverse (tail l))).
Proof.
  induction 1 as [|h p l Hne Hcf Hadj Hobs Hl IH]; intros fuel path Hfuel.
  - destruct fuel as [|fuel]; [simpl in Hfuel; lia|]. simpl.
    rewrite bool_decide_eq_true_2 by done. by rewrite app_nil_r.
  - rewrite length_app in Hfuel. simpl in Hfuel.
    destruct fuel as [|fuel]; [lia|]. simpl.
    rewrite bool_decide_eq_false_2 by done. rewrite Hcf.
    rewrite IH by lia. destruct (linked_head _ _ _ _ _ Hl) as [t ->].
    simpl. rewrite reverse_app. simpl. by rewrite <- app_assoc.
Qed.

Lemma path_loop_mono (goal : CubeHex) (obstacles : gset CubeHex) (n : nat) :
  forall (m : nat) frontier cf cf_out,
    (n <= m)%nat ->
    path_loop n goal obstacles frontier cf = Some cf_out ->
    path_loop m goal obstacles frontier cf = Some cf_out.
Proof.
  induction n as [|n IH]; intros m frontier cf cf_out Hle Hn; [done|].
  destruct m as [|m]; [lia|].
  rewrite path_loop_unfold in *.
  destruct frontier as [|current rest]; [done|].
  destruct (bool_decide (current = goal)); [done|].
  destruct (foldl (path_visit obstacles current) (rest, cf)
                  (cube_neighbors current)) as [frontier' cf'].
  apply IH; [lia|done].
Qed.

(** Once the frontier is empty, every route from the start stays within
    the keys of [came_from]. *)
Lemma exhausted_covers (obstacles : gset CubeHex) (start goal : CubeHex)
    (cf : gmap CubeHex (option CubeHex)) (post : list CubeHex) :
  path_inv obstacles start goal [] cf ->
  forall h, is_Some (cf !! h) -> chain (h :: post) ->
    (forall x, x ∈ post -> x ∉ obstacles) ->
    forall y, last (h :: post) = Some y -> is_Some (cf !! y).
Proof.
  intros Hinv. induction post as [|x post IH]; intros h Hh Hch Hfree y Hy.
  - simpl in Hy. by injection Hy as <-.
  - destruct Hch as [Hadj Hch]. rewrite last_cons_cons in Hy.
    apply (IH x); try done.
    + apply (pi_closed _ _ _ _ _ Hinv h x); try done.
      * apply not_elem_of_nil.
      * apply Hfree, list_elem_of_here.
    + intros z Hz. by apply Hfree, list_elem_of_further.
Qed.

Lemma route_cons (obstacles : gset CubeHex) (start goal : CubeHex)
    (l : list CubeHex) :
  route obstacles start goal l ->
  exists post, l = start :: post /\ chain (start :: post) /\
               (forall x, x ∈ post -> x ∉ obstacles) /\
               last (start :: post) = Some goal.
Proof.
  intros (Hhd & Hlast & Hch & Hfree).
  apply head_Some in Hhd as [post ->]. by exists post.
Qed.

(** A tail of a route whose first hex is a key of [came_from] has a
    (shorter or equal) tail whose first hex waits in the frontier. *)
Lemma find_frontier (obstacles : gset CubeHex) (start goal : CubeHex)
    (frontier : list CubeHex) (cf : gmap CubeHex (option CubeHex))
    (post : list CubeHex) :
  path_inv obstacles start goal frontier cf ->
  forall h, is_Some (cf !! h) -> chain (h :: post) ->
    (forall x, x ∈ post -> x ∉ obstacles) ->
    last (h :: post) = Some goal ->
    exists h' post',
      h' ∈ frontier /\ chain (h' :: post') /\
      (forall x, x ∈ post' -> x ∉ obstacles) /\
      last (h' :: post') = Some goal /\
      (length post' <= length post)%nat.
Proof.
  intros Hinv. induction post as [|x post IH]; intros h Hh Hch Hfree Hlast.
  - simpl in Hlast. injection Hlast as ->.
    exists goal, []. split; [by apply (pi_goal _ _ _ _ _ Hinv)|].
    do 3 (split; [done|]). lia.
  - destruct (decide (h ∈ frontier)) as [Hin|Hout].
    { exists h, (x :: post). do 4 (split; [done|]). lia. }
    destruct Hch as [Hadj Hch]. rewrite last_cons_cons in Hlast.
    destruct (IH x) as (h' & post' & Hin & Hch' & Hfree' & Hlast' & Hlen);
      try done.
    + apply (pi_closed _ _ _ _ _ Hinv h x); try done.
      apply Hfree, list_elem_of_here.
    + intros z Hz. by apply Hfree, list_elem_of_further.
    + exists h', post'. do 4 (split; [done|]). simpl. lia.
Qed.

(** The loop of [cube_path] ends whenever some hex of the frontier starts
    a route to the goal: the frontier is served in order, and each hex
    served puts the next hex of the route among the keys. *)
Lemma path_loop_terminates (obstacles : gset CubeHex) (start goal : CubeHex)
    (n : nat) :
  forall (i : nat) frontier cf h post,
    path_inv obstacles start goal frontier cf ->
    chain (h :: post) ->
    (forall x, x ∈ post -> x ∉ obstacles) ->
    last (h :: post) = Some goal ->
    length post = n ->
    frontier !! i = Some h ->
    exists fuel cf_out, path_loop fuel goal obstacles frontier cf = Some cf_out.
Proof.
  induction n as [n IHn] using lt_wf_ind.
  induction i as [|i IHi];
    intros frontier cf h post Hinv Hch Hfree Hlast Hlen Hi;
    (destruct frontier as [|current rest]; [done|]);
    (destruct (decide (current = goal)) as [->|Hne];
      [exists 1%nat, cf; simpl; by rewrite bool_decide_eq_true_2|]);
    destruct (foldl (path_visit obstacles current) (rest, cf)
                    (cube_neighbors current)) as [frontier' cf'] eqn:E;
    destruct (path_inv_step _ _ _ _ _ _ _ _ Hinv Hne E)
      as (Hinv' & (new & -> & _) & Hadj);
    (cut (exists fuel cf_out,
            path_loop fuel goal obstacles (rest ++ new) cf' = Some cf_out);
      [intros (fuel & cf_out & Hrun); exists (S fuel), cf_out;
       rewrite path_loop_unfold, bool_decide_eq_false_2, E by done; exact Hrun
      |]).
  - simpl in Hi. injection Hi as ->.
    destruct post as [|x post].
    { simpl in Hlast. by injection Hlast as ->. }
    destruct Hch as [Hhx Hch]. rewrite last_cons_cons in Hlast.
    destruct (find_frontier obstacles start goal (rest ++ new) cf' post
                Hinv' x) as (h' & post' & Hin & Hch' & Hfree' & Hlast' & Hle);
      try done.
    + apply Hadj; [done|]. apply Hfree, list_elem_of_here.
    + intros z Hz. by apply Hfree, list_elem_of_further.
    + apply list_elem_of_lookup in Hin as [j Hj].
      apply (IHn (length post') ltac:(simpl in Hlen; lia) j
               (rest ++ new) cf' h' post'); done.
  - simpl in Hi. apply (IHi (rest ++ new) cf' h post); try done.
    by apply lookup_app_l_Some.
Qed.

Lemma path_walk_mono (cf : gmap CubeHex (option CubeHex)) (start : CubeHex)
    (n : nat) :
  forall (m : nat) current path r,
    (n <= m)%nat ->
    path_walk n cf start current path = Some r ->
    path_walk m cf start current path = Some r.
Proof.
  induction n as [|n IH]; intros m current path r Hle Hn; [done|].
  destruct m as [|m]; [lia|]. simpl in *.
  destruct (bool_decide (current = start)); [done|].
  destruct (cf !! current) as [[p|]|]; try done.
  apply IH; [lia|done].
Qed.

Lemma path_walk_result (obstacles : gset CubeHex)
    (cf : gmap CubeHex (option CubeHex)) (start h : CubeHex)
    (l : list CubeHex) (fuel : nat) (r : result (list CubeHex)) :
  linked obstacles cf start h l ->
  path_walk fuel cf start h [] = Some r ->
  r = Ok (reverse (tail l)).
Proof.
  intros Hl Hr.
  apply (path_walk_mono _ _ _ (max fuel (length l))) in Hr; [|lia].
  rewrite (path_walk_linked _ _ _ _ _ Hl) in Hr by lia.
  by injection Hr as <-.
Qed.

Lemma reverse_walk (start : CubeHex) (t : list CubeHex) :
  reverse (reverse t ++ [start]) = start :: t.
Proof. by rewrite reverse_app, reverse_involutive. Qed.

(** What [cube_path] answers when it answers, in terms of the
    [came_from] its loop leaves. *)
Lemma cube_path_inv (fuel : nat) (start goal : CubeHex)
    (obstacles : gset CubeHex) (r : result (option (list CubeHex))) :
  cube_path fuel start goal obstacles = Some r ->
  exists cf frontier,
    path_loop fuel goal obstacles [start] {[start := None]} = Some cf /\
    path_inv obstacles start goal frontier cf /\
    ((cf !! goal = None /\ frontier = [] /\ r = Ok None) \/
     (exists l, linked obstacles cf start goal l /\ r = Ok (Some l))).
Proof.
  unfold cube_path. intros H.
  destruct (path_loop fuel goal obstacles [start] {[start := None]})
    as [cf|] eqn:Hloop; [|done].
  destruct (path_loop_inv obstacles start goal fuel _ _ _
              (path_inv_init obstacles start goal) Hloop)
    as (frontier & Hinv & Hexit).
  exists cf, frontier. split; [done|]. split; [done|].
  destruct (cf !! goal) as [v|] eqn:Hgoal.
  - right. destruct (pi_linked _ _ _ _ _ Hinv goal) as [l Hl]; [eauto|].
    destruct (path_walk fuel cf start goal []) as [w|] eqn:Hwalk; [|done].
    rewrite (path_walk_result _ _ _ _ _ _ _ Hl Hwalk) in H.
    injection H as <-. exists l. split; [done|].
    destruct (linked_head _ _ _ _ _ Hl) as [t ->]. simpl.
    by rewrite reverse_walk.
  - left. injection H as <-. split; [done|]. split; [|done].
    destruct Hexit as [->|Hhd]; [done|].
    apply head_Some in Hhd as [rest ->].
    destruct (pi_front _ _ _ _ _ Hinv goal) as [v Hv];
      [apply list_elem_of_here|congruence].
Qed.

(** No path is answered only if no route exists, and a path answered is
    a route. *)
Lemma cube_path_sound (fuel : nat) (start goal : CubeHex)
    (obstacles : gset CubeHex) (r : result (option (list CubeHex))) :
  cube_path fuel start goal obstacles = Some r ->
  (r = Ok None /\ forall l, ~ route obstacles start goal l) \/
  (exists path, r = Ok (Some path) /\ route obstacles start goal path).
Proof.
  intros H.
  destruct (cube_path_inv _ _ _ _ _ H)
    as (cf & frontier & Hloop & Hinv & [(Hgoal & -> & ->)|(l & Hl & ->)]).
  - left. split; [done|]. intros l Hroute.
    apply route_cons in Hroute as (post & -> & Hch & Hfree & Hlast).
    assert (is_Some (cf !! goal)) as [v Hv]; [|congruence].
    apply (exhausted_covers obstacles start goal cf post Hinv start);
      try done.
    rewrite (pi_start _ _ _ _ _ Hinv). eauto.
  - right. exists l. split; [done|]. by apply linked_route in Hl.
Qed.

(** When a route exists, [cube_path] finds a path, given iterations
    enough. *)
Lemma cube_path_complete (start goal : CubeHex) (obstacles : gset CubeHex)
    (l : list CubeHex) :
  route obstacles start goal l ->
  exists fuel path,
    cube_path fuel start goal obstacles = Some (Ok (Some path)).
Proof.
  intros Hroute. pose proof Hroute as Hroute'.
  apply route_cons in Hroute' as (post & -> & Hch & Hfree & Hlast).
  destruct (path_loop_terminates obstacles start goal (length post) 0
              [start] {[start := None]} start post
              (path_inv_init obstacles start goal) Hch Hfree Hlast
              eq_refl eq_refl) as (fuel & cf & Hloop).
  destruct (path_loop_inv obstacles start goal fuel _ _ _
              (path_inv_init obstacles start goal) Hloop)
    as (frontier & Hinv & Hexit).
  assert (is_Some (cf !! goal)) as [v Hv].
  { destruct Hexit as [->|Hhd].
    - apply (exhausted_covers obstacles start goal cf post Hinv start);
        try done.
      rewrite (pi_start _ _ _ _ _ Hinv). eauto.
    - apply head_Some in Hhd as [rest ->].
      apply (pi_front _ _ _ _ _ Hinv goal), list_elem_of_here. }
  destruct (pi_linked _ _ _ _ _ Hinv goal) as [l' Hl']; [eauto|].
  exists (max fuel (length l')), (reverse (reverse (tail l') ++ [start])).
  unfold cube_path.
  rewrite (path_loop_mono _ _ fuel _ _ _ cf) by (done || lia).
  rewrite Hv.
  rewrite (path_walk_linked _ _ _ _ _ Hl') by lia. done.
Qed.

Lemma cube_path_same (fuel : nat) (start : CubeHex)
    (obstacles : gset CubeHex) :
  cube_path (S fuel) start start obstacles = Some (Ok (Some [start])).
Proof.
  unfold cube_path. rewrite path_loop_unfold.
  rewrite bool_decide_eq_true_2 by done.
  rewrite lookup_singleton_eq. simpl.
  by rewrite bool_decide_eq_true_2.
Qed.

(** ** A search that never ends *)

Lemma list_min_exists (f : CubeHex -> Z) (l : list CubeHex) :
  l <> [] -> exists m, m ∈ l /\ forall x, x ∈ l -> f m <= f x.
Proof.
  induction l as [|a l IH]; [done|]. intros _.
  destruct l as [|b l].
  - exists a. split; [apply list_elem_of_here|].
    intros x Hx. apply list_elem_of_singleton in Hx as ->. lia.
  - destruct IH as (m & Hm & Hmin); [done|].
    destruct (Z_le_gt_dec (f a) (f m)) as [Hle|Hgt].
    + exists a. split; [apply list_elem_of_here|].
      intros x Hx. apply elem_of_cons in Hx as [->|Hx]; [lia|].
      specialize (Hmin x Hx). lia.
    + exists m. split; [by apply list_elem_of_further|].
      intros x Hx. apply elem_of_cons in Hx as [->|Hx]; [lia|by apply Hmin].
Qed.

Lemma path_inv_key_free (obstacles : gset CubeHex) (start goal : CubeHex)
    (frontier : list CubeHex) (cf : gmap CubeHex (option CubeHex))
    (k : CubeHex) :
  path_inv obstacles start goal frontier cf ->
  is_Some (cf !! k) -> k = start \/ k ∉ obstacles.
Proof.
  intros Hinv Hk. destruct (pi_linked _ _ _ _ _ Hinv k Hk) as [l Hl].
  inversion Hl; auto.
Qed.

Lemma west_neighbor (h : CubeHex) :
  adjacent h (cube_neighbor h 3) /\ c0 (cube_neighbor h 3) = c0 h - 1.
Proof.
  destruct h as [[q r] s].
  split; [|change (c0 (cube_neighbor (q, r, s) 3)) with (q + -1);
           change (c0 (q, r, s)) with q; lia].
  unfold adjacent. rewrite cube_neighbors_coords.
  do 3 apply list_elem_of_further. apply list_elem_of_here.
Qed.

(** With the goal among the obstacles and every obstacle strictly to the
    east of the start, the frontier never empties (its westmost hex
    always has a fresh neighbour further west) and the goal never enters
    it: the loop of [cube_path] runs for ever. *)
Lemma path_loop_diverges (obstacles : gset CubeHex) (start goal : CubeHex) :
  goal ∈ obstacles -> goal <> start ->
  (forall o, o ∈ obstacles -> c0 start < c0 o) ->
  forall fuel frontier cf,
    path_inv obstacles start goal frontier cf ->
    (exists h, h ∈ frontier /\ c0 h <= c0 start /\
               forall k, is_Some (cf !! k) -> c0 h <= c0 k) ->
    path_loop fuel goal obstacles frontier cf = None.
Proof.
  intros Hgoal Hgs Heast.
  induction fuel as [|fuel IH]; intros frontier cf Hinv (h & Hh & Hhs & Hmin);
    [done|].
  rewrite path_loop_unfold.
  destruct frontier as [|current rest]; [inversion Hh|].
  assert (Hne : current <> goal).
  { intros ->.
    destruct (path_inv_key_free _ _ _ _ _ goal Hinv); try done.
    apply (pi_front _ _ _ _ _ Hinv), list_elem_of_here. }
  rewrite bool_decide_eq_false_2 by done.
  destruct (foldl (path_visit obstacles current) (rest, cf)
                  (cube_neighbors current)) as [frontier' cf'] eqn:E.
  destruct (path_inv_step _ _ _ _ _ _ _ _ Hinv Hne E)
    as (Hinv' & (new & -> & Hnew & Hcf) & _).
  apply IH; [done|].
  destruct (west_neighbor h) as [Hw Hwq].
  set (cand := (if decide (current = h) then [] else [h]) ++ new).
  assert (Hwest : exists w, w ∈ cand /\ c0 w <= c0 h).
  { unfold cand. destruct (decide (current = h)) as [->|Hch].
    - exists (cube_neighbor h 3). split; [|lia]. simpl. apply Hnew.
      split; [done|]. split.
      + intros Ho. apply Heast in Ho. lia.
      + destruct (cf !! cube_neighbor h 3) as [v|] eqn:Hv; [|done].
        specialize (Hmin (cube_neighbor h 3) ltac:(eauto)). lia.
    - exists h. split; [apply list_elem_of_here|lia]. }
  destruct Hwest as (w & Hw1 & Hw2).
  destruct (list_min_exists c0 cand) as (m & Hm & Hmmin).
  { intros Hnil. rewrite Hnil in Hw1. inversion Hw1. }
  exists m. split; [|split].
  - unfold cand in Hm. apply elem_of_app in Hm as [Hm|Hm];
      apply elem_of_app; [left|by right].
    destruct (decide (current = h)) as [->|Hch]; [inversion Hm|].
    apply list_elem_of_singleton in Hm as ->.
    apply elem_of_cons in Hh as [?|?]; done.
  - specialize (Hmmin w Hw1). lia.
  - intros k Hk. rewrite Hcf in Hk.
    destruct (decide (k ∈ new)) as [Hin|Hout].
    + apply Hmmin. unfold cand. apply elem_of_app. by right.
    + specialize (Hmin k Hk). specialize (Hmmin w Hw1). lia.
Qed.

Lemma cube_path_diverges (obstacles : gset CubeHex) (start goal : CubeHex) :
  goal ∈ obstacles -> goal <> start ->
  (forall o, o ∈ obstacles -> c0 start < c0 o) ->
  forall fuel, cube_path fuel start goal obstacles = None.
Proof.
  intros Hgoal Hgs Heast fuel. unfold cube_path.
  rewrite (path_loop_diverges obstacles start goal); try done.
  - apply path_inv_init.
  - exists start. split; [apply list_elem_of_here|]. split; [lia|].
    intros k [v Hv]. apply lookup_singleton_Some in Hv as [<- _]. lia.
Qed.

(** C4 fails on the code as stated, twice.  A start inside the obstacle
    set is searched from like any other: a path is returned and its first
    hex is an obstacle.  And with the goal itself an obstacle on an open
    grid, no result is ever returned, whatever the number of iterations
    allowed: the frontier never runs empty. *)
Lemma no_path_counterexample :
  (0, 0, 0) ∈ ({[ (0, 0, 0) ]} : gset CubeHex) /\
  cube_path 2 (0, 0, 0) (1, 0, -1) {[ (0, 0, 0) ]}
  = Some (Ok (Some [(0, 0, 0); (1, 0, -1)])) /\
  (forall fuel, cube_path fuel (0, 0, 0) (1, 0, -1) {[ (1, 0, -1) ]} = None).
Proof.
  split; [by apply elem_of_singleton|]. split; [vm_compute; reflexivity|].
  apply cube_path_diverges.
  - by apply elem_of_singleton.
  - done.
  - intros o Ho. apply elem_of_singleton in Ho as ->. unfold c0. simpl. lia.
Qed.

(** C4, amended.  [cube_path] never raises.  A returned path is a route:
    it starts at [start], ends at [goal], steps between adjacent hexes,
    and no hex after its first is an obstacle; [start] is not checked
    against the obstacles.  [None] is returned only when there is no
    route at all, and a path is returned whenever there is one. *)
Theorem shortest_path_result (start goal : CubeHex)
    (obstacles : gset CubeHex) :
  (forall fuel path,
     cube_path fuel start goal obstacles = Some (Ok (Some path)) ->
     route obstacles start goal path) /\
  (forall fuel,
     cube_path fuel start goal obstacles = Some (Ok None) ->
     forall l, ~ route obstacles start goal l) /\
  (forall fuel e, cube_path fuel start goal obstacles <> Some (Raise e)) /\
  ((exists l, route obstacles start goal l) ->
   exists fuel path,
     cube_path fuel start goal obstacles = Some (Ok (Some path))) /\
  (forall fuel,
     cube_path (S fuel) start start obstacles = Some (Ok (Some [start]))).
Proof.
  split; [|split; [|split; [|split]]].
  - intros fuel path H.
    destruct (cube_path_sound _ _ _ _ _ H) as [[E _]|(p & E & Hp)]; [done|].
    by injection E as <-.
  - intros fuel H.
    destruct (cube_path_sound _ _ _ _ _ H) as [[_ Hno]|(p & E & _)]; done.
  - intros fuel e H.
    destruct (cube_path_sound _ _ _ _ _ H) as [[E _]|(p & E & _)]; done.
  - intros [l Hl]. by apply cube_path_complete with l.
  - intros fuel. apply cube_path_same.
Qed.

(** ** Breadth-first levels on the open grid *)

Lemma level_inv_init (start : CubeHex) (seen : CubeHex -> Prop) :
  (forall h, seen h <-> h = start) ->
  level_inv start 0 [start] seen.
Proof.
  intros Hseen. split.
  - lia.
  - exists [start], []. split; [done|]. split.
    + intros x Hx. apply list_elem_of_singleton in Hx as ->.
      apply cube_distance_self.
    + intros x Hx. inversion Hx.
  - intros h Hh. apply Hseen in Hh as ->.
    split; [apply aligned_self|]. rewrite cube_distance_self. lia.
  - intros h Hal Hd. apply Hseen. apply aligned_distance_zero; [done|].
    pose proof (cube_distance_nonneg start h). lia.
  - intros h n Hh Hout. apply Hseen in Hh as ->.
    destruct Hout. apply list_elem_of_here.
  - intros h Hh. apply Hseen. by apply list_elem_of_singleton in Hh.
Qed.

(** When the hexes at distance [d] are used up, the frontier is the
    whole of distance [d + 1]. *)
Lemma level_inv_shift (start : CubeHex) (d : Z) (B : list CubeHex)
    (seen : CubeHex -> Prop) :
  (forall x, x ∈ B -> cube_distance start x = d + 1) ->
  level_inv start d B seen ->
  level_inv start (d + 1) B seen.
Proof.
  intros HB [Hlevel _ Hseen Hfull Hclosed Hfront]. split.
  - lia.
  - exists B, []. rewrite app_nil_r. split; [done|]. split; [done|].
    intros x Hx. inversion Hx.
  - intros h Hh. destruct (Hseen h Hh). split; [done|lia].
  - intros h Hal Hd.
    destruct (Z_le_gt_dec (cube_distance start h) d) as [Hle|Hgt];
      [by apply Hfull|].
    destruct (closer_neighbor start h Hal) as (k & Hadj & Halk & Hdk).
    { lia. }
    apply (Hclosed k h); [apply Hfull; [done|lia]| |done].
    intros Hin. apply HB in Hin. lia.
  - done.
  - done.
Qed.

(** Serving the head of the frontier keeps the invariant, at the level of
    the hex served, and the hexes it adds are one step further. *)
Lemma level_inv_step (start current : CubeHex) (d : Z)
    (rest new : list CubeHex) (seen seen' : CubeHex -> Prop) :
  (forall k, seen k \/ ~ seen k) ->
  level_inv start d (current :: rest) seen ->
  (forall n, n ∈ new <-> adjacent current n /\ ~ seen n) ->
  (forall k, seen' k <-> seen k \/ k ∈ new) ->
  exists d',
    level_inv start d' (rest ++ new) seen' /\
    cube_distance start current = d' /\
    forall n, n ∈ new -> cube_distance start n = d' + 1.
Proof.
  intros Hdec Hinv Hnew Hseen'.
  assert (exists d' A,
            level_inv start d' (current :: rest) seen /\
            cube_distance start current = d' /\
            (forall x, x ∈ A -> cube_distance start x = d') /\
            exists B, rest = A ++ B /\
                      forall x, x ∈ B -> cube_distance start x = d' + 1)
    as (d' & A & Hinv' & Hcur & HA & B & -> & HB).
  { destruct (li_split _ _ _ _ Hinv) as (A & B & E & HA & HB).
    destruct A as [|a A].
    - simpl in E. subst B. exists (d + 1), rest.
      split; [by apply level_inv_shift|].
      split; [apply HB, list_elem_of_here|].
      split; [intros x Hx; by apply HB, list_elem_of_further|].
      exists []. rewrite app_nil_r. split; [done|]. intros x Hx. inversion Hx.
    - injection E as <- ->. exists d, A. split; [done|].
      split; [apply HA, list_elem_of_here|].
      split; [intros x Hx; by apply HA, list_elem_of_further|].
      by exists B. }
  clear Hinv. destruct Hinv' as [Hlevel _ Hseen Hfull Hclosed Hfront].
  assert (Hcs : seen current) by apply Hfront, list_elem_of_here.
  assert (Hnd : forall n, n ∈ new ->
                          aligned start n /\ cube_distance start n = d' + 1).
  { intros n Hn. apply Hnew in Hn as [Hadj Hns].
    destruct (Hseen current Hcs) as [Hal _].
    pose proof (adjacent_aligned start current n Hadj Hal) as Haln.
    split; [done|].
    pose proof (adjacent_distance start current n Hadj).
    destruct (Z_le_gt_dec (cube_distance start n) d') as [Hle|Hgt]; [|lia].
    destruct Hns. by apply Hfull. }
  exists d'. split; [|split; [done|intros n Hn; by apply Hnd]]. split.
  - done.
  - exists A, (B ++ new). rewrite app_assoc. split; [done|]. split; [done|].
    intros x Hx. apply elem_of_app in Hx as [Hx|Hx]; [by apply HB|].
    by apply Hnd.
  - intros h Hh. apply Hseen' in Hh as [Hh|Hh]; [by apply Hseen|].
    destruct (Hnd h Hh). split; [done|lia].
  - intros h Hal Hd. apply Hseen'. left. by apply Hfull.
  - intros h n Hh Hout Hadj. apply Hseen'.
    destruct (Hdec n) as [Hn|Hn]; [by left|].
    apply Hseen' in Hh as [Hh|Hh].
    + destruct (decide (h = current)) as [->|Hne].
      * right. by apply Hnew.
      * left. apply (Hclosed h n); try done.
        intros Hin. apply elem_of_cons in Hin as [?|Hin]; [done|].
        apply Hout, elem_of_app. by left.
    + destruct Hout. apply elem_of_app. by right.
  - intros h Hh. apply Hseen'. apply elem_of_app in Hh as [Hh|Hh]; [|by right].
    left. by apply Hfront, list_elem_of_further.
Qed.

Lemma path_loop_levels (start goal : CubeHex) (fuel : nat) :
  forall frontier cf cf_out d,
    path_inv ∅ start goal frontier cf ->
    level_inv start d frontier (fun h => is_Some (cf !! h)) ->
    pred_level start cf ->
    path_loop fuel goal ∅ frontier cf = Some cf_out ->
    pred_level start cf_out.
Proof.
  induction fuel as [|fuel IH]; intros frontier cf cf_out d Hinv Hlev Hpred Hloop;
    [done|].
  rewrite path_loop_unfold in Hloop.
  destruct frontier as [|current rest]; [by injection Hloop as <-|].
  destruct (bool_decide_reflect (current = goal)) as [->|Hne];
    [by injection Hloop as <-|].
  destruct (foldl (path_visit ∅ current) (rest, cf) (cube_neighbors current))
    as [frontier' cf'] eqn:E.
  destruct (path_inv_step _ _ _ _ _ _ _ _ Hinv Hne E)
    as (Hinv' & (new & -> & Hnew & Hcf) & _).
  destruct (level_inv_step start current d rest new
              (fun h => is_Some (cf !! h)) (fun h => is_Some (cf' !! h)))
    as (d' & Hlev' & Hcur & Hnewd); try done.
  - intros k. destruct (cf !! k) as [v|];
      [left; by exists v|right; intros [v Hv]; discriminate].
  - intros n. rewrite Hnew. split.
    + intros (Hadj & _ & Hnone). split; [done|]. rewrite Hnone.
      intros [v Hv]. discriminate.
    + intros (Hadj & Hnone). split; [done|]. split; [set_solver|].
      destruct (cf !! n) as [v|]; [destruct Hnone; by exists v|done].
  - intros k. rewrite Hcf. destruct (decide (k ∈ new)); [|tauto].
    split; [auto|eauto].
  - apply (IH (rest ++ new) cf' cf_out d'); try done.
    intros h p Hh. rewrite Hcf in Hh.
    destruct (decide (h ∈ new)) as [Hin|Hout]; [|by apply Hpred].
    injection Hh as <-. rewrite (Hnewd h Hin). lia.
Qed.

Lemma linked_length (obstacles : gset CubeHex)
    (cf : gmap CubeHex (option CubeHex)) (start h : CubeHex)
    (l : list CubeHex) :
  pred_level start cf ->
  linked obstacles cf start h l ->
  Z.of_nat (length l) = cube_distance start h + 1.
Proof.
  intros Hpred. induction 1 as [|h p l Hne Hcf Hadj Hobs Hl IH].
  - by rewrite cube_distance_self.
  - rewrite length_app. simpl. rewrite (Hpred h p Hcf). lia.
Qed.

Lemma chain_snoc (x k g : CubeHex) (t : list CubeHex) :
  last (x :: t) = Some k -> chain (x :: t) -> adjacent k g ->
  chain ((x :: t) ++ [g]).
Proof.
  revert x. induction t as [|y t IH]; intros x Hlast Hch Hadj.
  - simpl in Hlast. injection Hlast as ->. simpl. done.
  - destruct Hch as [Hxy Hch]. rewrite last_cons_cons in Hlast.
    split; [done|]. by apply (IH y).
Qed.

(** On the open grid every aligned hex is at the end of a route of as
    many steps as its distance. *)
Lemma straight_route (start : CubeHex) (n : nat) :
  forall goal,
    aligned start goal -> cube_distance start goal = Z.of_nat n ->
    exists l, route ∅ start goal l.
Proof.
  induction n as [|n IH]; intros goal Hal Hd.
  - apply aligned_distance_zero in Hal as ->; [|done].
    exists [start]. do 3 (split; [done|]). intros h Hh. inversion Hh.
  - destruct (closer_neighbor start goal Hal) as (k & Hadj & Halk & Hdk);
      [lia|].
    destruct (IH k Halk ltac:(lia)) as (l & Hhd & Hlast & Hch & Hfree).
    exists (l ++ [goal]). destruct l as [|x t]; [done|].
    split; [done|]. split; [apply last_snoc|].
    split; [by apply chain_snoc with k|]. intros h _. set_solver.
Qed.

Lemma zero_sum_aligned (start h : CubeHex) :
  zero_sum start -> zero_sum h -> aligned start h.
Proof. coords. lia. Qed.

(** ** The search loop of [cube_bfs] *)

Lemma bfs_loop_unfold (fuel : nat) (goals obstacles : gset CubeHex)
    (max_distance : option Z) (st : bfs_state) :
  bfs_loop (S fuel) goals obstacles max_distance st
  = match frontier st with
    | [] => Some (Ok st)
    | current :: rest =>
        let found :=
          if bool_decide (current ∈ goals)
          then {[current]} ∪ found_goals st
          else found_goals st in
        let st1 := {| frontier := rest;
                      came_from := came_from st;
                      distance := distance st;
                      found_goals := found |} in
        if bool_decide (current ∈ goals)
           && (Z.of_nat (size found) =? Z.of_nat (size goals))
        then Some (Ok st1)
        else
          match foldM (bfs_visit obstacles max_distance current)
                      (cube_neighbors current) st1 with
          | Ok st2 => bfs_loop fuel goals obstacles max_distance st2
          | Raise e => Some (Raise e)
          end
    end.
Proof. reflexivity. Qed.

(** Whatever the bound and the obstacles, a pass over the neighbours adds
    only neighbours to the keys of [distance] and to the frontier. *)
Lemma bfs_visit_keys (obstacles : gset CubeHex) (max_distance : option Z)
    (current : CubeHex) (l : list CubeHex) :
  forall st st',
    foldM (bfs_visit obstacles max_distance current) l st = Ok st' ->
    (forall k, is_Some (distance st' !! k) ->
               is_Some (distance st !! k) \/ k ∈ l) /\
    (forall h, h ∈ frontier st' -> h ∈ frontier st \/ h ∈ l).
Proof.
  induction l as [|n l IH]; intros st st' H; simpl in H.
  - injection H as <-. auto.
  - destruct (bfs_visit obstacles max_distance current st n) as [st1|e] eqn:E;
      [|done].
    simpl in H. destruct (IH st1 st' H) as [Hk Hf].
    assert ((forall k, is_Some (distance st1 !! k) ->
                       is_Some (distance st !! k) \/ k = n) /\
            (forall h, h ∈ frontier st1 -> h ∈ frontier st \/ h = n))
      as [Hk1 Hf1].
    { unfold bfs_visit in E.
      destruct (bool_decide (n ∈ obstacles)); [injection E as <-; auto|].
      destruct (distance st !! n) as [v|] eqn:Hn; [injection E as <-; auto|].
      destruct (dict_get (distance st) current) as [d|e]; [|done]. simpl in E.
      destruct (match max_distance with
                | Some m => d >=? m
                | None => false
                end); injection E as <-; [auto|]. simpl. split.
      - intros k Hsome. destruct (decide (k = n)) as [->|Hne]; [by right|].
        left. by rewrite lookup_insert_ne in Hsome.
      - intros h Hh. apply elem_of_app in Hh as [Hh|Hh]; [by left|].
        apply list_elem_of_singleton in Hh. by right. }
    split.
    + intros k Hsome. destruct (Hk k Hsome) as [H1|H1].
      * destruct (Hk1 k H1) as [?| ->]; [by left|right; apply list_elem_of_here].
      * right. by apply list_elem_of_further.
    + intros h Hh. destruct (Hf h Hh) as [H1|H1].
      * destruct (Hf1 h H1) as [?| ->]; [by left|right; apply list_elem_of_here].
      * right. by apply list_elem_of_further.
Qed.

Lemma bfs_loop_zero_sum (goals obstacles : gset CubeHex)
    (max_distance : option Z) (fuel : nat) :
  forall st st',
    (forall k, is_Some (distance st !! k) -> zero_sum k) ->
    (forall h, h ∈ frontier st -> zero_sum h) ->
    bfs_loop fuel goals obstacles max_distance st = Some (Ok st') ->
    forall k, is_Some (distance st' !! k) -> zero_sum k.
Proof.
  induction fuel as [|fuel IH]; intros st st' Hkeys Hfront Hloop; [done|].
  rewrite bfs_loop_unfold in Hloop.
  destruct (frontier st) as [|current rest] eqn:Hfr;
    [by injection Hloop as <-|].
  cbv zeta in Hloop.
  destruct (bool_decide (current ∈ goals)
            && (Z.of_nat (size (if bool_decide (current ∈ goals)
                                then {[current]} ∪ found_goals st
                                else found_goals st))
                =? Z.of_nat (size goals))).
  { by injection Hloop as <-. }
  match type of Hloop with
  | match foldM _ _ ?s with _ => _ end = _ =>
      destruct (foldM (bfs_visit obstacles max_distance current)
                      (cube_neighbors current) s) as [st2|e] eqn:E; [|done];
      apply bfs_visit_keys in E as [Hk Hf]
  end.
  simpl in Hk, Hf.
  assert (Hcur : zero_sum current) by apply Hfront, list_elem_of_here.
  apply (IH st2 st'); try done.
  - intros k Hsome. destruct (Hk k Hsome) as [?|Hn]; [by apply Hkeys|].
    by apply (adjacent_zero_sum current).
  - intros h Hh. destruct (Hf h Hh) as [?|Hn].
    + by apply Hfront, list_elem_of_further.
    + by apply (adjacent_zero_sum current).
Qed.

Lemma foldM_cons {A S : Type} (body : S -> A -> result S) (x : A)
    (l : list A) (s : S) :
  foldM body (x :: l) s
  = match body s x with
    | Ok s' => foldM body l s'
    | Raise e => Raise e
    end.
Proof. reflexivity. Qed.

(** Without a bound, a pass over the neighbours of a hex that has a
    distance appends the neighbours that are no obstacle and have no
    distance yet, once each, and records them one step further. *)
Lemma bfs_visit_fold (obstacles : gset CubeHex) (current : CubeHex) (d : Z)
    (l : list CubeHex) :
  forall st,
    distance st !! current = Some d ->
    exists new st',
      foldM (bfs_visit obstacles None current) l st = Ok st' /\
      frontier st' = frontier st ++ new /\
      found_goals st' = found_goals st /\
      NoDup new /\
      (forall n, n ∈ new <->
                 n ∈ l /\ (n ∉ obstacles) /\ distance st !! n = None) /\
      (forall k, distance st' !! k
                 = if decide (k ∈ new) then Some (d + 1)
                   else distance st !! k).
Proof.
  induction l as [|n l IH]; intros st Hcur.
  - exists [], st. rewrite app_nil_r. do 3 (split; [done|]).
    split; [constructor|]. split.
    + intros n. rewrite elem_of_nil. tauto.
    + intros k. destruct (decide (k ∈ [])) as [H|_]; [inversion H|done].
  - rewrite foldM_cons. unfold bfs_visit at 1.
    destruct (bool_decide_reflect (n ∈ obstacles)) as [Hobs|Hobs];
      [|destruct (distance st !! n) as [v|] eqn:Hn].
    + destruct (IH st Hcur)
        as (new & st' & E & Hfr & Hfound & Hnd & Hnew & Hdist).
      exists new, st'. do 4 (split; [done|]). split; [|done].
      intros n'. rewrite Hnew, elem_of_cons. split; [tauto|].
      intros ([->|Hin] & Ho & Hc); done.
    + destruct (IH st Hcur)
        as (new & st' & E & Hfr & Hfound & Hnd & Hnew & Hdist).
      exists new, st'. do 4 (split; [done|]). split; [|done].
      intros n'. rewrite Hnew, elem_of_cons. split; [tauto|].
      intros ([->|Hin] & Ho & Hc); [congruence|done].
    + unfold dict_get. rewrite Hcur. cbn beta iota delta [mbind result_bind].
      assert (Hne : n <> current) by (intros ->; congruence).
      match goal with
      | |- context [foldM _ l ?s] =>
          destruct (IH s) as (new & st' & E & Hfr & Hfound & Hnd & Hnew & Hdist)
      end.
      { simpl. by rewrite lookup_insert_ne. }
      simpl in Hfr, Hfound, Hnew, Hdist.
      exists (n :: new), st'. split; [done|].
      split; [by rewrite Hfr, <- app_assoc|]. split; [done|].
      split; [|split].
      * constructor; [|done]. intros Hin. apply Hnew in Hin as (_ & _ & Hin).
        by rewrite lookup_insert_eq in Hin.
      * intros n'. rewrite elem_of_cons, Hnew, lookup_insert_None. split.
        -- intros [->|(Hin & Ho & Hc & Hne')].
           ++ split; [apply list_elem_of_here|done].
           ++ split; [by apply list_elem_of_further|done].
        -- intros (Hin & Ho & Hc).
           destruct (decide (n' = n)) as [->|Hne']; [by left|right].
           apply elem_of_cons in Hin as [->|Hin]; done.
      * intros k. rewrite Hdist.
        destruct (decide (k ∈ new)) as [Hin|Hout].
        -- by rewrite decide_True by (by apply list_elem_of_further).
        -- destruct (decide (k = n)) as [->|Hne'].
           ++ rewrite lookup_insert_eq.
              by rewrite decide_True by apply list_elem_of_here.
           ++ rewrite lookup_insert_ne by done.
              rewrite decide_False; [done|].
              intros Hin. apply elem_of_cons in Hin as [?|?]; done.
Qed.

Lemma is_Some_dec {V : Type} (m : gmap CubeHex V) (k : CubeHex) :
  is_Some (m !! k) \/ ~ is_Some (m !! k).
Proof.
  destruct (m !! k) as [v|]; [left; by exists v|right; intros [v Hv]; discriminate].
Qed.

Lemma bfs_loop_distances (start : CubeHex) (goals : gset CubeHex)
    (fuel : nat) :
  forall st d r,
    bfs_inv start d st ->
    bfs_loop fuel goals ∅ None st = Some r ->
    exists st', r = Ok st' /\
      forall h v, distance st' !! h = Some v -> v = cube_distance start h.
Proof.
  induction fuel as [|fuel IH]; intros st d r [Hlev Hdist] Hloop; [done|].
  rewrite bfs_loop_unfold in Hloop.
  destruct (frontier st) as [|current rest] eqn:Hfr.
  { injection Hloop as <-. by exists st. }
  cbv zeta in Hloop.
  destruct (bool_decide (current ∈ goals)
            && (Z.of_nat (size (if bool_decide (current ∈ goals)
                                then {[current]} ∪ found_goals st
                                else found_goals st))
                =? Z.of_nat (size goals))).
  { injection Hloop as <-. eexists. split; [done|]. done. }
  assert (Hcur : distance st !! current = Some (cube_distance start current)).
  { destruct (li_front _ _ _ _ Hlev current) as [v Hv];
      [apply list_elem_of_here|].
    by rewrite Hv, (Hdist current v Hv). }
  match type of Hloop with
  | match foldM _ _ ?s with _ => _ end = _ =>
      destruct (bfs_visit_fold ∅ current (cube_distance start current)
                  (cube_neighbors current) s Hcur)
        as (new & st2 & E & Hfr2 & _ & _ & Hnew & Hdist2)
  end.
  rewrite E in Hloop. simpl in Hfr2, Hnew, Hdist2.
  destruct (level_inv_step start current d rest new
              (fun h => is_Some (distance st !! h))
              (fun h => is_Some (distance st2 !! h)))
    as (d' & Hlev' & Hd' & Hnewd); try done.
  - intros k. apply is_Some_dec.
  - intros n. rewrite Hnew. split.
    + intros (Hadj & _ & Hnone). split; [done|]. rewrite Hnone.
      intros [v Hv]. discriminate.
    + intros (Hadj & Hnone). split; [done|]. split; [set_solver|].
      destruct (distance st !! n) as [v|]; [destruct Hnone; by exists v|done].
  - intros k. rewrite Hdist2. destruct (decide (k ∈ new)); [|tauto].
    split; [auto|eauto].
  - apply (IH st2 d' r); [|done]. split; [by rewrite Hfr2|].
    intros h v Hv. rewrite Hdist2 in Hv.
    destruct (decide (h ∈ new)) as [Hin|Hout]; [|by apply Hdist].
    injection Hv as <-. rewrite (Hnewd h Hin). lia.
Qed.

Lemma bfs_inv_init (start : CubeHex) :
  bfs_inv start 0 {| frontier := [start];
                     came_from := {[start := None]};
                     distance := {[start := 0]};
                     found_goals := ∅ |}.
Proof.
  split; simpl.
  - apply level_inv_init. intros h. split.
    + intros [v Hv]. by apply lookup_singleton_Some in Hv as [<- _].
    + intros ->. rewrite lookup_singleton_eq. eauto.
  - intros h v Hv. apply lookup_singleton_Some in Hv as [<- <-].
    by rewrite cube_distance_self.
Qed.

(** On the open grid and without a bound, [cube_bfs] does not raise, and
    every distance it records is the hex distance from the start. *)
Lemma cube_bfs_distances (fuel : nat) (start : CubeHex)
    (goals : gset CubeHex) (r : result (gmap CubeHex Z)) :
  cube_bfs fuel start goals ∅ None = Some r ->
  exists dist, r = Ok dist /\
    forall g v, dist !! g = Some v -> v = cube_distance start g.
Proof.
  unfold cube_bfs. intros H.
  match type of H with
  | match bfs_loop _ _ _ _ ?s with _ => _ end = _ =>
      destruct (bfs_loop fuel goals ∅ None s) as [r'|] eqn:Hloop; [|done]
  end.
  destruct (bfs_loop_distances start goals fuel _ 0 r' (bfs_inv_init start)
              Hloop) as (st' & -> & Hdist).
  injection H as <-. by exists (distance st').
Qed.

Lemma cube_bfs_zero_sum (fuel : nat) (start : CubeHex)
    (goals obstacles : gset CubeHex) (max_distance : option Z)
    (dist : gmap CubeHex Z) :
  zero_sum start ->
  cube_bfs fuel start goals obstacles max_distance = Some (Ok dist) ->
  forall k, is_Some (dist !! k) -> zero_sum k.
Proof.
  unfold cube_bfs. intros Hz H.
  match type of H with
  | match bfs_loop _ _ _ _ ?s with _ => _ end = _ =>
      destruct (bfs_loop fuel goals obstacles max_distance s)
        as [[st'|e]|] eqn:Hloop; try done
  end.
  injection H as <-.
  refine (bfs_loop_zero_sum _ _ _ _ _ _ _ _ Hloop); simpl.
  - intros k [v Hv]. by apply lookup_singleton_Some in Hv as [<- _].
  - intros h Hh. by apply list_elem_of_singleton in Hh as ->.
Qed.

(** The paths [cube_path] answers, on the open grid. *)
Lemma cube_path_open (fuel : nat) (start goal : CubeHex)
    (r : result (option (list CubeHex))) :
  aligned start goal ->
  cube_path fuel start goal ∅ = Some r ->
  exists path, r = Ok (Some path) /\
    Z.of_nat (length path) = cube_distance start goal + 1.
Proof.
  intros Hal H.
  destruct (cube_path_inv _ _ _ _ _ H)
    as (cf & frontier & Hloop & Hinv & [(Hgoal & -> & ->)|(l & Hl & ->)]).
  - destruct (straight_route start (Z.to_nat (cube_distance start goal)) goal)
      as [l Hroute]; [done| |].
    { pose proof (cube_distance_nonneg start goal). lia. }
    apply route_cons in Hroute as (post & -> & Hch & Hfree & Hlast).
    assert (is_Some (cf !! goal)) as [v Hv]; [|congruence].
    apply (exhausted_covers ∅ start goal cf post Hinv start);
      try done.
    rewrite (pi_start _ _ _ _ _ Hinv). eauto.
  - exists l. split; [done|]. apply (linked_length ∅ cf); [|done].
    apply (path_loop_levels start goal fuel [start] {[start := None]} cf 0);
      try done.
    + apply path_inv_init.
    + apply level_inv_init. intros h. split.
      * intros [v Hv]. by apply lookup_singleton_Some in Hv as [<- _].
      * intros ->. rewrite lookup_singleton_eq. eauto.
    + intros h p Hh. by apply lookup_singleton_Some in Hh as [_ ?].
Qed.

(** ** Termination of [cube_bfs] *)

Lemma bfs_loop_mono (goals obstacles : gset CubeHex)
    (max_distance : option Z) (n : nat) :
  forall (m : nat) st r,
    (n <= m)%nat ->
    bfs_loop n goals obstacles max_distance st = Some r ->
    bfs_loop m goals obstacles max_distance st = Some r.
Proof.
  induction n as [|n IH]; intros m st r Hle Hn; [done|].
  destruct m as [|m]; [lia|].
  rewrite bfs_loop_unfold in *.
  destruct (frontier st) as [|current rest]; [done|].
  cbv zeta in *.
  destruct (bool_decide (current ∈ goals) && _); [done|].
  destruct (foldM _ _ _) as [st2|e]; [|done].
  apply IH; [lia|done].
Qed.

(** A chain from a seen hex to a hex that has not left the frontier
    meets the frontier. *)
Lemma find_frontier_level (seen : CubeHex -> Prop) (frontier : list CubeHex)
    (g : CubeHex) :
  (forall h n, seen h -> h ∉ frontier -> adjacent h n -> seen n) ->
  (seen g -> g ∈ frontier) ->
  forall post h,
    seen h -> chain (h :: post) -> last (h :: post) = Some g ->
    exists h' post',
      h' ∈ frontier /\ chain (h' :: post') /\
      last (h' :: post') = Some g /\
      (length post' <= length post)%nat.
Proof.
  intros Hclosed Hg. induction post as [|x post IH]; intros h Hh Hch Hlast.
  - simpl in Hlast. injection Hlast as ->.
    exists g, []. split; [by apply Hg|]. do 2 (split; [done|]). lia.
  - destruct (decide (h ∈ frontier)) as [Hin|Hout].
    { exists h, (x :: post). do 3 (split; [done|]). lia. }
    destruct Hch as [Hadj Hch]. rewrite last_cons_cons in Hlast.
    destruct (IH x) as (h' & post' & Hin & Hch' & Hlast' & Hlen); try done.
    + by apply (Hclosed h x).
    + exists h', post'. do 3 (split; [done|]). simpl. lia.
Qed.

(** One iteration of the loop of [cube_bfs] on the open grid, from a
    state that satisfies the invariant: either the loop stops there with
    every goal recorded, or it goes on from a state that satisfies the
    invariant again. *)
Lemma bfs_run_step (start : CubeHex) (goals : gset CubeHex) (d : Z)
    (st : bfs_state) (current : CubeHex) (rest : list CubeHex) :
  bfs_run_inv start goals d st ->
  frontier st = current :: rest ->
  (exists st1,
     (forall fuel, bfs_loop (S fuel) goals ∅ None st = Some (Ok st1)) /\
     forall g, g ∈ goals -> is_Some (distance st1 !! g)) \/
  (exists st2 d' new,
     (forall fuel, bfs_loop (S fuel) goals ∅ None st
                   = bfs_loop fuel goals ∅ None st2) /\
     bfs_run_inv start goals d' st2 /\
     frontier st2 = rest ++ new /\
     (forall n, adjacent current n -> is_Some (distance st2 !! n)) /\
     found_goals st2 = (if bool_decide (current ∈ goals)
                        then {[current]} ∪ found_goals st
                        else found_goals st)).
Proof.
  intros [[Hlev Hdist] Hnd Hfound Hmore] Hfr.
  set (found := if bool_decide (current ∈ goals)
                then {[current]} ∪ found_goals st else found_goals st).
  assert (Hseen_cur : is_Some (distance st !! current)).
  { apply (li_front _ _ _ _ Hlev). rewrite Hfr. apply list_elem_of_here. }
  assert (Hcur_out : current ∉ rest).
  { rewrite Hfr in Hnd. by apply NoDup_cons in Hnd as [? _]. }
  assert (Hsub : found ⊆ goals).
  { unfold found. intros g Hg.
    destruct (bool_decide_reflect (current ∈ goals)) as [Hc|Hc].
    - apply elem_of_union in Hg as [Hg|Hg]; [|by apply Hfound in Hg as [? _]].
      by apply elem_of_singleton in Hg as ->.
    - by apply Hfound in Hg as [? _]. }
  destruct (bool_decide (current ∈ goals)
            && (Z.of_nat (size found) =? Z.of_nat (size goals))) eqn:Hexit.
  - left. apply andb_true_iff in Hexit as [Hc Hsize].
    apply bool_decide_eq_true in Hc. apply Z.eqb_eq in Hsize.
    eexists. split.
    + intros fuel. rewrite bfs_loop_unfold, Hfr. cbv zeta. fold found.
      rewrite bool_decide_eq_true_2 by done.
      replace (Z.of_nat (size found) =? Z.of_nat (size goals)) with true
        by (symmetry; apply Z.eqb_eq; lia).
      reflexivity.
    + simpl. intros g Hg.
      assert (Hin : g ∈ found).
      { assert (Heq : found = goals)
          by (apply set_subseteq_size_eq; [done|lia]).
        by rewrite Heq. }
      unfold found in Hin. rewrite bool_decide_eq_true_2 in Hin by done.
      apply elem_of_union in Hin as [Hin|Hin].
      * by apply elem_of_singleton in Hin as ->.
      * by apply Hfound in Hin as (_ & ? & _).
  - right.
    assert (Hcur : distance st !! current
                   = Some (cube_distance start current)).
    { destruct Hseen_cur as [v Hv]. by rewrite Hv, (Hdist current v Hv). }
    destruct (bfs_visit_fold ∅ current (cube_distance start current)
                (cube_neighbors current)
                {| frontier := rest; came_from := came_from st;
                   distance := distance st; found_goals := found |} Hcur)
      as (new & st2 & E & Hfr2 & Hfound2 & Hnd2 & Hnew & Hdist2).
    simpl in Hfr2, Hfound2, Hnew, Hdist2.
    assert (Hnew' : forall n, n ∈ new <->
                              adjacent current n /\
                              ~ is_Some (distance st !! n)).
    { intros n. rewrite Hnew. split.
      - intros (Hadj & _ & Hnone). split; [done|]. rewrite Hnone.
        intros [v Hv]. discriminate.
      - intros (Hadj & Hnone). split; [done|]. split; [set_solver|].
        destruct (distance st !! n) as [v|]; [destruct Hnone; by exists v|done]. }
    assert (Hseen2 : forall k, is_Some (distance st2 !! k) <->
                               is_Some (distance st !! k) \/ k ∈ new).
    { intros k. rewrite Hdist2. destruct (decide (k ∈ new)); [|tauto].
      split; [auto|eauto]. }
    rewrite Hfr in Hlev.
    destruct (level_inv_step start current d rest new
                (fun h => is_Some (distance st !! h))
                (fun h => is_Some (distance st2 !! h))
                (is_Some_dec (distance st)) Hlev Hnew' Hseen2)
      as (d' & Hlev' & Hd' & Hnewd).
    exists st2, d', new. split; [|split; [|split; [|split]]].
    + intros fuel. rewrite bfs_loop_unfold, Hfr. cbv zeta. fold found.
      rewrite Hexit, E. reflexivity.
    + split.
      * split; [by rewrite Hfr2|].
        intros h v Hv. rewrite Hdist2 in Hv.
        destruct (decide (h ∈ new)) as [Hin|Hout]; [|by apply Hdist].
        injection Hv as <-. rewrite (Hnewd h Hin). lia.
      * rewrite Hfr2. apply NoDup_app.
        split; [rewrite Hfr in Hnd; by apply NoDup_cons in Hnd as [_ ?]|].
        split; [|done]. intros x Hx Hx'. apply Hnew' in Hx' as [_ Hx'].
        apply Hx'. apply (li_front _ _ _ _ Hlev). by apply list_elem_of_further.
      * intros g. rewrite Hfound2, Hfr2. split.
        -- intros Hg. split; [by apply Hsub|].
           assert (is_Some (distance st !! g) /\ g ∉ rest) as [Hgs Hgr].
           { unfold found in Hg.
             destruct (bool_decide (current ∈ goals));
               [apply elem_of_union in Hg as [Hg|Hg]|].
             - by apply elem_of_singleton in Hg as ->.
             - apply Hfound in Hg as (_ & ? & Hout). split; [done|].
               intros Hin. apply Hout. rewrite Hfr.
               by apply list_elem_of_further.
             - apply Hfound in Hg as (_ & ? & Hout). split; [done|].
               intros Hin. apply Hout. rewrite Hfr.
               by apply list_elem_of_further. }
           split; [apply Hseen2; by left|].
           intros Hin. apply elem_of_app in Hin as [?|Hin]; [done|].
           by apply Hnew' in Hin as [_ ?].
        -- intros (Hg & Hgs & Hout).
           assert ((g ∉ rest) /\ g ∉ new) as [Hgr Hgn].
           { split; intros ?; apply Hout, elem_of_app; auto. }
           apply Hseen2 in Hgs as [Hgs|?]; [|done].
           unfold found. destruct (decide (g = current)) as [->|Hne].
           ++ rewrite bool_decide_eq_true_2 by done.
              apply elem_of_union. left. by apply elem_of_singleton.
           ++ assert (g ∈ found_goals st).
              { apply Hfound. do 2 (split; [done|]). rewrite Hfr.
                intros Hin. apply elem_of_cons in Hin as [?|?]; done. }
              destruct (bool_decide (current ∈ goals)); [|done].
              apply elem_of_union. by right.
      * rewrite Hfound2. intros Heq.
        apply andb_false_iff in Hexit as [Hc|Hsz].
        -- apply bool_decide_eq_false in Hc. unfold found in Heq.
           by rewrite bool_decide_eq_false_2 in Heq.
        -- apply Z.eqb_neq in Hsz. apply Hsz. by rewrite Heq.
    + done.
    + intros n Hadj. apply Hseen2.
      destruct (is_Some_dec (distance st) n) as [?|Hn]; [by left|right].
      by apply Hnew'.
    + done.
Qed.

Lemma bfs_goal_waits (start : CubeHex) (goals : gset CubeHex) (d : Z)
    (st : bfs_state) (g : CubeHex) :
  bfs_run_inv start goals d st ->
  g ∈ goals -> g ∉ found_goals st ->
  is_Some (distance st !! g) -> g ∈ frontier st.
Proof.
  intros Hinv Hg Hout Hseen.
  destruct (decide (g ∈ frontier st)) as [|Hnot]; [done|].
  destruct Hout. by apply (br_found _ _ _ _ Hinv).
Qed.

Lemma found_one_more (goals found : gset CubeHex) (c : CubeHex) :
  c ∈ goals -> c ∉ found ->
  (size (goals ∖ ({[c]} ∪ found)) < size (goals ∖ found))%nat.
Proof.
  intros Hc Hcf. apply subset_size, strict_spec. split.
  - intros x Hx. apply elem_of_difference in Hx as [Hx1 Hx2].
    apply elem_of_difference. split; [done|].
    intros Hin. apply Hx2, elem_of_union. by right.
  - intros Hsub.
    assert (Hin : c ∈ goals ∖ found) by (by apply elem_of_difference).
    apply Hsub in Hin. apply elem_of_difference in Hin as [_ Hin].
    apply Hin, elem_of_union. left. by apply elem_of_singleton.
Qed.

(** While the loop runs, some goal is still to be found, and a route to
    it passes through the frontier. *)
Lemma bfs_pending (start : CubeHex) (goals : gset CubeHex) (d : Z)
    (st : bfs_state) :
  (forall g, g ∈ goals -> aligned start g) ->
  bfs_run_inv start goals d st ->
  exists g h post j,
    g ∈ goals /\ (g ∉ found_goals st) /\
    chain (h :: post) /\ last (h :: post) = Some g /\
    frontier st !! j = Some h.
Proof.
  intros Hal Hinv.
  destruct (set_choose_L (goals ∖ found_goals st)) as [g Hg].
  { intros Hempty. apply (br_more _ _ _ _ Hinv).
    apply set_eq. intros x. split.
    - intros Hx. by apply (br_found _ _ _ _ Hinv) in Hx as [? _].
    - intros Hx. destruct (decide (x ∈ found_goals st)) as [|Hout]; [done|].
      assert (x ∈ goals ∖ found_goals st) as Hx'
        by (by apply elem_of_difference).
      rewrite Hempty in Hx'. by apply not_elem_of_empty in Hx'. }
  apply elem_of_difference in Hg as [Hg Hgf].
  destruct (straight_route start (Z.to_nat (cube_distance start g)) g
              (Hal g Hg)) as [l Hroute].
  { pose proof (cube_distance_nonneg start g). lia. }
  apply route_cons in Hroute as (post & -> & Hch & _ & Hlast).
  pose proof (proj1 (br_inv _ _ _ _ Hinv)) as Hlev.
  destruct (find_frontier_level
              (fun k => is_Some (distance st !! k)) (frontier st) g
              (li_closed _ _ _ _ Hlev)
              (bfs_goal_waits _ _ _ _ _ Hinv Hg Hgf) post start)
    as (h' & post' & Hin' & Hch' & Hlast' & _); try done.
  { apply (li_full _ _ _ _ Hlev); [apply aligned_self|].
    rewrite cube_distance_self. apply (li_level _ _ _ _ Hlev). }
  apply list_elem_of_lookup in Hin' as [j Hj].
  by exists g, h', post', j.
Qed.

(** The loop of [cube_bfs] ends on the open grid when every goal can be
    reached: by induction on the number of goals still to be found, then
    on the length of what is left of a route to one of them from a hex
    of the frontier, then on the place of that hex in the frontier. *)
Lemma bfs_loop_terminates (start : CubeHex) (goals : gset CubeHex) :
  (forall g, g ∈ goals -> aligned start g) ->
  forall (u n i : nat) st d g h post,
    bfs_run_inv start goals d st ->
    size (goals ∖ found_goals st) = u ->
    g ∈ goals -> g ∉ found_goals st ->
    chain (h :: post) -> last (h :: post) = Some g ->
    length post = n ->
    frontier st !! i = Some h ->
    exists fuel st',
      bfs_loop fuel goals ∅ None st = Some (Ok st') /\
      forall g, g ∈ goals -> is_Some (distance st' !! g).
Proof.
  intros Hal.
  induction u as [u IHu] using lt_wf_ind.
  induction n as [n IHn] using lt_wf_ind.
  induction i as [|i IHi];
    intros st d g h post Hinv Hu Hg Hgf Hch Hlast Hlen Hi.
  all: destruct (frontier st) as [|current rest] eqn:Hfr; [done|].
  all: destruct (bfs_run_step start goals d st current rest Hinv Hfr)
         as [(st1 & Hrun & Hall)
            |(st2 & d' & new & Hrun & Hinv2 & Hfr2 & Hadj & Hfound2)];
         [exists 1%nat, st1; by split|].
  all: cut (exists fuel st',
              bfs_loop fuel goals ∅ None st2 = Some (Ok st') /\
              forall g, g ∈ goals -> is_Some (distance st' !! g));
         [intros (fuel & st' & Hloop & Hall); exists (S fuel), st';
          by rewrite Hrun|].
  all: destruct (bool_decide_reflect (current ∈ goals)) as [Hc|Hc];
         [assert (Hcf : current ∉ found_goals st)
            by (intros Hin;
                apply (br_found _ _ _ _ Hinv) in Hin as (_ & _ & Hout);
                apply Hout; rewrite Hfr; apply list_elem_of_here);
          assert (Hless : (size (goals ∖ found_goals st2) < u)%nat)
            by (rewrite <- Hu, Hfound2; by apply found_one_more);
          destruct (bfs_pending start goals d' st2 Hal Hinv2)
            as (g' & h' & post' & j & Hg' & Hgf' & Hch' & Hlast' & Hj);
          by apply (IHu _ Hless (length post') j st2 d' g' h' post')
         |].
  - simpl in Hi. injection Hi as ->.
    destruct post as [|x post]; [simpl in Hlast; by injection Hlast as ->|].
    destruct Hch as [Hhx Hch]. rewrite last_cons_cons in Hlast.
    pose proof (proj1 (br_inv _ _ _ _ Hinv2)) as Hlev2.
    assert (Hgf2 : g ∉ found_goals st2) by (by rewrite Hfound2).
    destruct (find_frontier_level
                (fun k => is_Some (distance st2 !! k)) (frontier st2) g
                (li_closed _ _ _ _ Hlev2)
                (bfs_goal_waits _ _ _ _ _ Hinv2 Hg Hgf2)
                post x (Hadj x Hhx) Hch Hlast)
      as (h' & post' & Hin' & Hch' & Hlast' & Hle).
    apply list_elem_of_lookup in Hin' as [j Hj].
    apply (IHn (length post') ltac:(simpl in Hlen; lia) j st2 d' g h' post');
      try done.
    by rewrite Hfound2.
  - simpl in Hi.
    apply (IHi st2 d' g h post); try done.
    + by rewrite Hfound2.
    + by rewrite Hfound2.
    + rewrite Hfr2. by apply lookup_app_l_Some.
Qed.

(** On the open grid, with at least one goal and every goal a cube hex
    like the start, [cube_bfs] returns, and its answer records every
    goal. *)
Lemma cube_bfs_terminates (start : CubeHex) (goals : gset CubeHex) :
  goals <> ∅ ->
  (forall g, g ∈ goals -> aligned start g) ->
  exists fuel dist,
    cube_bfs fuel start goals ∅ None = Some (Ok dist) /\
    forall g, g ∈ goals -> is_Some (dist !! g).
Proof.
  intros Hne Hal. destruct (set_choose_L goals Hne) as [g Hg].
  destruct (straight_route start (Z.to_nat (cube_distance start g)) g
              (Hal g Hg)) as [l Hroute].
  { pose proof (cube_distance_nonneg start g). lia. }
  apply route_cons in Hroute as (post & -> & Hch & _ & Hlast).
  set (st := {| frontier := [start];
                came_from := {[start := None]};
                distance := {[start := 0]};
                found_goals := ∅ |}).
  destruct (bfs_loop_terminates start goals Hal
              (size (goals ∖ found_goals st)) (length post) 0 st 0 g
              start post) as (fuel & st' & Hloop & Hall); try done.
  - split.
    + apply bfs_inv_init.
    + apply NoDup_singleton.
    + simpl. intros x. split; [intros Hx; by apply not_elem_of_empty in Hx|].
      intros (_ & [v Hv] & Hout).
      apply lookup_singleton_Some in Hv as [<- _].
      destruct Hout. apply list_elem_of_here.
    + simpl. done.
  - exists fuel, (distance st'). unfold cube_bfs. fold st. by rewrite Hloop.
Qed.

(** C5. On a grid without obstacles, between two cube hexes,
    [cube_path] returns (given iterations enough), and what it returns
    is always a path of exactly [distance + 1] hexes; [cube_bfs] without
    a bound never raises, every distance it records is the hex distance
    from the start, and with at least one goal, all cube hexes, it
    returns and records every goal. *)
Theorem open_grid_search (start goal : CubeHex) (goals : gset CubeHex) :
  zero_sum start -> zero_sum goal ->
  (exists fuel path, cube_path fuel start goal ∅ = Some (Ok (Some path))) /\
  (forall fuel r,
     cube_path fuel start goal ∅ = Some r ->
     exists path,
       r = Ok (Some path) /\
       Z.of_nat (length path) = cube_distance start goal + 1) /\
  (forall fuel r,
     cube_bfs fuel start goals ∅ None = Some r ->
     exists dist,
       r = Ok dist /\
       forall g v, dist !! g = Some v -> v = cube_distance start g) /\
  (goals <> ∅ -> (forall g, g ∈ goals -> zero_sum g) ->
   exists fuel dist,
     cube_bfs fuel start goals ∅ None = Some (Ok dist) /\
     forall g, g ∈ goals -> is_Some (dist !! g)).
Proof.
  intros Hs Hg.
  pose proof (zero_sum_aligned start goal Hs Hg) as Hal.
  split; [|split; [|split]].
  - destruct (straight_route start
                (Z.to_nat (cube_distance start goal)) goal Hal) as [l Hl].
    { pose proof (cube_distance_nonneg start goal). lia. }
    by apply cube_path_complete with l.
  - intros fuel r. by apply cube_path_open.
  - intros fuel r. apply cube_bfs_distances.
  - intros Hne Hgoals. apply cube_bfs_terminates; [done|].
    intros g Hin. apply zero_sum_aligned; [done|by apply Hgoals].
Qed.

Lemma open_grid_search_witness :
  zero_sum (0, 0, 0) /\ zero_sum (3, -1, -2) /\
  (exists fuel path,
     cube_path fuel (0, 0, 0) (3, -1, -2) ∅ = Some (Ok (Some path))) /\
  (forall fuel r,
     cube_path fuel (0, 0, 0) (3, -1, -2) ∅ = Some r ->
     exists path,
       r = Ok (Some path) /\
       Z.of_nat (length path) = cube_distance (0, 0, 0) (3, -1, -2) + 1) /\
  (forall fuel r,
     cube_bfs fuel (0, 0, 0) {[ (3, -1, -2) ]} ∅ None = Some r ->
     exists dist,
       r = Ok dist /\
       forall g v, dist !! g = Some v -> v = cube_distance (0, 0, 0) g) /\
  (({[ (3, -1, -2) ]} : gset CubeHex) <> ∅ ->
   (forall g, g ∈ ({[ (3, -1, -2) ]} : gset CubeHex) -> zero_sum g) ->
   exists fuel dist,
     cube_bfs fuel (0, 0, 0) {[ (3, -1, -2) ]} ∅ None = Some (Ok dist) /\
     forall g, g ∈ ({[ (3, -1, -2) ]} : gset CubeHex) -> is_Some (dist !! g)).
Proof.
  split; [reflexivity|]. split; [reflexivity|].
  apply (open_grid_search (0, 0, 0) (3, -1, -2) {[ (3, -1, -2) ]});
    reflexivity.
Defined.

(** The same search by evaluation: four hexes for a distance of 3, and
    the scenario of the specification around one obstacle. *)
Lemma path_scenarios :
  cube_path 100 (0, 0, 0) (3, -1, -2) ∅
  = Some (Ok (Some [(0, 0, 0); (1, 0, -1); (2, 0, -2); (3, -1, -2)])) /\
  cube_distance (0, 0, 0) (3, -1, -2) = 3 /\
  cube_path 100 (0, 0, 0) (2, -2, 0) {[ (1, -1, 0) ]}
  = Some (Ok (Some [(0, 0, 0); (1, 0, -1); (2, -1, -1); (2, -2, 0)])).
Proof. repeat split; vm_compute; reflexivity. Qed.

(** ** The zero-sum invariant (C8) *)

Lemma direction_at_zero_sum (i : Z) : zero_sum (direction_at i).
Proof.
  unfold direction_at.
  destruct (Z.to_nat i) as [|[|[|[|[|[|n]]]]]]; try reflexivity.
  simpl. by destruct n.
Qed.

Lemma cube_add_zero_sum (a b : CubeHex) :
  zero_sum a -> zero_sum b -> zero_sum (cube_add a b).
Proof. unfold cube_add. coords. lia. Qed.

Lemma cube_round_zero_sum (frac : num * num * num) (h : CubeHex) :
  cube_round frac = Ok h -> zero_sum h.
Proof.
  destruct frac as [[frac0 frac1] frac2]. unfold cube_round.
  destruct (py_round frac0) as [q|e]; [|done].
  destruct (py_round frac1) as [r|e]; [|done].
  destruct (py_round frac2) as [s|e]; [|done].
  cbn beta iota delta [mbind result_bind].
  destruct (num_abs <$> num_sub (PyInt q) frac0) as [q_diff|e]; [|done].
  destruct (num_abs <$> num_sub (PyInt r) frac1) as [r_diff|e]; [|done].
  destruct (num_abs <$> num_sub (PyInt s) frac2) as [s_diff|e]; [|done].
  cbn beta iota delta [mbind result_bind].
  destruct (num_gt q_diff r_diff && num_gt q_diff s_diff);
    [|destruct (num_gt r_diff s_diff)];
    intros [= <-]; unfold zero_sum, c0, c1, c2; simpl; lia.
Qed.

Lemma foldM_invariant {A S : Type} (P : S -> Prop)
    (body : S -> A -> result S) (l : list A) :
  (forall s x s', P s -> body s x = Ok s' -> P s') ->
  forall s s', P s -> foldM body l s = Ok s' -> P s'.
Proof.
  intros Hbody. induction l as [|x l IH]; intros s s' Hs H.
  - by injection H as <-.
  - rewrite foldM_cons in H. destruct (body s x) as [s1|e] eqn:E; [|done].
    apply (IH s1); [by apply (Hbody s x)|done].
Qed.

Lemma cube_line_zero_sum (a b : CubeHex) (line : list CubeHex)
    (h : CubeHex) :
  cube_line a b = Ok line -> h ∈ line -> zero_sum h.
Proof.
  unfold cube_line. intros H.
  destruct (int_add_float (c0 a) lit_1e_6) as [a0|e]; [|done].
  destruct (int_add_float (c1 a) lit_1e_6) as [a1|e]; [|done].
  destruct (int_sub_float (c2 a) lit_2e_6) as [a2|e]; [|done].
  destruct (int_add_float (c0 b) lit_1e_6) as [b0|e]; [|done].
  destruct (int_add_float (c1 b) lit_1e_6) as [b1|e]; [|done].
  destruct (int_sub_float (c2 b) lit_2e_6) as [b2|e]; [|done].
  cbn beta iota delta [mbind result_bind] in H.
  revert h.
  refine (foldM_invariant (fun results => forall h, h ∈ results -> zero_sum h)
            _ _ _ _ _ _ H).
  - intros results i results' Hres Hstep h. unfold line_sample in Hstep.
    destruct (float_div_int 1 (cube_distance a b)) as [k|e]; [|done].
    cbn beta iota delta [mbind result_bind] in Hstep.
    destruct (float_mul_int k i) as [t|e]; [|done].
    cbn beta iota delta [mbind result_bind] in Hstep.
    destruct (cube_lerp (a0, a1, a2) (b0, b1, b2) t) as [p|e]; [|done].
    cbn beta iota delta [mbind result_bind] in Hstep.
    destruct (cube_round (int_triple p)) as [x|e] eqn:Hround; [|done].
    injection Hstep as <-. intros Hh.
    apply elem_of_app in Hh as [Hh|Hh]; [by apply Hres|].
    apply list_elem_of_singleton in Hh as ->.
    by apply cube_round_zero_sum in Hround.
  - intros h Hh. inversion Hh.
Qed.

Lemma chain_zero_sum (x : CubeHex) (t : list CubeHex) (h : CubeHex) :
  zero_sum x -> chain (x :: t) -> h ∈ x :: t -> zero_sum h.
Proof.
  revert x. induction t as [|y t IH]; intros x Hx Hch Hh.
  - by apply list_elem_of_singleton in Hh as ->.
  - apply elem_of_cons in Hh as [->|Hh]; [done|].
    destruct Hch as [Hxy Hch]. apply (IH y); try done.
    by apply (adjacent_zero_sum x).
Qed.

(** C8. On cube hexes ([q + r + s = 0]), [cube_add], [cube_subtract],
    [cube_scale], both rotations and [cube_neighbor] return cube hexes;
    every hex of a ring, of a spiral, of a line, of a path found, and
    every hex [cube_bfs] records is a cube hex; and [cube_round] returns
    a cube hex whatever the fractions it is given. *)
Theorem zero_sum_preserved (a b : CubeHex) (k direction : Z) :
  zero_sum a -> zero_sum b ->
  zero_sum (cube_add a b) /\
  zero_sum (cube_subtract a b) /\
  zero_sum (cube_scale a k) /\
  zero_sum (cube_rotate_left a) /\
  zero_sum (cube_rotate_right a) /\
  zero_sum (cube_neighbor a direction) /\
  (forall radius h, h ∈ cube_ring a radius -> zero_sum h) /\
  (forall radius h, h ∈ cube_spiral a radius -> zero_sum h) /\
  (forall line h, cube_line a b = Ok line -> h ∈ line -> zero_sum h) /\
  (forall fuel obstacles path h,
     cube_path fuel a b obstacles = Some (Ok (Some path)) ->
     h ∈ path -> zero_sum h) /\
  (forall fuel goals obstacles max_distance dist h,
     cube_bfs fuel a goals obstacles max_distance = Some (Ok dist) ->
     is_Some (dist !! h) -> zero_sum h) /\
  (forall frac h, cube_round frac = Ok h -> zero_sum h).
Proof.
  intros Ha Hb.
  split; [by apply cube_add_zero_sum|].
  split; [unfold cube_subtract; coords; lia|].
  split; [unfold cube_scale; coords; lia|].
  split; [unfold cube_rotate_left; coords; lia|].
  split; [unfold cube_rotate_right; coords; lia|].
  split; [apply cube_add_zero_sum; [done|apply direction_at_zero_sum]|].
  split; [intros radius h; by apply cube_ring_zero_sum|].
  split; [intros radius h; by apply cube_spiral_zero_sum|].
  split; [intros line h; apply cube_line_zero_sum|].
  split; [|split].
  - intros fuel obstacles path h Hpath Hh.
    destruct (cube_path_sound _ _ _ _ _ Hpath) as [[E _]|(p & E & Hp)];
      [done|].
    injection E as <-.
    apply route_cons in Hp as (post & -> & Hch & _).
    by apply (chain_zero_sum a post).
  - intros fuel goals obstacles max_distance dist h Hbfs.
    by apply (cube_bfs_zero_sum fuel a goals obstacles max_distance dist).
  - apply cube_round_zero_sum.
Qed.

Lemma zero_sum_preserved_witness :
  zero_sum (0, 0, 0) /\ zero_sum (1, 1, -2) /\
  zero_sum (cube_add (0, 0, 0) (1, 1, -2)) /\
  zero_sum (cube_subtract (0, 0, 0) (1, 1, -2)) /\
  zero_sum (cube_scale (0, 0, 0) 3) /\
  zero_sum (cube_rotate_left (0, 0, 0)) /\
  zero_sum (cube_rotate_right (0, 0, 0)) /\
  zero_sum (cube_neighbor (0, 0, 0) 7) /\
  (forall radius h, h ∈ cube_ring (0, 0, 0) radius -> zero_sum h) /\
  (forall radius h, h ∈ cube_spiral (0, 0, 0) radius -> zero_sum h) /\
  (forall line h,
     cube_line (0, 0, 0) (1, 1, -2) = Ok line -> h ∈ line -> zero_sum h) /\
  (forall fuel obstacles path h,
     cube_path fuel (0, 0, 0) (1, 1, -2) obstacles = Some (Ok (Some path)) ->
     h ∈ path -> zero_sum h) /\
  (forall fuel goals obstacles max_distance dist h,
     cube_bfs fuel (0, 0, 0) goals obstacles max_distance = Some (Ok dist) ->
     is_Some (dist !! h) -> zero_sum h) /\
  (forall frac h, cube_round frac = Ok h -> zero_sum h).
Proof.
  split; [reflexivity|]. split; [reflexivity|].
  apply (zero_sum_preserved (0, 0, 0) (1, 1, -2) 3 7); reflexivity.
Defined.

(** [cube_round] on fractions, by evaluation: the case where the largest
    rounding error is on [q], and a pixel that falls in the hex
    [(1, 0, -1)]. *)
Lemma cube_round_scenarios :
  cube_round (PyFloat 0.5, PyFloat 0.25, PyFloat (-0.75))%float
  = Ok (1, 0, -1) /\
  pixel_to_hex (17, 1)%float 10 "pointy" = Ok (1, 0, -1).
Proof. split; vm_compute; reflexivity. Qed.

(** * Further properties of the library *)

(** ** Distance *)

Lemma distance_is_max (a b : CubeHex) :
  zero_sum a -> zero_sum b ->
  cube_distance a b
  = Z.max (Z.abs (c0 a - c0 b))
          (Z.max (Z.abs (c1 a - c1 b)) (Z.abs (c2 a - c2 b))).
Proof. coords. intros Ha Hb. Z.div_mod_to_equations. lia. Qed.

Lemma distance_sym (a b : CubeHex) : cube_distance a b = cube_distance b a.
Proof. coords. f_equal. lia. Qed.

Lemma distance_zero_iff (a b : CubeHex) :
  zero_sum a -> zero_sum b -> (cube_distance a b = 0 <-> a = b).
Proof.
  intros Ha Hb. split; [|intros ->; apply cube_distance_self].
  revert Ha Hb. coords. intros Ha Hb. Z.div_mod_to_equations. intros D.
  triple.
Qed.

Lemma distance_triangle (a b c : CubeHex) :
  zero_sum a -> zero_sum b -> zero_sum c ->
  cube_distance a c <= cube_distance a b + cube_distance b c.
Proof. coords. intros Ha Hb Hc. Z.div_mod_to_equations. lia. Qed.

(** X1. On cube hexes [cube_distance] is a metric: never negative,
    symmetric, zero exactly between a hex and itself, and it satisfies
    the triangle inequality; it is the largest of the three absolute
    coordinate differences. *)
Theorem cube_distance_metric (a b c : CubeHex) :
  zero_sum a -> zero_sum b -> zero_sum c ->
  0 <= cube_distance a b /\
  cube_distance a b = cube_distance b a /\
  (cube_distance a b = 0 <-> a = b) /\
  cube_distance a c <= cube_distance a b + cube_distance b c /\
  cube_distance a b
  = Z.max (Z.abs (c0 a - c0 b))
          (Z.max (Z.abs (c1 a - c1 b)) (Z.abs (c2 a - c2 b))).
Proof.
  intros Ha Hb Hc.
  split; [apply cube_distance_nonneg|]. split; [apply distance_sym|].
  split; [by apply distance_zero_iff|].
  split; [by apply distance_triangle|by apply distance_is_max].
Qed.

Lemma cube_distance_metric_witness :
  zero_sum (0, 0, 0) /\ zero_sum (2, -3, 1) /\ zero_sum (-1, -1, 2) /\
  0 <= cube_distance (0, 0, 0) (2, -3, 1) /\
  cube_distance (0, 0, 0) (2, -3, 1) = cube_distance (2, -3, 1) (0, 0, 0) /\
  (cube_distance (0, 0, 0) (2, -3, 1) = 0 <-> (0, 0, 0) = (2, -3, 1)) /\
  cube_distance (0, 0, 0) (-1, -1, 2)
  <= cube_distance (0, 0, 0) (2, -3, 1) + cube_distance (2, -3, 1) (-1, -1, 2) /\
  cube_distance (0, 0, 0) (2, -3, 1)
  = Z.max (Z.abs (c0 (0, 0, 0) - c0 (2, -3, 1)))
          (Z.max (Z.abs (c1 (0, 0, 0) - c1 (2, -3, 1)))
                 (Z.abs (c2 (0, 0, 0) - c2 (2, -3, 1)))).
Proof.
  do 3 (split; [reflexivity|]).
  apply (cube_distance_metric (0, 0, 0) (2, -3, 1) (-1, -1, 2)); reflexivity.
Defined.

Lemma axial_to_cube_zero_sum (a : AxialHex) : zero_sum (axial_to_cube a).
Proof. destruct a as [q r]. unfold zero_sum, c0, c1, c2. simpl. lia. Qed.

Lemma axial_to_cube_inj (a b : AxialHex) :
  axial_to_cube a = axial_to_cube b -> a = b.
Proof. destruct a, b. simpl. intros E. inversion E. by subst. Qed.

(** X2. [axial_distance] is a metric on axial hexes, with no condition
    on them: never negative, symmetric, zero exactly between a hex and
    itself, and it satisfies the triangle inequality. *)
Theorem axial_distance_metric (a b c : AxialHex) :
  0 <= axial_distance a b /\
  axial_distance a b = axial_distance b a /\
  (axial_distance a b = 0 <-> a = b) /\
  axial_distance a c <= axial_distance a b + axial_distance b c.
Proof.
  unfold axial_distance.
  pose proof (axial_to_cube_zero_sum a). pose proof (axial_to_cube_zero_sum b).
  pose proof (axial_to_cube_zero_sum c).
  split; [apply cube_distance_nonneg|]. split; [apply distance_sym|].
  split; [|by apply distance_triangle].
  rewrite distance_zero_iff by done. split; [apply axial_to_cube_inj|by intros ->].
Qed.

(** ** Arithmetic *)



(** ** Rotations and directions *)

(** X4. The two rotations undo each other, six left rotations are the
    identity and three are the point reflection; a rotation keeps the
    distance between two hexes. *)
Theorem rotation_laws (a b : CubeHex) :
  cube_rotate_left (cube_rotate_right a) = a /\
  cube_rotate_right (cube_rotate_left a) = a /\
  cube_rotate_left (cube_rotate_left (cube_rotate_left a))
  = cube_scale a (-1) /\
  cube_rotate_left (cube_rotate_left (cube_rotate_left
    (cube_rotate_left (cube_rotate_left (cube_rotate_left a))))) = a /\
  cube_distance (cube_rotate_left a) (cube_rotate_left b) = cube_distance a b /\
  cube_distance (cube_rotate_right a) (cube_rotate_right b) = cube_distance a b.
Proof.
  destruct a as [[q r] s], b as [[q' r'] s'].
  unfold cube_rotate_left, cube_rotate_right, cube_scale, cube_distance,
    c0, c1, c2. simpl.
  split; [triple|]. split; [triple|]. split; [triple|]. split; [triple|].
  split; f_equal; lia.
Qed.

Lemma direction_mod_cases (d : Z) :
  d mod 6 = 0 \/ d mod 6 = 1 \/ d mod 6 = 2 \/
  d mod 6 = 3 \/ d mod 6 = 4 \/ d mod 6 = 5.
Proof. pose proof (Z.mod_pos_bound d 6). lia. Qed.

Lemma mod_succ_cases (d k : Z) :
  0 <= k < 6 -> (d + k) mod 6 = (d mod 6 + k) mod 6.
Proof. intros _. by rewrite Zplus_mod_idemp_l. Qed.

Ltac by_direction d :=
  let H := fresh in
  destruct (direction_mod_cases d) as [H|[H|[H|[H|[H|H]]]]];
  rewrite ?H.

(** X5. A left rotation turns the direction [d] into the direction
    [d + 1]: the left rotation of the neighbour of [h] in direction [d]
    is the neighbour, in direction [d + 1], of the left rotation of [h];
    a right rotation turns [d + 1] back into [d]. *)
Theorem rotation_of_neighbor (h : CubeHex) (d : Z) :
  cube_rotate_left (cube_neighbor h d)
  = cube_neighbor (cube_rotate_left h) (d + 1) /\
  cube_rotate_right (cube_neighbor h (d + 1))
  = cube_neighbor (cube_rotate_right h) d.
Proof.
  destruct h as [[q r] s]. unfold cube_neighbor.
  rewrite (mod_succ_cases d 1) by lia.
  by_direction d; split; unfold cube_rotate_left, cube_rotate_right, cube_add,
    c0, c1, c2; simpl; triple.
Qed.

Lemma neighbor_inverse_step (h : CubeHex) (d : Z) :
  cube_neighbor (cube_neighbor h d) (d + 3) = h /\
  cube_neighbor h (d + 6) = cube_neighbor h d.
Proof.
  destruct h as [[q r] s]. unfold cube_neighbor. split.
  - rewrite (mod_succ_cases d 3) by lia.
    by_direction d; unfold cube_add, c0, c1, c2; simpl; triple.
  - replace (d + 6) with (d + 1 * 6) by lia. by rewrite Z_mod_plus_full.
Qed.

(** X6. Directions count modulo 6, negative ones included, and the
    direction [d + 3] leads back: the neighbour in direction [d + 3] of
    the neighbour in direction [d] of [h] is [h]. *)
Theorem neighbor_inverse (h : CubeHex) (d : Z) :
  cube_neighbor h (d + 6) = cube_neighbor h d /\
  cube_neighbor h d = cube_neighbor h (d mod 6) /\
  cube_neighbor (cube_neighbor h d) (d + 3) = h /\
  cube_neighbor h (-1) = cube_neighbor h 5.
Proof.
  split; [apply neighbor_inverse_step|].
  split; [unfold cube_neighbor; by rewrite Zmod_mod|].
  split; [apply neighbor_inverse_step|reflexivity].
Qed.

Lemma cube_neighbors_NoDup (h : CubeHex) : NoDup (cube_neighbors h).
Proof.
  destruct h as [[q r] s]. rewrite cube_neighbors_coords.
  repeat (apply NoDup_cons; split;
    [rewrite ?elem_of_cons, elem_of_nil; intros H;
     repeat destruct H as [H|H]; try done; inversion H; lia|]).
  apply NoDup_nil_2.
Qed.

Lemma adjacent_sym (a b : CubeHex) : adjacent a b -> adjacent b a.
Proof.
  destruct a as [[q r] s], b as [[q' r'] s']. rewrite !adjacent_coords. lia.
Qed.

Lemma adjacent_iff_distance (a b : CubeHex) :
  adjacent a b <-> aligned a b /\ cube_distance a b = 1.
Proof.
  destruct a as [[q r] s], b as [[q' r'] s']. rewrite adjacent_coords.
  unfold aligned, zero_sum, cube_subtract, cube_distance, c0, c1, c2. simpl.
  split.
  - intros H. split; [lia|]. Z.div_mod_to_equations. lia.
  - intros [Hz Hd]. revert Hd. Z.div_mod_to_equations. lia.
Qed.

(** X7. [cube_neighbors] lists six different hexes; they are exactly the
    hexes at distance 1 (whose difference with the hex is a cube vector),
    and being a neighbour is symmetric. *)
Theorem neighbors_are_distance_one (h n : CubeHex) :
  length (cube_neighbors h) = 6%nat /\
  NoDup (cube_neighbors h) /\
  (n ∈ cube_neighbors h <-> aligned h n /\ cube_distance h n = 1) /\
  (n ∈ cube_neighbors h <-> h ∈ cube_neighbors n).
Proof.
  split; [reflexivity|]. split; [apply cube_neighbors_NoDup|].
  split; [apply adjacent_iff_distance|].
  split; apply adjacent_sym.
Qed.

(** ** Conversions in the other direction *)

Lemma offset_to_cube_roundtrip (o : OffsetHex) :
  cube_to_oddr (oddr_to_cube o) = o /\
  cube_to_evenr (evenr_to_cube o) = o /\
  cube_to_oddq (oddq_to_cube o) = o /\
  cube_to_evenq (evenq_to_cube o) = o.
Proof.
  destruct o as [col row]. simpl.
  repeat split; apply f_equal2; lia.
Qed.

Lemma offset_to_cube_zero_sum (o : OffsetHex) :
  zero_sum (oddr_to_cube o) /\ zero_sum (evenr_to_cube o) /\
  zero_sum (oddq_to_cube o) /\ zero_sum (evenq_to_cube o).
Proof.
  destruct o as [col row]. unfold zero_sum, c0, c1, c2. simpl.
  repeat split; lia.
Qed.

(** X8. Every offset hex, in each of the four schemes, and every axial
    hex converts to a cube hex with [q + r + s = 0], and converting that
    cube hex back gives the hex one started from. *)
Theorem offset_roundtrip (o : OffsetHex) (a : AxialHex) :
  (zero_sum (oddr_to_cube o) /\ cube_to_oddr (oddr_to_cube o) = o) /\
  (zero_sum (evenr_to_cube o) /\ cube_to_evenr (evenr_to_cube o) = o) /\
  (zero_sum (oddq_to_cube o) /\ cube_to_oddq (oddq_to_cube o) = o) /\
  (zero_sum (evenq_to_cube o) /\ cube_to_evenq (evenq_to_cube o) = o) /\
  (zero_sum (axial_to_cube a) /\ cube_to_axial (axial_to_cube a) = a).
Proof.
  destruct (offset_to_cube_roundtrip o) as (R1 & R2 & R3 & R4).
  destruct (offset_to_cube_zero_sum o) as (Z1 & Z2 & Z3 & Z4).
  repeat split; try done.
  - apply axial_to_cube_zero_sum.
  - by destruct a.
Qed.

(** The mask [x & 1] is the remainder of [x] modulo 2, also for a
    negative [x]. *)
Lemma land_1_mod (x : Z) : Z.land x 1 = x mod 2.
Proof. exact (Z.land_ones x 1 ltac:(lia)). Qed.

(** X9. In the odd-r scheme the column is [q + floor(r / 2)] and in the
    even-r scheme [q + ceil(r / 2)]; in the odd-q and even-q schemes the
    row is [r + floor(q / 2)] and [r + ceil(q / 2)].  The bit mask is
    the remainder modulo 2 also for negative coordinates. *)
Theorem offset_shift (q r s : Z) :
  cube_to_oddr (q, r, s) = (q + r / 2, r) /\
  cube_to_evenr (q, r, s) = (q + (r + 1) / 2, r) /\
  cube_to_oddq (q, r, s) = (q, r + q / 2) /\
  cube_to_evenq (q, r, s) = (q, r + (q + 1) / 2).
Proof.
  unfold cube_to_oddr, cube_to_evenr, cube_to_oddq, cube_to_evenq.
  rewrite !land_1_mod.
  repeat split; apply f_equal2; try reflexivity;
    Z.div_mod_to_equations; lia.
Qed.

(** ** Offset and axial adapters *)

Lemma cube_neighbor_adjacent (h : CubeHex) (d : Z) :
  adjacent h (cube_neighbor h d).
Proof.
  destruct h as [[q r] s]. unfold cube_neighbor.
  by_direction d; unfold cube_add, c0, c1, c2; simpl;
    rewrite adjacent_coords; lia.
Qed.

Lemma cube_neighbor_zero_sum (h : CubeHex) (d : Z) :
  zero_sum h -> zero_sum (cube_neighbor h d).
Proof.
  intros H. apply (adjacent_zero_sum h); [apply cube_neighbor_adjacent|done].
Qed.

(** What the adapters of one representation have in common: a
    conversion to cube hexes and a conversion back, inverse of each
    other on the cube hexes with [q + r + s = 0]. *)
Section Representation.
Variable to_cube : Z * Z -> CubeHex.
Variable of_cube : CubeHex -> Z * Z.
Hypothesis to_cube_zero_sum : forall o, zero_sum (to_cube o).
Hypothesis of_to_cube : forall o, of_cube (to_cube o) = o.
Hypothesis to_of_cube : forall h, zero_sum h -> to_cube (of_cube h) = h.

Lemma rep_inj (o o' : Z * Z) : to_cube o = to_cube o' -> o = o'.
Proof using of_to_cube.
  intros E. rewrite <- (of_to_cube o), <- (of_to_cube o'). by rewrite E.
Qed.

Lemma rep_of_cube_inj (h h' : CubeHex) :
  zero_sum h -> zero_sum h' -> of_cube h = of_cube h' -> h = h'.
Proof using to_of_cube.
  intros Hh Hh' E. rewrite <- (to_of_cube h), <- (to_of_cube h') by done.
  by rewrite E.
Qed.

Lemma rep_metric (a b c : Z * Z) :
  0 <= cube_distance (to_cube a) (to_cube b) /\
  cube_distance (to_cube a) (to_cube b)
  = cube_distance (to_cube b) (to_cube a) /\
  (cube_distance (to_cube a) (to_cube b) = 0 <-> a = b) /\
  cube_distance (to_cube a) (to_cube c)
  <= cube_distance (to_cube a) (to_cube b)
     + cube_distance (to_cube b) (to_cube c).
Proof using to_cube_zero_sum of_to_cube.
  split; [apply cube_distance_nonneg|]. split; [apply distance_sym|].
  split; [|by apply distance_triangle].
  rewrite distance_zero_iff by done. split; [apply rep_inj|by intros ->].
Qed.

Lemma rep_neighbor (hex : Z * Z) (d : Z) :
  let n := of_cube (cube_neighbor (to_cube hex) d) in
  cube_distance (to_cube hex) (to_cube n) = 1 /\
  of_cube (cube_neighbor (to_cube n) (d + 3)) = hex.
Proof using to_cube_zero_sum of_to_cube to_of_cube.
  intros n. unfold n.
  rewrite to_of_cube by (by apply cube_neighbor_zero_sum). split.
  - by apply adjacent_iff_distance, cube_neighbor_adjacent.
  - destruct (neighbor_inverse_step (to_cube hex) d) as [-> _]. apply of_to_cube.
Qed.

Lemma rep_list (l : list CubeHex) :
  (forall h, h ∈ l -> zero_sum h) -> NoDup l ->
  NoDup (map of_cube l) /\ length (map of_cube l) = length l.
Proof using to_of_cube.
  intros Hz Hnd. split; [|apply length_map].
  apply (NoDup_fmap_2_strong of_cube); [|done].
  intros x y Hx Hy. apply rep_of_cube_inj; by apply Hz.
Qed.

Lemma rep_neighbors (hex : Z * Z) :
  NoDup (map of_cube (cube_neighbors (to_cube hex))) /\
  length (map of_cube (cube_neighbors (to_cube hex))) = 6%nat.
Proof using to_cube_zero_sum to_of_cube.
  apply rep_list; [|apply cube_neighbors_NoDup].
  intros h Hh. by apply (adjacent_zero_sum (to_cube hex) h).
Qed.

Lemma rep_ring (center : Z * Z) (radius : Z) :
  0 < radius ->
  let ring := map of_cube (cube_ring (to_cube center) radius) in
  length ring = Z.to_nat (6 * radius) /\ NoDup ring /\
  forall o, o ∈ ring -> cube_distance (to_cube center) (to_cube o) = radius.
Proof using to_cube_zero_sum to_of_cube.
  intros Hr ring. unfold ring.
  assert (Hz : forall h, h ∈ cube_ring (to_cube center) radius -> zero_sum h).
  { intros h. by apply cube_ring_zero_sum. }
  destruct (rep_list _ Hz (cube_ring_NoDup _ _ Hr)) as [Hnd Hlen].
  split; [by rewrite Hlen, cube_ring_length|]. split; [done|].
  intros o Ho. apply list_elem_of_fmap in Ho as (h & -> & Hh).
  rewrite to_of_cube by (by apply Hz). by apply cube_ring_distance.
Qed.

Lemma rep_spiral (center : Z * Z) (radius : Z) :
  0 <= radius ->
  let spiral := map of_cube (cube_spiral (to_cube center) radius) in
  length spiral = Z.to_nat (3 * radius * radius + 3 * radius + 1) /\
  NoDup spiral /\
  forall o, o ∈ spiral ->
            cube_distance (to_cube center) (to_cube o) <= radius.
Proof using to_cube_zero_sum to_of_cube.
  intros Hr spiral. unfold spiral.
  assert (Hz : forall h, h ∈ cube_spiral (to_cube center) radius -> zero_sum h).
  { intros h. by apply cube_spiral_zero_sum. }
  destruct (rep_list _ Hz (cube_spiral_NoDup _ _ Hr)) as [Hnd Hlen].
  split; [by rewrite Hlen, cube_spiral_length|]. split; [done|].
  intros o Ho. apply list_elem_of_fmap in Ho as (h & -> & Hh).
  rewrite to_of_cube by (by apply Hz). by apply cube_spiral_distance.
Qed.
End Representation.

(** The same case analysis for each recognised scheme. *)
Ltac by_scheme H :=
  destruct H as [-> | [-> | [-> | ->]]].

Ltac scheme_laws o :=
  first
    [ apply (proj1 (offset_to_cube_zero_sum _))
    | apply (proj1 (proj2 (offset_to_cube_zero_sum _)))
    | apply (proj1 (proj2 (proj2 (offset_to_cube_zero_sum _))))
    | apply (proj2 (proj2 (proj2 (offset_to_cube_zero_sum _))))
    | apply (proj1 (offset_to_cube_roundtrip _))
    | apply (proj1 (proj2 (offset_to_cube_roundtrip _)))
    | apply (proj1 (proj2 (proj2 (offset_to_cube_roundtrip _))))
    | apply (proj2 (proj2 (proj2 (offset_to_cube_roundtrip _))))
    | apply oddr_roundtrip | apply evenr_roundtrip
    | apply oddq_roundtrip | apply evenq_roundtrip ];
  try assumption.

(** X10. With a recognised scheme [offset_distance] returns, and it is a
    metric on offset hexes: never negative, symmetric, zero exactly
    between a hex and itself, and it satisfies the triangle inequality. *)
Theorem offset_distance_metric (offset_type : string) (a b c : OffsetHex) :
  recognized offset_type ->
  exists dab dba dbc dac,
    offset_distance a b offset_type = Ok dab /\
    offset_distance b a offset_type = Ok dba /\
    offset_distance b c offset_type = Ok dbc /\
    offset_distance a c offset_type = Ok dac /\
    0 <= dab /\ dab = dba /\ (dab = 0 <-> a = b) /\ dac <= dab + dbc.
Proof.
  intros H. by_scheme H; unfold offset_distance; simpl;
    do 4 eexists; do 4 (split; [reflexivity|]).
  - apply (rep_metric oddr_to_cube cube_to_oddr); intros; scheme_laws o.
  - apply (rep_metric evenr_to_cube cube_to_evenr); intros; scheme_laws o.
  - apply (rep_metric oddq_to_cube cube_to_oddq); intros; scheme_laws o.
  - apply (rep_metric evenq_to_cube cube_to_evenq); intros; scheme_laws o.
Qed.

Lemma offset_distance_metric_witness :
  recognized "even-q" /\
  exists dab dba dbc dac,
    offset_distance (0, 0) (3, -2) "even-q" = Ok dab /\
    offset_distance (3, -2) (0, 0) "even-q" = Ok dba /\
    offset_distance (3, -2) (1, 5) "even-q" = Ok dbc /\
    offset_distance (0, 0) (1, 5) "even-q" = Ok dac /\
    0 <= dab /\ dab = dba /\ (dab = 0 <-> (0, 0) = (3, -2)) /\
    dac <= dab + dbc.
Proof.
  split; [do 3 right; reflexivity|].
  apply (offset_distance_metric "even-q" (0, 0) (3, -2) (1, 5)).
  do 3 right; reflexivity.
Defined.

(** X11. With a recognised scheme [offset_neighbor] returns an offset
    hex at distance 1, from which the direction [d + 3] leads back; and
    [offset_neighbors] returns six different offset hexes. *)
Theorem offset_neighbor_laws (offset_type : string) (hex : OffsetHex)
    (d : Z) :
  recognized offset_type ->
  exists n l,
    offset_neighbor hex d offset_type = Ok (Some n) /\
    offset_distance hex n offset_type = Ok 1 /\
    offset_neighbor n (d + 3) offset_type = Ok (Some hex) /\
    offset_neighbors hex offset_type = Ok (map Some l) /\
    length l = 6%nat /\ NoDup l.
Proof.
  intros H. by_scheme H.
  - exists (cube_to_oddr (cube_neighbor (oddr_to_cube hex) d)),
      (map cube_to_oddr (cube_neighbors (oddr_to_cube hex))).
    destruct (rep_neighbor oddr_to_cube cube_to_oddr
                ltac:(intros; scheme_laws o) ltac:(intros; scheme_laws o)
                ltac:(intros; scheme_laws o) hex d) as [Hd Hback].
    destruct (rep_neighbors oddr_to_cube cube_to_oddr
                ltac:(intros; scheme_laws o) ltac:(intros; scheme_laws o) hex)
      as [Hnd Hlen].
    split; [reflexivity|]. split; [exact (f_equal Ok Hd)|].
    split; [exact (f_equal (fun x => Ok (Some x)) Hback)|].
    split; [reflexivity|]. by split.
  - exists (cube_to_evenr (cube_neighbor (evenr_to_cube hex) d)),
      (map cube_to_evenr (cube_neighbors (evenr_to_cube hex))).
    destruct (rep_neighbor evenr_to_cube cube_to_evenr
                ltac:(intros; scheme_laws o) ltac:(intros; scheme_laws o)
                ltac:(intros; scheme_laws o) hex d) as [Hd Hback].
    destruct (rep_neighbors evenr_to_cube cube_to_evenr
                ltac:(intros; scheme_laws o) ltac:(intros; scheme_laws o) hex)
      as [Hnd Hlen].
    split; [reflexivity|]. split; [exact (f_equal Ok Hd)|].
    split; [exact (f_equal (fun x => Ok (Some x)) Hback)|].
    split; [reflexivity|]. by split.
  - exists (cube_to_oddq (cube_neighbor (oddq_to_cube hex) d)),
      (map cube_to_oddq (cube_neighbors (oddq_to_cube hex))).
    destruct (rep_neighbor oddq_to_cube cube_to_oddq
                ltac:(intros; scheme_laws o) ltac:(intros; scheme_laws o)
                ltac:(intros; scheme_laws o) hex d) as [Hd Hback].
    destruct (rep_neighbors oddq_to_cube cube_to_oddq
                ltac:(intros; scheme_laws o) ltac:(intros; scheme_laws o) hex)
      as [Hnd Hlen].
    split; [reflexivity|]. split; [exact (f_equal Ok Hd)|].
    split; [exact (f_equal (fun x => Ok (Some x)) Hback)|].
    split; [reflexivity|]. by split.
  - exists (cube_to_evenq (cube_neighbor (evenq_to_cube hex) d)),
      (map cube_to_evenq (cube_neighbors (evenq_to_cube hex))).
    destruct (rep_neighbor evenq_to_cube cube_to_evenq
                ltac:(intros; scheme_laws o) ltac:(intros; scheme_laws o)
                ltac:(intros; scheme_laws o) hex d) as [Hd Hback].
    destruct (rep_neighbors evenq_to_cube cube_to_evenq
                ltac:(intros; scheme_laws o) ltac:(intros; scheme_laws o) hex)
      as [Hnd Hlen].
    split; [reflexivity|]. split; [exact (f_equal Ok Hd)|].
    split; [exact (f_equal (fun x => Ok (Some x)) Hback)|].
    split; [reflexivity|]. by split.
Qed.

Lemma offset_neighbor_laws_witness :
  recognized "odd-r" /\
  exists n l,
    offset_neighbor (2, 3) (-1) "odd-r" = Ok (Some n) /\
    offset_distance (2, 3) n "odd-r" = Ok 1 /\
    offset_neighbor n (-1 + 3) "odd-r" = Ok (Some (2, 3)) /\
    offset_neighbors (2, 3) "odd-r" = Ok (map Some l) /\
    length l = 6%nat /\ NoDup l.
Proof.
  split; [left; reflexivity|].
  apply (offset_neighbor_laws "odd-r" (2, 3) (-1)). left; reflexivity.
Defined.

(** X12. With a recognised scheme and a positive radius, [offset_ring]
    returns [6 * radius] different offset hexes, each at offset distance
    [radius] from the centre, and [offset_spiral] returns
    [3 radius² + 3 radius + 1] different offset hexes, each within that
    distance. *)
Theorem offset_ring_spiral (offset_type : string) (center : OffsetHex)
    (radius : Z) :
  recognized offset_type -> 0 < radius ->
  exists ring spiral,
    offset_ring center radius offset_type = Ok ring /\
    offset_spiral center radius offset_type = Ok spiral /\
    length ring = Z.to_nat (6 * radius) /\ NoDup ring /\
    (forall o, o ∈ ring -> offset_distance center o offset_type = Ok radius) /\
    length spiral = Z.to_nat (3 * radius * radius + 3 * radius + 1) /\
    NoDup spiral /\
    (forall o, o ∈ spiral ->
       exists d, offset_distance center o offset_type = Ok d /\ d <= radius).
Proof.
  intros H Hr. by_scheme H.
  - destruct (rep_ring oddr_to_cube cube_to_oddr
                ltac:(intros; scheme_laws o) ltac:(intros; scheme_laws o)
                center radius Hr) as (R1 & R2 & R3).
    destruct (rep_spiral oddr_to_cube cube_to_oddr
                ltac:(intros; scheme_laws o) ltac:(intros; scheme_laws o)
                center radius ltac:(lia)) as (S1 & S2 & S3).
    do 2 eexists. do 2 (split; [reflexivity|]). do 2 (split; [done|]).
    split; [intros o Ho; exact (f_equal Ok (R3 o Ho))|].
    do 2 (split; [done|]). intros o Ho. eexists. split; [reflexivity|by apply S3].
  - destruct (rep_ring evenr_to_cube cube_to_evenr
                ltac:(intros; scheme_laws o) ltac:(intros; scheme_laws o)
                center radius Hr) as (R1 & R2 & R3).
    destruct (rep_spiral evenr_to_cube cube_to_evenr
                ltac:(intros; scheme_laws o) ltac:(intros; scheme_laws o)
                center radius ltac:(lia)) as (S1 & S2 & S3).
    do 2 eexists. do 2 (split; [reflexivity|]). do 2 (split; [done|]).
    split; [intros o Ho; exact (f_equal Ok (R3 o Ho))|].
    do 2 (split; [done|]). intros o Ho. eexists. split; [reflexivity|by apply S3].
  - destruct (rep_ring oddq_to_cube cube_to_oddq
                ltac:(intros; scheme_laws o) ltac:(intros; scheme_laws o)
                center radius Hr) as (R1 & R2 & R3).
    destruct (rep_spiral oddq_to_cube cube_to_oddq
                ltac:(intros; scheme_laws o) ltac:(intros; scheme_laws o)
                center radius ltac:(lia)) as (S1 & S2 & S3).
    do 2 eexists. do 2 (split; [reflexivity|]). do 2 (split; [done|]).
    split; [intros o Ho; exact (f_equal Ok (R3 o Ho))|].
    do 2 (split; [done|]). intros o Ho. eexists. split; [reflexivity|by apply S3].
  - destruct (rep_ring evenq_to_cube cube_to_evenq
                ltac:(intros; scheme_laws o) ltac:(intros; scheme_laws o)
                center radius Hr) as (R1 & R2 & R3).
    destruct (rep_spiral evenq_to_cube cube_to_evenq
                ltac:(intros; scheme_laws o) ltac:(intros; scheme_laws o)
                center radius ltac:(lia)) as (S1 & S2 & S3).
    do 2 eexists. do 2 (split; [reflexivity|]). do 2 (split; [done|]).
    split; [intros o Ho; exact (f_equal Ok (R3 o Ho))|].
    do 2 (split; [done|]). intros o Ho. eexists. split; [reflexivity|by apply S3].
Qed.

Lemma offset_ring_spiral_witness :
  recognized "even-r" /\ 0 < 2 /\
  exists ring spiral,
    offset_ring (1, -1) 2 "even-r" = Ok ring /\
    offset_spiral (1, -1) 2 "even-r" = Ok spiral /\
    length ring = Z.to_nat (6 * 2) /\ NoDup ring /\
    (forall o, o ∈ ring -> offset_distance (1, -1) o "even-r" = Ok 2) /\
    length spiral = Z.to_nat (3 * 2 * 2 + 3 * 2 + 1) /\
    NoDup spiral /\
    (forall o, o ∈ spiral ->
       exists d, offset_distance (1, -1) o "even-r" = Ok d /\ d <= 2).
Proof.
  split; [right; left; reflexivity|]. split; [lia|].
  apply (offset_ring_spiral "even-r" (1, -1) 2); [right; left; reflexivity|lia].
Defined.

Lemma cube_to_axial_of_zero_sum (h : CubeHex) :
  zero_sum h -> axial_to_cube (cube_to_axial h) = h.
Proof. apply axial_roundtrip. Qed.

Lemma axial_of_to_cube (a : AxialHex) : cube_to_axial (axial_to_cube a) = a.
Proof. by destruct a. Qed.

(** X13. The axial neighbour in direction [d] is at axial distance 1,
    the direction [d + 3] leads back from it, and [axial_neighbors]
    lists six different axial hexes. *)
Theorem axial_neighbor_laws (hex : AxialHex) (d : Z) :
  axial_distance hex (axial_neighbor hex d) = 1 /\
  axial_neighbor (axial_neighbor hex d) (d + 3) = hex /\
  length (axial_neighbors hex) = 6%nat /\
  NoDup (axial_neighbors hex).
Proof.
  destruct (rep_neighbor axial_to_cube cube_to_axial axial_to_cube_zero_sum
              axial_of_to_cube cube_to_axial_of_zero_sum hex d) as [Hd Hback].
  destruct (rep_neighbors axial_to_cube cube_to_axial axial_to_cube_zero_sum
              cube_to_axial_of_zero_sum hex) as [Hnd Hlen].
  split; [exact Hd|]. split; [exact Hback|]. split; [reflexivity|exact Hnd].
Qed.

(** X14. For a positive radius [axial_ring] lists [6 * radius] different
    axial hexes, each at axial distance [radius] from the centre, and
    [axial_spiral] lists [3 radius² + 3 radius + 1] different axial
    hexes, each within that distance. *)
Theorem axial_ring_spiral (center : AxialHex) (radius : Z) :
  0 < radius ->
  length (axial_ring center radius) = Z.to_nat (6 * radius) /\
  NoDup (axial_ring center radius) /\
  (forall a, a ∈ axial_ring center radius ->
             axial_distance center a = radius) /\
  length (axial_spiral center radius)
  = Z.to_nat (3 * radius * radius + 3 * radius + 1) /\
  NoDup (axial_spiral center radius) /\
  (forall a, a ∈ axial_spiral center radius ->
             axial_distance center a <= radius).
Proof.
  intros Hr.
  destruct (rep_ring axial_to_cube cube_to_axial axial_to_cube_zero_sum
              cube_to_axial_of_zero_sum center radius Hr) as (R1 & R2 & R3).
  destruct (rep_spiral axial_to_cube cube_to_axial axial_to_cube_zero_sum
              cube_to_axial_of_zero_sum center radius ltac:(lia))
    as (S1 & S2 & S3).
  by repeat split.
Qed.

Lemma axial_ring_spiral_witness :
  0 < 3 /\
  length (axial_ring (2, -1) 3) = Z.to_nat (6 * 3) /\
  NoDup (axial_ring (2, -1) 3) /\
  (forall a, a ∈ axial_ring (2, -1) 3 -> axial_distance (2, -1) a = 3) /\
  length (axial_spiral (2, -1) 3) = Z.to_nat (3 * 3 * 3 + 3 * 3 + 1) /\
  NoDup (axial_spiral (2, -1) 3) /\
  (forall a, a ∈ axial_spiral (2, -1) 3 -> axial_distance (2, -1) a <= 3).
Proof.
  split; [lia|]. apply (axial_ring_spiral (2, -1) 3). lia.
Defined.

(** ** Rings, spirals and hexagonal maps as balls of the hex distance *)

Lemma cube_ring_aligned (center : CubeHex) (R : Z) (h : CubeHex) :
  0 < R -> h ∈ cube_ring center R -> aligned center h.
Proof.
  destruct center as [[q r] s]. intros HR Hh.
  rewrite cube_ring_sides in Hh by done.
  ring_members; subst h; unfold aligned, zero_sum, cube_subtract, c0, c1, c2;
    simpl; lia.
Qed.

Lemma cube_ring_complete (center : CubeHex) (R : Z) (h : CubeHex) :
  0 < R -> aligned center h -> cube_distance center h = R ->
  h ∈ cube_ring center R.
Proof.
  destruct center as [[q r] s], h as [[q' r'] s']. intros HR.
  unfold aligned, zero_sum, cube_subtract, cube_distance, c0, c1, c2.
  simpl fst. simpl snd. intros Hz Hd.
  assert (Hcase :
    (r' - r = R /\ - R < s' - s <= 0) \/
    (s' - s = - R /\ 0 <= q' - q < R) \/
    (q' - q = R /\ - R < r' - r <= 0) \/
    (r' - r = - R /\ 0 <= s' - s < R) \/
    (s' - s = R /\ - R < q' - q <= 0) \/
    (q' - q = - R /\ 0 <= r' - r < R)).
  { revert Hd. Z.div_mod_to_equations. lia. }
  rewrite cube_ring_sides by done. rewrite !elem_of_app, !side_list_elem.
  destruct Hcase as [[H1 H2]|[[H1 H2]|[[H1 H2]|[[H1 H2]|[[H1 H2]|[H1 H2]]]]]].
  - left. exists (Z.to_nat (s - s')). split; [lia|]. triple.
  - right; left. exists (Z.to_nat (q' - q)). split; [lia|]. triple.
  - do 2 right; left. exists (Z.to_nat (r - r')). split; [lia|]. triple.
  - do 3 right; left. exists (Z.to_nat (s' - s)). split; [lia|]. triple.
  - do 4 right; left. exists (Z.to_nat (q - q')). split; [lia|]. triple.
  - do 5 right. exists (Z.to_nat (r' - r)). split; [lia|]. triple.
Qed.

Lemma cube_ring_negative (center : CubeHex) (R : Z) :
  R < 0 -> cube_ring center R = [].
Proof.
  intros HR. unfold cube_ring. destruct (Z.eqb_spec R 0); [lia|].
  change (range 6) with [0; 1; 2; 3; 4; 5].
  unfold foldl, ring_side. rewrite !ring_side_fold, range_length.
  by replace (Z.to_nat R) with O by lia.
Qed.

Lemma cube_spiral_nonpositive (center : CubeHex) (R : Z) :
  R <= 0 -> cube_spiral center R = [center].
Proof.
  intros HR. unfold cube_spiral, range_from.
  by replace (Z.to_nat (R + 1 - 1)) with O by lia.
Qed.

Lemma cube_spiral_elem (center : CubeHex) (R : Z) (h : CubeHex) :
  0 <= R ->
  h ∈ cube_spiral center R <->
  aligned center h /\ cube_distance center h <= R.
Proof.
  intros HR. rewrite cube_spiral_rings, elem_of_cons. split.
  - intros [->|Hh].
    + split; [apply aligned_self|]. rewrite cube_distance_self. lia.
    + apply list_elem_of_In, in_concat in Hh as (ring & Hring & Hh).
      apply in_map_iff in Hring as (k & <- & Hk).
      apply list_elem_of_In, range_from_elem in Hk.
      apply list_elem_of_In in Hh. split.
      * apply (cube_ring_aligned center k); [lia|done].
      * apply cube_ring_distance in Hh; lia.
  - intros [Ha Hd].
    destruct (Z.eq_dec (cube_distance center h) 0) as [E|E].
    + left. by apply aligned_distance_zero.
    + right. pose proof (cube_distance_nonneg center h) as Hn.
      apply list_elem_of_In, in_concat.
      exists (cube_ring center (cube_distance center h)). split.
      * apply in_map, list_elem_of_In, range_from_elem. lia.
      * apply list_elem_of_In, cube_ring_complete; [lia|done|done].
Qed.

(** X15. For a positive radius the ring is the sphere of the hex
    distance: a hex is listed by [cube_ring] exactly when its difference
    with the centre is a cube vector and its distance from the centre is
    the radius. *)
Theorem ring_is_sphere (center : CubeHex) (radius : Z) (h : CubeHex) :
  0 < radius ->
  h ∈ cube_ring center radius <->
  aligned center h /\ cube_distance center h = radius.
Proof.
  intros HR. split.
  - intros Hh. split; [by apply (cube_ring_aligned center radius)|].
    by apply cube_ring_distance.
  - intros [Ha Hd]. by apply cube_ring_complete.
Qed.

Lemma ring_is_sphere_witness :
  0 < 2 /\
  ((1, 1, -2) ∈ cube_ring (0, 0, 0) 2 <->
   aligned (0, 0, 0) (1, 1, -2) /\ cube_distance (0, 0, 0) (1, 1, -2) = 2).
Proof.
  split; [lia|]. apply (ring_is_sphere (0, 0, 0) 2 (1, 1, -2)). lia.
Defined.

(** X16. A negative radius is not refused: the ring is then empty, the
    spiral of a radius below 1 is the centre alone, and so is the
    hexagonal map. *)
Theorem negative_radius (center : CubeHex) (radius : Z) :
  radius < 0 ->
  cube_ring center radius = [] /\
  cube_spiral center radius = [center] /\
  generate_hex_map radius center = {[center]}.
Proof.
  intros HR. split; [by apply cube_ring_negative|].
  unfold generate_hex_map. rewrite cube_spiral_nonpositive by lia.
  split; [done|]. simpl. apply (right_id_L ∅ (∪)).
Qed.

Lemma negative_radius_witness :
  -3 < 0 /\
  cube_ring (1, 2, -3) (-3) = [] /\
  cube_spiral (1, 2, -3) (-3) = [(1, 2, -3)] /\
  generate_hex_map (-3) (1, 2, -3) = {[(1, 2, -3)]}.
Proof.
  split; [lia|]. apply (negative_radius (1, 2, -3) (-3)). lia.
Defined.

(** X17. The hexagonal map of radius [radius >= 0] is the ball of the hex
    distance: it holds exactly the hexes whose difference with the centre
    is a cube vector and whose distance from the centre is at most the
    radius, and it has [3 radius² + 3 radius + 1] members. *)
Theorem hex_map_is_ball (radius : Z) (center : CubeHex) :
  0 <= radius ->
  (forall h, h ∈ generate_hex_map radius center <->
             aligned center h /\ cube_distance center h <= radius) /\
  size (generate_hex_map radius center)
  = Z.to_nat (3 * radius * radius + 3 * radius + 1).
Proof.
  intros HR. unfold generate_hex_map. split.
  - intros h. rewrite elem_of_list_to_set. by apply cube_spiral_elem.
  - rewrite size_list_to_set by (by apply cube_spiral_NoDup).
    by apply cube_spiral_length.
Qed.

Lemma hex_map_is_ball_witness :
  0 <= 2 /\
  (forall h, h ∈ generate_hex_map 2 (0, 0, 0) <->
             aligned (0, 0, 0) h /\ cube_distance (0, 0, 0) h <= 2) /\
  size (generate_hex_map 2 (0, 0, 0)) = Z.to_nat (3 * 2 * 2 + 3 * 2 + 1).
Proof.
  split; [lia|]. apply (hex_map_is_ball 2 (0, 0, 0)). lia.
Defined.

(** ** The size of a rectangular map *)

Lemma range_NoDup (n : Z) : NoDup (range n).
Proof.
  unfold range. apply (NoDup_fmap_2 Z.of_nat). apply NoDup_seq.
Qed.

Lemma rect_rows_size (col : Z) (rows : list Z) (hexes : gset OffsetHex) :
  NoDup rows -> (forall row, row ∈ rows -> (col, row) ∉ hexes) ->
  size (foldl (fun hexes row => {[(col, row)]} ∪ hexes) hexes rows)
  = (size hexes + length rows)%nat.
Proof.
  revert hexes. induction rows as [|row rows IH]; intros hexes Hnd Hnew; simpl.
  - lia.
  - apply NoDup_cons in Hnd as [Hrow Hnd]. rewrite IH; [|done|].
    + rewrite size_union, size_singleton; [lia|].
      apply disjoint_singleton_l, Hnew, list_elem_of_here.
    + intros row' Hrow'. rewrite elem_of_union, elem_of_singleton.
      intros [E|Hin].
      * inversion E; subst. done.
      * by apply (Hnew row'); [apply list_elem_of_further|].
Qed.

Lemma rect_cols_size (rows cols : list Z) (hexes : gset OffsetHex) :
  NoDup rows -> NoDup cols ->
  (forall col row, col ∈ cols -> (col, row) ∉ hexes) ->
  size (foldl (fun hexes col =>
                 foldl (fun hexes row => {[(col, row)]} ∪ hexes) hexes rows)
              hexes cols)
  = (size hexes + length cols * length rows)%nat.
Proof.
  intros Hrows. revert hexes.
  induction cols as [|col cols IH]; intros hexes Hnd Hnew; simpl.
  - lia.
  - apply NoDup_cons in Hnd as [Hcol Hnd]. rewrite IH; [|done|].
    + rewrite rect_rows_size; [lia|done|].
      intros row _. apply Hnew, list_elem_of_here.
    + intros col' row Hcol'. rewrite rect_rows.
      intros [Hin|(row' & _ & E)].
      * by apply (Hnew col' row); [apply list_elem_of_further|].
      * inversion E; subst. done.
Qed.

(** X18. A rectangular map has [width * height] hexes, a negative width
    or height counting as 0: with a width or a height below 1 the map is
    empty. *)
Theorem rectangular_map_size (width height : Z) (offset_type : string) :
  size (generate_rectangular_map width height offset_type)
  = (Z.to_nat width * Z.to_nat height)%nat /\
  (generate_rectangular_map width height offset_type = ∅ <->
   width <= 0 \/ height <= 0).
Proof.
  assert (Hsize : size (generate_rectangular_map width height offset_type)
                  = (Z.to_nat width * Z.to_nat height)%nat).
  { unfold generate_rectangular_map.
    rewrite rect_cols_size, size_empty, !range_length;
      [lia|apply range_NoDup|apply range_NoDup|set_solver]. }
  split; [done|]. rewrite <- leibniz_equiv_iff, <- size_empty_iff, Hsize. nia.
Qed.

(** ** The length of a line *)

Lemma foldM_length {A B : Type} (body : list B -> A -> result (list B))
    (l : list A) :
  (forall s x s', body s x = Ok s' -> length s' = S (length s)) ->
  forall s s', foldM body l s = Ok s' ->
               length s' = (length s + length l)%nat.
Proof.
  intros Hbody. induction l as [|x l IH]; intros s s' H.
  - injection H as <-. simpl. lia.
  - rewrite foldM_cons in H. destruct (body s x) as [s1|e] eqn:E; [|done].
    rewrite (IH _ _ H), (Hbody _ _ _ E). simpl. lia.
Qed.

Lemma line_sample_length (N : Z) (a_nudge b_nudge : FracHex)
    (results results' : list CubeHex) (i : Z) :
  line_sample N a_nudge b_nudge results i = Ok results' ->
  length results' = S (length results).
Proof.
  unfold line_sample. intros H.
  destruct (float_div_int 1 N) as [k|e]; [|done].
  cbn beta iota delta [mbind result_bind] in H.
  destruct (float_mul_int k i) as [t|e]; [|done].
  cbn beta iota delta [mbind result_bind] in H.
  destruct (cube_lerp a_nudge b_nudge t) as [p|e]; [|done].
  cbn beta iota delta [mbind result_bind] in H.
  destruct (cube_round (int_triple p)) as [x|e]; [|done].
  cbn beta iota delta [mbind result_bind] in H.
  injection H as <-. rewrite length_app. simpl. lia.
Qed.

Lemma cube_line_length (a b : CubeHex) (line : list CubeHex) :
  cube_line a b = Ok line ->
  0 < cube_distance a b /\
  length line = Z.to_nat (cube_distance a b + 1).
Proof.
  unfold cube_line. intros H.
  destruct (int_add_float (c0 a) lit_1e_6) as [a0|e]; [|done].
  destruct (int_add_float (c1 a) lit_1e_6) as [a1|e]; [|done].
  destruct (int_sub_float (c2 a) lit_2e_6) as [a2|e]; [|done].
  destruct (int_add_float (c0 b) lit_1e_6) as [b0|e]; [|done].
  destruct (int_add_float (c1 b) lit_1e_6) as [b1|e]; [|done].
  destruct (int_sub_float (c2 b) lit_2e_6) as [b2|e]; [|done].
  cbn beta iota delta [mbind result_bind] in H.
  pose proof (cube_distance_nonneg a b) as Hn. split.
  - destruct (Z.eq_dec (cube_distance a b) 0) as [E|E]; [|lia].
    rewrite E in H. change (range (0 + 1)) with [0] in H.
    rewrite foldM_cons, line_sample_zero in H. done.
  - apply foldM_length in H; [|intros ? ? ?; apply line_sample_length].
    rewrite H, range_length. simpl. lia.
Qed.

(** X19. Whenever [cube_line] returns, the two hexes are at a positive
    distance [N] and the list has [N + 1] hexes. *)
Theorem line_length (a b : CubeHex) (line : list CubeHex) :
  cube_line a b = Ok line ->
  0 < cube_distance a b /\
  length line = Z.to_nat (cube_distance a b + 1).
Proof.
  intros H. destruct (cube_line_length a b line H) as [Hpos Hlen].
  split; [exact Hpos|exact Hlen].
Qed.

Lemma line_length_witness :
  cube_line (0, 0, 0) (1, 1, -2) = Ok [(0, 0, 0); (1, 1, -2); (1, 1, -2)] /\
  0 < cube_distance (0, 0, 0) (1, 1, -2) /\
  length [(0, 0, 0); (1, 1, -2); (1, 1, -2)]
  = Z.to_nat (cube_distance (0, 0, 0) (1, 1, -2) + 1).
Proof.
  assert (H : cube_line (0, 0, 0) (1, 1, -2)
              = Ok [(0, 0, 0); (1, 1, -2); (1, 1, -2)])
    by (vm_compute; reflexivity).
  split; [exact H|]. exact (line_length _ _ _ H).
Defined.



(** ** The field of view, hex by hex *)

Lemma line_blocked_false (center : CubeHex) (radius : Z)
    (obstacles : gset CubeHex) (line : list CubeHex) :
  line_blocked center radius obstacles line = false <->
  forall x, x ∈ line -> (x ∉ obstacles) /\ cube_distance center x <= radius.
Proof.
  induction line as [|h line IH]; simpl.
  - split; [|done]. intros _ x Hx. inversion Hx.
  - destruct (bool_decide_reflect (h ∈ obstacles)) as [Hin|Hout].
    { split; [done|]. intros H.
      by destruct (H h (list_elem_of_here _ _)) as [Hh _]. }
    destruct (Z.gtb_spec (cube_distance center h) radius) as [Hfar|Hnear].
    { split; [done|]. intros H.
      destruct (H h (list_elem_of_here _ _)) as [_ Hh]. lia. }
    rewrite IH. split.
    + intros H x Hx. apply elem_of_cons in Hx as [->|Hx]; [|by apply H].
      split; [done|lia].
    + intros H x Hx. by apply H, list_elem_of_further.
Qed.

Lemma visible_hex_elem (center : CubeHex) (radius : Z)
    (obstacles V V' : gset CubeHex) (hex h : CubeHex) :
  visible_hex center radius obstacles V hex = Ok V' ->
  h ∈ V' <-> h ∈ V \/ (h = hex /\ unblocked center radius obstacles hex).
Proof.
  unfold visible_hex, unblocked. intros H.
  destruct (cube_line center hex) as [line|e] eqn:E; [|done].
  cbn beta iota delta [mbind result_bind] in H.
  pose proof (line_blocked_false center radius obstacles line) as Hb.
  destruct (line_blocked center radius obstacles line); simpl in H;
    injection H as <-.
  - split; [auto|]. intros [Hh|[_ (line' & [= <-] & Hclear)]]; [done|].
    by apply Hb in Hclear.
  - rewrite elem_of_union, elem_of_singleton. split.
    + intros [->|Hh]; [|auto]. right. split; [done|].
      exists line. split; [done|]. by apply Hb.
    + intros [Hh|[-> _]]; auto.
Qed.

Lemma visible_hexes_elem (center : CubeHex) (radius : Z)
    (obstacles : gset CubeHex) (l : list CubeHex) (h : CubeHex) :
  forall V V',
    foldM (visible_hex center radius obstacles) l V = Ok V' ->
    h ∈ V' <-> h ∈ V \/ (h ∈ l /\ unblocked center radius obstacles h).
Proof.
  induction l as [|hex l IH]; intros V V' H.
  - injection H as <-. split; [auto|]. intros [Hh|[Hh _]]; [done|].
    inversion Hh.
  - rewrite foldM_cons in H.
    destruct (visible_hex center radius obstacles V hex) as [V1|e] eqn:E;
      [|done].
    rewrite (IH _ _ H), (visible_hex_elem _ _ _ _ _ _ _ E), elem_of_cons.
    split.
    + intros [[Hh|[-> Hu]]|[Hh Hu]]; auto.
    + intros [Hh|[[->|Hh] Hu]]; auto.
Qed.

Lemma visible_rings_elem (center : CubeHex) (radius : Z)
    (obstacles : gset CubeHex) (ks : list Z) (h : CubeHex) :
  forall V V',
    foldM (visible_ring center radius obstacles) ks V = Ok V' ->
    h ∈ V' <->
    h ∈ V \/ ((exists k, k ∈ ks /\ h ∈ cube_ring center k) /\
              unblocked center radius obstacles h).
Proof.
  induction ks as [|k ks IH]; intros V V' H.
  - injection H as <-. split; [auto|]. intros [Hh|[(k & Hk & _) _]]; [done|].
    inversion Hk.
  - rewrite foldM_cons in H.
    destruct (visible_ring center radius obstacles V k) as [V1|e] eqn:E;
      [|done].
    unfold visible_ring in E.
    rewrite (IH _ _ H), (visible_hexes_elem _ _ _ _ _ _ _ E). split.
    + intros [[Hh|[Hh Hu]]|[(k' & Hk' & Hh) Hu]]; auto.
      * right. split; [|done]. exists k. split; [apply list_elem_of_here|done].
      * right. split; [|done]. exists k'.
        split; [by apply list_elem_of_further|done].
    + intros [Hh|[(k' & Hk' & Hh) Hu]]; auto.
      apply elem_of_cons in Hk' as [->|Hk']; [auto|].
      right. split; [|done]. by exists k'.
Qed.

Lemma cube_visible_elem (center : CubeHex) (radius : Z)
    (obstacles V : gset CubeHex) (h : CubeHex) :
  cube_visible center radius obstacles = Ok V ->
  h ∈ V <->
  h = center \/
  (h ∈ cube_spiral center radius /\ h <> center /\
   unblocked center radius obstacles h).
Proof.
  unfold cube_visible. intros H.
  rewrite (visible_rings_elem _ _ _ _ _ _ _ H), elem_of_singleton.
  rewrite cube_spiral_rings, elem_of_cons. split.
  - intros [->|[(k & Hk & Hh) Hu]]; [by left|].
    destruct (decide (h = center)) as [->|Hne]; [by left|]. right.
    split; [|done]. right. apply list_elem_of_In, in_concat.
    exists (cube_ring center k).
    split; [by apply in_map, list_elem_of_In|by apply list_elem_of_In].
  - intros [->|[[->|Hh] [Hne Hu]]]; [by left|done|]. right. split; [|done].
    apply list_elem_of_In, in_concat in Hh as (ring & Hring & Hh).
    apply in_map_iff in Hring as (k & <- & Hk). exists k.
    split; by apply list_elem_of_In.
Qed.

(** X21. Whenever [cube_visible] returns, the set holds the centre
    (obstacle or not) and, of the other hexes of the spiral of that
    radius, exactly those whose line from the centre is drawn and runs
    through no obstacle and no hex farther than [radius]; so it is a part
    of the hexagonal map of that radius, and the centre alone for a
    radius below 1. *)
Theorem visible_characterised (center : CubeHex) (radius : Z)
    (obstacles V : gset CubeHex) :
  cube_visible center radius obstacles = Ok V ->
  center ∈ V /\
  (forall h, h <> center ->
     h ∈ V <->
     h ∈ cube_spiral center radius /\
     unblocked center radius obstacles h) /\
  V ⊆ generate_hex_map radius center /\
  (radius <= 0 -> V = {[center]}).
Proof.
  intros H. split; [|split; [|split]].
  - apply (cube_visible_elem _ _ _ _ _ H). by left.
  - intros h Hne. rewrite (cube_visible_elem _ _ _ _ _ H). split.
    + intros [->|(Hh & _ & Hu)]; done.
    + intros [Hh Hu]. by right.
  - intros h. rewrite (cube_visible_elem _ _ _ _ _ H).
    unfold generate_hex_map. rewrite elem_of_list_to_set.
    intros [->|(Hh & _)]; [|done].
    rewrite cube_spiral_rings. apply list_elem_of_here.
  - intros Hr. apply set_eq. intros h.
    rewrite (cube_visible_elem _ _ _ _ _ H), elem_of_singleton.
    rewrite cube_spiral_nonpositive by done. split; [|by left].
    intros [->|(Hh & Hne & _)]; [done|].
    by apply list_elem_of_singleton in Hh.
Qed.

Lemma visible_characterised_witness :
  cube_visible (0, 0, 0) 1 {[ (0, 0, 0); (1, -1, 0) ]}
  = Ok {[ (0, 0, 0) ]} /\
  (0, 0, 0) ∈ ({[ (0, 0, 0) ]} : gset CubeHex) /\
  (forall h, h <> (0, 0, 0) ->
     h ∈ ({[ (0, 0, 0) ]} : gset CubeHex) <->
     h ∈ cube_spiral (0, 0, 0) 1 /\
     unblocked (0, 0, 0) 1 {[ (0, 0, 0); (1, -1, 0) ]} h) /\
  ({[ (0, 0, 0) ]} : gset CubeHex) ⊆ generate_hex_map 1 (0, 0, 0) /\
  (1 <= 0 -> ({[ (0, 0, 0) ]} : gset CubeHex) = {[ (0, 0, 0) ]}).
Proof.
  assert (H : cube_visible (0, 0, 0) 1 {[ (0, 0, 0); (1, -1, 0) ]}
              = Ok {[ (0, 0, 0) ]}) by (vm_compute; reflexivity).
  split; [exact H|]. exact (visible_characterised _ _ _ _ H).
Defined.

Lemma line_blocked_far (center : CubeHex) (radius : Z)
    (obstacles far : gset CubeHex) (line : list CubeHex) :
  (forall h, h ∈ far -> radius < cube_distance center h) ->
  line_blocked center radius (obstacles ∪ far) line
  = line_blocked center radius obstacles line.
Proof.
  intros Hfar. induction line as [|h line IH]; simpl; [done|].
  destruct (bool_decide_reflect (h ∈ obstacles)) as [Hin|Hout].
  - rewrite bool_decide_eq_true_2; [done|]. apply elem_of_union. by left.
  - destruct (decide (h ∈ far)) as [Hf|Hf].
    + rewrite bool_decide_eq_true_2 by (apply elem_of_union; by right).
      apply Hfar in Hf.
      destruct (Z.gtb_spec (cube_distance center h) radius); [done|lia].
    + rewrite bool_decide_eq_false_2; [by rewrite IH|].
      rewrite elem_of_union. tauto.
Qed.

Lemma foldM_ext {A S : Type} (f g : S -> A -> result S) (l : list A) (s : S) :
  (forall s x, f s x = g s x) -> foldM f l s = foldM g l s.
Proof.
  intros H. revert s. induction l as [|x l IH]; intros s; [done|].
  rewrite !foldM_cons, H. destruct (g s x); [apply IH|done].
Qed.

(** X22. Obstacles farther from the centre than the radius have no
    effect on the field of view: adding them leaves the result of
    [cube_visible], a set or an exception, as it was. *)
Theorem far_obstacles_ignored (center : CubeHex) (radius : Z)
    (obstacles far : gset CubeHex) :
  (forall h, h ∈ far -> radius < cube_distance center h) ->
  cube_visible center radius (obstacles ∪ far)
  = cube_visible center radius obstacles.
Proof.
  intros Hfar. unfold cube_visible. apply foldM_ext. intros V k.
  unfold visible_ring. apply foldM_ext. intros W hex.
  unfold visible_hex. destruct (cube_line center hex) as [line|e]; [|done].
  cbn beta iota delta [mbind result_bind].
  by rewrite line_blocked_far.
Qed.

Lemma far_obstacles_ignored_witness :
  (forall h, h ∈ ({[ (3, -3, 0) ]} : gset CubeHex) ->
             2 < cube_distance (0, 0, 0) h) /\
  cube_visible (0, 0, 0) 2 ({[ (1, -1, 0) ]} ∪ {[ (3, -3, 0) ]})
  = cube_visible (0, 0, 0) 2 {[ (1, -1, 0) ]}.
Proof.
  assert (H : forall h, h ∈ ({[ (3, -3, 0) ]} : gset CubeHex) ->
                        2 < cube_distance (0, 0, 0) h).
  { intros h Hh. apply elem_of_singleton in Hh as ->. vm_compute. reflexivity. }
  split; [exact H|].
  exact (far_obstacles_ignored (0, 0, 0) 2 {[ (1, -1, 0) ]} _ H).
Defined.

(** ** Breadth-first search among obstacles *)

Lemma steps_snoc (l : list CubeHex) (h : CubeHex) :
  steps (l ++ [h]) = steps l + 1.
Proof. unfold steps. rewrite length_app. simpl. lia. Qed.

Lemma route_nonempty (obstacles : gset CubeHex) (start h : CubeHex)
    (l : list CubeHex) :
  route obstacles start h l -> 0 <= steps l.
Proof.
  intros (Hhd & _). destruct l; [done|]. unfold steps. simpl. lia.
Qed.

Lemma route_start (obstacles : gset CubeHex) (start : CubeHex) :
  route obstacles start start [start].
Proof. repeat split; try done. simpl. intros h Hh. inversion Hh. Qed.

Lemma route_steps_zero (obstacles : gset CubeHex) (start h : CubeHex)
    (l : list CubeHex) :
  route obstacles start h l -> steps l = 0 -> h = start.
Proof.
  intros (Hhd & Hlast & _) Hs. destruct l as [|x [|y t]].
  - done.
  - simpl in *. congruence.
  - unfold steps in Hs. simpl in Hs. lia.
Qed.

Lemma route_snoc (obstacles : gset CubeHex) (start p n : CubeHex)
    (l : list CubeHex) :
  route obstacles start p l -> adjacent p n -> n ∉ obstacles ->
  route obstacles start n (l ++ [n]).
Proof.
  intros (Hhd & Hlast & Hch & Hfree) Hadj Hobs.
  destruct l as [|x t]; [done|].
  split; [done|]. split; [apply last_snoc|].
  split; [by apply chain_snoc with p|].
  simpl. intros k Hk. apply elem_of_app in Hk as [Hk|Hk]; [by apply Hfree|].
  by apply list_elem_of_singleton in Hk as ->.
Qed.

Lemma chain_snoc_inv (x g : CubeHex) (t : list CubeHex) :
  chain ((x :: t) ++ [g]) ->
  exists k, last (x :: t) = Some k /\ chain (x :: t) /\ adjacent k g.
Proof.
  revert x. induction t as [|y t IH]; intros x Hch.
  - exists x. simpl in *. by destruct Hch.
  - destruct Hch as [Hxy Hch]. destruct (IH y Hch) as (k & Hlast & Hch' & Hadj).
    exists k. rewrite last_cons_cons. split; [done|]. split; [|done].
    split; done.
Qed.

Lemma route_snoc_inv (obstacles : gset CubeHex) (start h : CubeHex)
    (l : list CubeHex) :
  route obstacles start h l -> 0 < steps l ->
  exists l' p, l = l' ++ [h] /\ route obstacles start p l' /\
               adjacent p h /\ h ∉ obstacles.
Proof.
  intros (Hhd & Hlast & Hch & Hfree) Hs.
  destruct l as [|g l' _] using rev_ind.
  - done.
  - rewrite last_snoc in Hlast. injection Hlast as ->.
    destruct l' as [|x t].
    { unfold steps in Hs. simpl in Hs. lia. }
    destruct (chain_snoc_inv x h t Hch) as (p & Hlast & Hch' & Hadj).
    exists (x :: t), p. split; [done|]. simpl in Hhd, Hfree.
    split; [|split; [done|]].
    + repeat split; try done. simpl. intros k Hk. apply Hfree.
      apply elem_of_app. by left.
    + apply Hfree. apply elem_of_app. right. apply list_elem_of_here.
Qed.

Lemma expands_dec (max_distance : option Z) (d : Z) :
  expands max_distance d \/ ~ expands max_distance d.
Proof. destruct max_distance as [m|]; simpl; [lia|by left]. Qed.

Lemma expands_down (max_distance : option Z) (d d' : Z) :
  d' <= d -> expands max_distance d -> expands max_distance d'.
Proof. destruct max_distance as [m|]; simpl; [lia|done]. Qed.

Section Search.
Variable obstacles : gset CubeHex.
Variable start : CubeHex.
Variable max_distance : option Z.

Lemma search_inv_init (lev : CubeHex -> Z -> Prop) :
  (forall h n, lev h n <-> h = start /\ n = 0) ->
  search_inv obstacles start max_distance 0 [start] lev.
Proof using Type.
  intros Hlev. split.
  - lia.
  - exists [start], []. split; [done|]. split.
    + intros x Hx. apply list_elem_of_singleton in Hx as ->. by apply Hlev.
    + intros x Hx. inversion Hx.
  - intros h n m Hn Hm. apply Hlev in Hn as [_ ->]. by apply Hlev in Hm as [_ ->].
  - intros h n Hn. apply Hlev in Hn as [-> ->]. split; [lia|].
    exists [start]. split; [apply route_start|done].
  - intros h n Hn. apply Hlev in Hn as [_ ->]. by left.
  - intros h l Hl Hs _. pose proof (route_nonempty _ _ _ _ Hl).
    exists 0. split; [|lia]. apply Hlev. split; [|done].
    apply (route_steps_zero _ _ _ _ Hl). lia.
  - intros h n k Hn Hout. apply Hlev in Hn as [-> _].
    destruct Hout. apply list_elem_of_here.
  - intros h Hh. apply list_elem_of_singleton in Hh as ->. exists 0.
    by apply Hlev.
Qed.

(** When the hexes of level [d] are used up, the frontier is the whole
    of level [d + 1]. *)
Lemma search_inv_shift (d : Z) (B : list CubeHex)
    (lev : CubeHex -> Z -> Prop) :
  (forall x, x ∈ B -> lev x (d + 1)) ->
  search_inv obstacles start max_distance d B lev ->
  search_inv obstacles start max_distance (d + 1) B lev.
Proof using Type.
  intros HB [Hlevel _ Hfun Hroute Hbounded Hmin Hclosed Hfront]. split.
  - lia.
  - exists B, []. rewrite app_nil_r. split; [done|]. split; [done|].
    intros x Hx. inversion Hx.
  - done.
  - intros h n Hn. destruct (Hroute h n Hn) as [Hle Hl]. split; [lia|done].
  - done.
  - intros h l Hl Hs Hopen.
    destruct (Z_le_gt_dec (steps l) d) as [Hle|Hgt]; [by apply Hmin|].
    destruct (route_snoc_inv _ _ _ _ Hl) as (l' & p & -> & Hl' & Hadj & Hobs);
      [lia|].
    rewrite steps_snoc in *.
    assert (Hopen' : expands max_distance (steps l')).
    { destruct Hopen as [?|Hopen]; [lia|].
      by replace (steps l' + 1 - 1) with (steps l') in Hopen by lia. }
    destruct (Hmin p l' Hl') as (n & Hn & Hle); [lia| |].
    { pose proof (route_nonempty _ _ _ _ Hl').
      destruct (Z.eq_dec (steps l') 0); [by left|right].
      apply (expands_down _ (steps l')); [lia|done]. }
    destruct (Hclosed p n h Hn) as [m Hm]; try done.
    + intros Hin. apply HB in Hin. specialize (Hfun p _ _ Hn Hin). lia.
    + by apply (expands_down _ (steps l')).
    + exists m. split; [done|]. destruct (Hroute h m Hm). lia.
  - done.
  - done.
Qed.

(** Serving the head of the frontier keeps the invariant, at the level
    of the hex served; the hexes it adds are one level further. *)
Lemma search_inv_step (current : CubeHex) (c d : Z)
    (rest new : list CubeHex) (lev lev' : CubeHex -> Z -> Prop) :
  (forall k, (exists n, lev k n) \/ ~ (exists n, lev k n)) ->
  search_inv obstacles start max_distance d (current :: rest) lev ->
  lev current c ->
  (forall n, n ∈ new <->
             expands max_distance c /\ adjacent current n /\
             (n ∉ obstacles) /\ ~ (exists v, lev n v)) ->
  (forall k v, lev' k v <-> lev k v \/ (k ∈ new /\ v = c + 1)) ->
  search_inv obstacles start max_distance c (rest ++ new) lev'.
Proof using Type.
  intros Hdec Hinv Hc Hnew Hlev'.
  assert (exists A,
            search_inv obstacles start max_distance c (current :: rest) lev /\
            (forall x, x ∈ A -> lev x c) /\
            exists B, rest = A ++ B /\ forall x, x ∈ B -> lev x (c + 1))
    as (A & Hinv' & HA & B & -> & HB).
  { destruct (si_split _ _ _ _ _ _ Hinv) as (A & B & E & HA & HB).
    destruct A as [|a A].
    - simpl in E. subst B.
      assert (c = d + 1) as ->.
      { apply (si_fun _ _ _ _ _ _ Hinv current); [done|].
        apply HB, list_elem_of_here. }
      exists rest. split; [by apply search_inv_shift|].
      split; [intros x Hx; by apply HB, list_elem_of_further|].
      exists []. rewrite app_nil_r. split; [done|]. intros x Hx. inversion Hx.
    - injection E as <- ->.
      assert (c = d) as ->.
      { apply (si_fun _ _ _ _ _ _ Hinv current); [done|].
        apply HA, list_elem_of_here. }
      exists A. split; [done|].
      split; [intros x Hx; by apply HA, list_elem_of_further|].
      by exists B. }
  clear Hinv.
  destruct Hinv' as [Hlevel _ Hfun Hroute Hbounded Hmin Hclosed Hfront].
  split.
  - done.
  - exists A, (B ++ new). rewrite app_assoc. split; [done|]. split.
    + intros x Hx. apply Hlev'. left. by apply HA.
    + intros x Hx. apply Hlev'.
      apply elem_of_app in Hx as [Hx|Hx]; [left; by apply HB|by right].
  - intros h n m Hn Hm. apply Hlev' in Hn as [Hn|[Hin ->]];
      apply Hlev' in Hm as [Hm|[Hin' ->]].
    + by apply (Hfun h).
    + apply Hnew in Hin' as (_ & _ & _ & Hns). destruct Hns. eauto.
    + apply Hnew in Hin as (_ & _ & _ & Hns). destruct Hns. eauto.
    + done.
  - intros h n Hn. apply Hlev' in Hn as [Hn|[Hin ->]]; [by apply Hroute|].
    split; [lia|]. apply Hnew in Hin as (_ & Hadj & Hobs & _).
    destruct (Hroute current c Hc) as [_ (l & Hl & Hs)].
    exists (l ++ [h]). split; [by apply route_snoc with current|].
    rewrite steps_snoc. lia.
  - intros h n Hn. apply Hlev' in Hn as [Hn|[Hin ->]]; [by apply (Hbounded h)|].
    right. apply Hnew in Hin as (Hopen & _).
    by replace (c + 1 - 1) with c by lia.
  - intros h l Hl Hs Hopen. destruct (Hmin h l Hl Hs Hopen) as (n & Hn & Hle).
    exists n. split; [|done]. apply Hlev'. by left.
  - intros h n k Hn Hout Hopen Hadj Hobs.
    assert (forall v, lev k v -> exists m, lev' k m) as Hold.
    { intros v Hv. exists v. apply Hlev'. by left. }
    apply Hlev' in Hn as [Hn|[Hin ->]].
    + destruct (decide (h = current)) as [->|Hne].
      * rewrite (Hfun current n c Hn Hc) in Hopen.
        destruct (Hdec k) as [[v Hv]|Hns]; [by apply (Hold v)|].
        exists (c + 1). apply Hlev'. right. split; [|done]. by apply Hnew.
      * destruct (Hclosed h n k Hn) as [m Hm]; try done; [|by apply (Hold m)].
        intros Hin. apply elem_of_cons in Hin as [?|Hin]; [done|].
        apply Hout. rewrite <- app_assoc. apply elem_of_app in Hin as [?|?];
          apply elem_of_app; [by left|right; apply elem_of_app; by left].
    + destruct Hout. apply elem_of_app. by right.
  - intros h Hh. apply elem_of_app in Hh as [Hh|Hh].
    + destruct (Hfront h) as [n Hn]; [by apply list_elem_of_further|].
      exists n. apply Hlev'. by left.
    + exists (c + 1). apply Hlev'. by right.
Qed.

(** A level is the number of steps of a shortest route. *)
Lemma search_inv_shortest (d : Z) (frontier : list CubeHex)
    (lev : CubeHex -> Z -> Prop) (h : CubeHex) (n : Z) (l : list CubeHex) :
  search_inv obstacles start max_distance d frontier lev ->
  lev h n -> route obstacles start h l -> n <= steps l.
Proof using Type.
  intros [Hlevel _ Hfun Hroute Hbounded Hmin _ _] Hn Hl.
  pose proof (route_nonempty _ _ _ _ Hl) as H0.
  destruct (Hroute h n Hn) as [Hle _].
  destruct (Z_le_gt_dec (steps l) d) as [Hs|Hs]; [|lia].
  destruct (Z.eq_dec (steps l) 0) as [E|E].
  - destruct (Hmin h l Hl Hs) as (n' & Hn' & Hle'); [by left|].
    by rewrite (Hfun h n n' Hn Hn').
  - destruct (expands_dec max_distance (steps l - 1)) as [Ho|Ho].
    + destruct (Hmin h l Hl Hs) as (n' & Hn' & Hle'); [by right|].
      by rewrite (Hfun h n n' Hn Hn').
    + destruct (Hbounded h n Hn) as [->|Hb]; [done|].
      destruct (Z_le_gt_dec n (steps l)) as [?|Hgt]; [done|].
      destruct Ho. apply (expands_down _ (n - 1)); [lia|done].
Qed.
End Search.

(** ** [cube_path] finds a shortest route *)

Lemma linked_fun (obstacles : gset CubeHex)
    (cf : gmap CubeHex (option CubeHex)) (start h : CubeHex)
    (l l' : list CubeHex) :
  linked obstacles cf start h l -> linked obstacles cf start h l' -> l = l'.
Proof.
  intros H. revert l'. induction H as [|h p l Hne Hcf Hadj Hobs Hl IH];
    intros l' H'.
  - inversion H' as [|h' p' l0 Hne' Hcf' Hadj' Hobs' Hl']; [done|].
    by destruct Hne'.
  - inversion H' as [|h' p' l0 Hne' Hcf' Hadj' Hobs' Hl']; subst.
    + by destruct Hne.
    + rewrite Hcf in Hcf'. injection Hcf' as <-. by rewrite (IH l0).
Qed.

Lemma linked_seen (obstacles : gset CubeHex)
    (cf : gmap CubeHex (option CubeHex)) (start h : CubeHex)
    (l : list CubeHex) :
  cf !! start = Some None ->
  linked obstacles cf start h l -> is_Some (cf !! h).
Proof. intros Hstart. destruct 1; eauto. Qed.

Lemma path_lev_seen (obstacles : gset CubeHex) (start goal : CubeHex)
    (frontier : list CubeHex) (cf : gmap CubeHex (option CubeHex))
    (h : CubeHex) :
  path_inv obstacles start goal frontier cf ->
  (exists n, path_lev obstacles cf start h n) <-> is_Some (cf !! h).
Proof.
  intros Hinv. split.
  - intros (n & l & Hl & _).
    apply (linked_seen obstacles cf start h l); [|done].
    apply (pi_start _ _ _ _ _ Hinv).
  - intros Hh. destruct (pi_linked _ _ _ _ _ Hinv h Hh) as [l Hl].
    exists (steps l), l. done.
Qed.

Lemma path_search_init (obstacles : gset CubeHex) (start : CubeHex) :
  search_inv obstacles start None 0 [start]
             (path_lev obstacles {[start := None]} start).
Proof.
  apply search_inv_init. intros h n. split.
  - intros (l & Hl & <-).
    inversion Hl as [|h' p l0 Hne Hcf Hadj Hobs Hl0]; subst; [done|].
    apply lookup_singleton_Some in Hcf as [_ ?]. done.
  - intros [-> ->]. exists [start]. split; [constructor|done].
Qed.

Lemma path_search_step (obstacles : gset CubeHex) (start goal current : CubeHex)
    (rest frontier' : list CubeHex) (d : Z)
    (cf cf' : gmap CubeHex (option CubeHex)) :
  path_inv obstacles start goal (current :: rest) cf ->
  search_inv obstacles start None d (current :: rest)
             (path_lev obstacles cf start) ->
  current <> goal ->
  foldl (path_visit obstacles current) (rest, cf) (cube_neighbors current)
  = (frontier', cf') ->
  exists d', search_inv obstacles start None d' frontier'
                        (path_lev obstacles cf' start).
Proof.
  intros Hinv Hsearch Hne E.
  destruct (path_inv_step _ _ _ _ _ _ _ _ Hinv Hne E)
    as (Hinv' & (new & -> & Hnew & Hcf) & _).
  destruct (si_front _ _ _ _ _ _ Hsearch current) as (c & lc & Hlc & Hc);
    [apply list_elem_of_here|].
  assert (Hsub : forall k v, cf !! k = Some v -> cf' !! k = Some v).
  { intros k v Hk. rewrite Hcf. rewrite decide_False; [done|].
    intros Hin. apply Hnew in Hin as (_ & _ & Hin). congruence. }
  assert (Hchain : forall k, k ∈ new ->
                     linked obstacles cf' start k (lc ++ [k])).
  { intros k Hin. pose proof Hin as Hin'.
    apply Hnew in Hin' as (Hadj & Hobs & Hnone).
    apply linked_step with current; try done.
    - intros ->. rewrite (pi_start _ _ _ _ _ Hinv) in Hnone. done.
    - rewrite Hcf. by rewrite decide_True.
    - by apply linked_weaken with cf. }
  exists c.
  apply (search_inv_step obstacles start None current c d rest new
           (path_lev obstacles cf start)); try done.
  - intros k. rewrite (path_lev_seen _ _ _ _ _ k Hinv). apply is_Some_dec.
  - by exists lc.
  - intros n. rewrite Hnew, (path_lev_seen _ _ _ _ _ n Hinv). simpl. split.
    + intros (Hadj & Hobs & Hnone). do 3 (split; [done|]).
      rewrite Hnone. intros [v Hv]. discriminate.
    + intros (_ & Hadj & Hobs & Hnone). do 2 (split; [done|]).
      destruct (cf !! n) as [v|]; [destruct Hnone; by exists v|done].
  - intros k v. split.
    + intros (l & Hl & <-). destruct (decide (k ∈ new)) as [Hin|Hout].
      * right. split; [done|].
        rewrite (linked_fun _ _ _ _ _ _ Hl (Hchain k Hin)), steps_snoc. lia.
      * left. assert (is_Some (cf !! k)) as Hk.
        { pose proof (linked_seen _ _ _ _ _ (pi_start _ _ _ _ _ Hinv') Hl)
            as Hk.
          rewrite Hcf in Hk. by rewrite decide_False in Hk. }
        destruct (pi_linked _ _ _ _ _ Hinv k Hk) as [l0 Hl0].
        exists l0. split; [done|].
        by rewrite (linked_fun _ _ _ _ _ _ Hl
                      (linked_weaken _ _ _ _ _ _ Hsub Hl0)).
    + intros [(l & Hl & <-)|[Hin ->]].
      * exists l. split; [by apply linked_weaken with cf|done].
      * exists (lc ++ [k]). split; [by apply Hchain|].
        rewrite steps_snoc. lia.
Qed.

Lemma path_loop_search (obstacles : gset CubeHex) (start goal : CubeHex)
    (fuel : nat) :
  forall frontier cf cf_out d,
    path_inv obstacles start goal frontier cf ->
    search_inv obstacles start None d frontier (path_lev obstacles cf start) ->
    path_loop fuel goal obstacles frontier cf = Some cf_out ->
    exists frontier' d',
      search_inv obstacles start None d' frontier'
                 (path_lev obstacles cf_out start).
Proof.
  induction fuel as [|fuel IH]; intros frontier cf cf_out d Hinv Hs Hloop;
    [done|].
  rewrite path_loop_unfold in Hloop.
  destruct frontier as [|current rest]; [injection Hloop as <-; eauto|].
  destruct (bool_decide_reflect (current = goal)) as [->|Hne];
    [injection Hloop as <-; eauto|].
  destruct (foldl (path_visit obstacles current) (rest, cf)
                  (cube_neighbors current)) as [frontier' cf'] eqn:E.
  destruct (path_inv_step _ _ _ _ _ _ _ _ Hinv Hne E) as (Hinv' & _).
  destruct (path_search_step _ _ _ _ _ _ _ _ _ Hinv Hs Hne E) as [d' Hs'].
  by apply (IH frontier' cf' cf_out d').
Qed.

Lemma cube_path_shortest (fuel : nat) (start goal : CubeHex)
    (obstacles : gset CubeHex) (path l : list CubeHex) :
  cube_path fuel start goal obstacles = Some (Ok (Some path)) ->
  route obstacles start goal l ->
  (length path <= length l)%nat.
Proof.
  intros H Hl.
  destruct (cube_path_inv _ _ _ _ _ H)
    as (cf & frontier & Hloop & Hinv & [(_ & _ & ?)|(p & Hp & E)]); [done|].
  injection E as <-.
  destruct (path_loop_search obstacles start goal fuel _ _ _ 0
              (path_inv_init obstacles start goal)
              (path_search_init obstacles start) Hloop)
    as (frontier' & d' & Hs).
  assert (steps path <= steps l) as Hle.
  { apply (search_inv_shortest obstacles start None d' frontier'
             (path_lev obstacles cf start) goal); try done.
    by exists path. }
  unfold steps in Hle. lia.
Qed.

(** A route has at least as many steps as the hex distance. *)
Lemma route_distance (obstacles : gset CubeHex) (start : CubeHex) (n : nat) :
  forall h l,
    steps l = Z.of_nat n -> route obstacles start h l ->
    aligned start h /\ cube_distance start h <= steps l.
Proof.
  induction n as [|n IH]; intros h l Hs Hl.
  - rewrite (route_steps_zero _ _ _ _ Hl) by lia.
    split; [apply aligned_self|]. rewrite cube_distance_self. lia.
  - destruct (route_snoc_inv _ _ _ _ Hl) as (l' & p & -> & Hl' & Hadj & Hobs);
      [lia|].
    rewrite steps_snoc in *. destruct (IH p l') as [Hal Hd]; [lia|done|].
    split; [by apply (adjacent_aligned start p)|].
    pose proof (adjacent_distance start p h Hadj). lia.
Qed.

(** X23. A path returned by [cube_path] is a shortest route: it has no
    more hexes than any route from [start] to [goal] that enters no
    obstacle, and at least one hex more than the hex distance. *)
Theorem path_is_shortest (fuel : nat) (start goal : CubeHex)
    (obstacles : gset CubeHex) (path l : list CubeHex) :
  cube_path fuel start goal obstacles = Some (Ok (Some path)) ->
  route obstacles start goal l ->
  (length path <= length l)%nat /\
  cube_distance start goal + 1 <= Z.of_nat (length path).
Proof.
  intros H Hl. split; [by apply (cube_path_shortest fuel start goal obstacles)|].
  destruct (cube_path_sound _ _ _ _ _ H) as [[E _]|(p & E & Hp)]; [done|].
  injection E as <-.
  destruct (route_distance obstacles start (length path - 1)%nat goal path)
    as [_ Hd]; [|done|].
  - pose proof (route_nonempty _ _ _ _ Hp). unfold steps in *. lia.
  - unfold steps in Hd. lia.
Qed.

Lemma path_is_shortest_witness :
  cube_path 100 (0, 0, 0) (2, 0, -2) {[ (1, 0, -1) ]}
  = Some (Ok (Some [(0, 0, 0); (1, -1, 0); (2, -1, -1); (2, 0, -2)])) /\
  route {[ (1, 0, -1) ]} (0, 0, 0) (2, 0, -2)
        [(0, 0, 0); (0, 1, -1); (1, 1, -2); (2, 1, -3); (2, 0, -2)] /\
  (length [(0, 0, 0); (1, -1, 0); (2, -1, -1); (2, 0, -2)]%Z
   <= length [(0, 0, 0); (0, 1, -1); (1, 1, -2); (2, 1, -3); (2, 0, -2)]%Z)%nat
  /\
  cube_distance (0, 0, 0) (2, 0, -2) + 1
  <= Z.of_nat (length [(0, 0, 0); (1, -1, 0); (2, -1, -1); (2, 0, -2)]).
Proof.
  assert (H : cube_path 100 (0, 0, 0) (2, 0, -2) {[ (1, 0, -1) ]}
              = Some (Ok (Some [(0, 0, 0); (1, -1, 0); (2, -1, -1);
                                (2, 0, -2)])))
    by (vm_compute; reflexivity).
  assert (Hl : route {[ (1, 0, -1) ]} (0, 0, 0) (2, 0, -2)
                 [(0, 0, 0); (0, 1, -1); (1, 1, -2); (2, 1, -3); (2, 0, -2)]).
  { split; [reflexivity|]. split; [reflexivity|]. split.
    - simpl. rewrite !adjacent_coords. lia.
    - simpl. intros h Hh. rewrite !elem_of_cons, elem_of_nil in Hh.
      rewrite elem_of_singleton.
      destruct Hh as [->|[->|[->|[->|[]]]]]; discriminate. }
  split; [exact H|]. split; [exact Hl|].
  exact (path_is_shortest _ _ _ _ _ _ H Hl).
Defined.

(** ** [cube_bfs] among obstacles and under a bound *)

Lemma skip_expands (max_distance : option Z) (d : Z) :
  match max_distance with
  | Some m => d >=? m
  | None => false
  end = false <-> expands max_distance d.
Proof.
  destruct max_distance as [m|]; simpl; [|done].
  destruct (Z.geb_spec d m); split; (done || lia).
Qed.

(** A pass over the neighbours of a hex recorded at distance [d] appends
    nothing when the bound stops at [d]; otherwise it appends the
    neighbours that are no obstacle and have no distance yet, once each,
    and records them one step further.  It never raises. *)
Lemma bfs_visit_bound_fold (obstacles : gset CubeHex)
    (max_distance : option Z) (current : CubeHex) (d : Z)
    (l : list CubeHex) :
  forall st,
    distance st !! current = Some d ->
    exists new st',
      foldM (bfs_visit obstacles max_distance current) l st = Ok st' /\
      frontier st' = frontier st ++ new /\
      found_goals st' = found_goals st /\
      NoDup new /\
      (forall n, n ∈ new <->
                 expands max_distance d /\ n ∈ l /\ (n ∉ obstacles) /\
                 distance st !! n = None) /\
      (forall k, distance st' !! k
                 = if decide (k ∈ new) then Some (d + 1)
                   else distance st !! k).
Proof.
  induction l as [|n l IH]; intros st Hcur.
  - exists [], st. rewrite app_nil_r. do 3 (split; [done|]).
    split; [constructor|]. split.
    + intros n. rewrite elem_of_nil. tauto.
    + intros k. destruct (decide (k ∈ [])) as [H|_]; [inversion H|done].
  - rewrite foldM_cons. unfold bfs_visit at 1.
    destruct (bool_decide_reflect (n ∈ obstacles)) as [Hobs|Hobs];
      [|destruct (distance st !! n) as [v|] eqn:Hn].
    + destruct (IH st Hcur)
        as (new & st' & E & Hfr & Hfound & Hnd & Hnew & Hdist).
      exists new, st'. do 4 (split; [done|]). split; [|done].
      intros n'. rewrite Hnew, elem_of_cons. split; [tauto|].
      intros (Ho & [->|Hin] & Hf & Hc); done.
    + destruct (IH st Hcur)
        as (new & st' & E & Hfr & Hfound & Hnd & Hnew & Hdist).
      exists new, st'. do 4 (split; [done|]). split; [|done].
      intros n'. rewrite Hnew, elem_of_cons. split; [tauto|].
      intros (Ho & [->|Hin] & Hf & Hc); [congruence|done].
    + unfold dict_get. rewrite Hcur. cbn beta iota delta [mbind result_bind].
      pose proof (skip_expands max_distance d) as Hskip.
      destruct (match max_distance with
                | Some m => d >=? m
                | None => false
                end).
      * destruct (IH st Hcur)
          as (new & st' & E & Hfr & Hfound & Hnd & Hnew & Hdist).
        exists new, st'. do 4 (split; [done|]). split; [|done].
        intros n'. rewrite Hnew, elem_of_cons. split; [tauto|].
        intros (Ho & _). by apply Hskip in Ho.
      * assert (Hopen : expands max_distance d) by by apply Hskip.
        assert (Hne : n <> current) by (intros ->; congruence).
        match goal with
        | |- context [foldM _ l ?s] =>
            destruct (IH s)
              as (new & st' & E & Hfr & Hfound & Hnd & Hnew & Hdist)
        end.
        { simpl. by rewrite lookup_insert_ne. }
        simpl in Hfr, Hfound, Hnew, Hdist.
        exists (n :: new), st'. split; [done|].
        split; [by rewrite Hfr, <- app_assoc|]. split; [done|].
        split; [|split].
        -- constructor; [|done]. intros Hin.
           apply Hnew in Hin as (_ & _ & _ & Hin).
           by rewrite lookup_insert_eq in Hin.
        -- intros n'. rewrite elem_of_cons, Hnew, lookup_insert_None. split.
           ++ intros [->|(_ & Hin & Ho & Hc & Hne')].
              ** split; [done|]. split; [apply list_elem_of_here|done].
              ** split; [done|]. split; [by apply list_elem_of_further|done].
           ++ intros (_ & Hin & Ho & Hc).
              destruct (decide (n' = n)) as [->|Hne']; [by left|right].
              split; [done|].
              apply elem_of_cons in Hin as [->|Hin]; done.
        -- intros k. rewrite Hdist.
           destruct (decide (k ∈ new)) as [Hin|Hout].
           ++ by rewrite decide_True by (by apply list_elem_of_further).
           ++ destruct (decide (k = n)) as [->|Hne'].
              ** rewrite lookup_insert_eq.
                 by rewrite decide_True by apply list_elem_of_here.
              ** rewrite lookup_insert_ne by done.
                 rewrite decide_False; [done|].
                 intros Hin. apply elem_of_cons in Hin as [?|?]; done.
Qed.

Lemma bfs_search_init (obstacles : gset CubeHex) (start : CubeHex)
    (max_distance : option Z) :
  search_inv obstacles start max_distance 0 [start]
    (bfs_lev {| frontier := [start];
                came_from := {[start := None]};
                distance := {[start := 0]};
                found_goals := ∅ |}).
Proof.
  apply search_inv_init. intros h n. unfold bfs_lev. simpl.
  rewrite lookup_singleton_Some. split; intros [? ?]; by subst.
Qed.

(** One iteration of the loop of [cube_bfs] that does not leave it. *)
Lemma bfs_search_step (obstacles : gset CubeHex) (start : CubeHex)
    (max_distance : option Z) (d : Z) (st : bfs_state)
    (current : CubeHex) (rest : list CubeHex) (found : gset CubeHex) :
  search_inv obstacles start max_distance d (current :: rest) (bfs_lev st) ->
  exists c new st2,
    foldM (bfs_visit obstacles max_distance current) (cube_neighbors current)
          {| frontier := rest; came_from := came_from st;
             distance := distance st; found_goals := found |} = Ok st2 /\
    search_inv obstacles start max_distance c (frontier st2) (bfs_lev st2) /\
    frontier st2 = rest ++ new /\ NoDup new /\
    (forall n, n ∈ new -> distance st !! n = None) /\
    (forall k, distance st2 !! k
               = if decide (k ∈ new) then Some (c + 1) else distance st !! k).
Proof.
  intros Hinv.
  destruct (si_front _ _ _ _ _ _ Hinv current) as [c Hc];
    [apply list_elem_of_here|].
  destruct (bfs_visit_bound_fold obstacles max_distance current c
              (cube_neighbors current)
              {| frontier := rest; came_from := came_from st;
                 distance := distance st; found_goals := found |} Hc)
    as (new & st2 & E & Hfr2 & _ & Hnd & Hnew & Hdist2).
  simpl in Hfr2, Hnew, Hdist2.
  exists c, new, st2. split; [done|]. rewrite Hfr2.
  split; [|split; [done|split; [done|split; [|done]]]].
  - apply (search_inv_step obstacles start max_distance current c d rest new
             (bfs_lev st)); try done.
    + intros k. unfold bfs_lev. destruct (distance st !! k) as [v|].
      * left. by exists v.
      * right. intros [v Hv]. discriminate.
    + intros n. rewrite Hnew. unfold bfs_lev. split.
      * intros (Ho & Hadj & Hobs & Hnone). do 3 (split; [done|]).
        rewrite Hnone. intros [v Hv]. discriminate.
      * intros (Ho & Hadj & Hobs & Hnone). do 3 (split; [done|]).
        destruct (distance st !! n) as [v|]; [destruct Hnone; by exists v|done].
    + intros k v. unfold bfs_lev. rewrite Hdist2.
      destruct (decide (k ∈ new)) as [Hin|Hout].
      * split; [intros [= <-]; by right|].
        intros [Hv|[_ ->]]; [|done].
        apply Hnew in Hin as (_ & _ & _ & Hnone). congruence.
      * split; [by left|]. intros [Hv|[Hin _]]; done.
  - intros n Hn. by apply Hnew in Hn as (_ & _ & _ & Hnone).
Qed.

(** Whenever the loop of [cube_bfs] ends, it ends without an exception,
    and the distances satisfy the invariant for the frontier it stopped
    on; it stopped on an empty frontier unless there are goals. *)
Lemma bfs_loop_search (obstacles goals : gset CubeHex) (start : CubeHex)
    (max_distance : option Z) (fuel : nat) :
  forall st d r,
    search_inv obstacles start max_distance d (frontier st) (bfs_lev st) ->
    bfs_loop fuel goals obstacles max_distance st = Some r ->
    exists st' frontier' d',
      r = Ok st' /\
      search_inv obstacles start max_distance d' frontier' (bfs_lev st') /\
      (frontier' = [] \/ exists g, g ∈ goals).
Proof.
  induction fuel as [|fuel IH]; intros st d r Hinv Hloop; [done|].
  rewrite bfs_loop_unfold in Hloop.
  destruct (frontier st) as [|current rest] eqn:Hfr.
  { injection Hloop as <-. exists st, [], d. auto. }
  cbv zeta in Hloop.
  destruct (bool_decide_reflect (current ∈ goals)) as [Hgoal|Hgoal];
    cbn beta iota delta [andb] in Hloop;
    [destruct (Z.of_nat (size ({[current]} ∪ found_goals st))
               =? Z.of_nat (size goals))|].
  - injection Hloop as <-. eexists _, (current :: rest), d.
    split; [done|]. split; [done|]. right. by exists current.
  - destruct (bfs_search_step obstacles start max_distance d st current rest
                ({[current]} ∪ found_goals st) Hinv)
      as (c & new & st2 & E & Hinv2 & _).
    rewrite E in Hloop. by apply (IH st2 c r).
  - destruct (bfs_search_step obstacles start max_distance d st current rest
                (found_goals st) Hinv)
      as (c & new & st2 & E & Hinv2 & _).
    rewrite E in Hloop. by apply (IH st2 c r).
Qed.

Lemma cube_bfs_search (fuel : nat) (start : CubeHex)
    (goals obstacles : gset CubeHex) (max_distance : option Z)
    (r : result (gmap CubeHex Z)) :
  cube_bfs fuel start goals obstacles max_distance = Some r ->
  exists dist frontier' d',
    r = Ok dist /\
    search_inv obstacles start max_distance d' frontier'
               (fun h n => dist !! h = Some n) /\
    (frontier' = [] \/ exists g, g ∈ goals).
Proof.
  unfold cube_bfs. intros H.
  match type of H with
  | match bfs_loop _ _ _ _ ?s with _ => _ end = _ =>
      destruct (bfs_loop fuel goals obstacles max_distance s) as [r'|] eqn:Hloop;
        [|done]
  end.
  destruct (bfs_loop_search obstacles goals start max_distance fuel
              {| frontier := [start];
                 came_from := {[start := None]};
                 distance := {[start := 0]};
                 found_goals := ∅ |} 0 r'
              (bfs_search_init obstacles start max_distance) Hloop)
    as (st' & frontier' & d' & -> & Hinv & Hexit).
  injection H as <-. by exists (distance st'), frontier', d'.
Qed.

(** X24. Whatever the obstacles, the goals and the bound, [cube_bfs]
    never raises, records the start at distance 0, and every distance it
    records is the number of steps of a shortest route from the start:
    some route that enters no obstacle has that many steps and none has
    fewer.  Under a bound no recorded distance exceeds it (the start
    apart). *)
Theorem bfs_records_shortest (fuel : nat) (start : CubeHex)
    (goals obstacles : gset CubeHex) (max_distance : option Z)
    (r : result (gmap CubeHex Z)) :
  cube_bfs fuel start goals obstacles max_distance = Some r ->
  exists dist,
    r = Ok dist /\ dist !! start = Some 0 /\
    forall h v, dist !! h = Some v ->
      (exists l, route obstacles start h l /\ steps l = v) /\
      (forall l, route obstacles start h l -> v <= steps l) /\
      (v = 0 \/ forall m, max_distance = Some m -> v <= m).
Proof.
  intros H.
  destruct (cube_bfs_search _ _ _ _ _ _ H)
    as (dist & frontier' & d' & -> & Hinv & _).
  exists dist. split; [done|]. split.
  - destruct (si_min _ _ _ _ _ _ Hinv start [start]) as (n & Hn & Hle).
    + apply route_start.
    + pose proof (si_level _ _ _ _ _ _ Hinv). unfold steps. simpl. lia.
    + by left.
    + destruct (si_route _ _ _ _ _ _ Hinv start n Hn) as [_ (l & Hl & Hs)].
      pose proof (route_nonempty _ _ _ _ Hl). unfold steps in Hle at 1.
      simpl in Hle. by replace n with 0 in Hn by lia.
  - intros h v Hv. split; [|split].
    + by destruct (si_route _ _ _ _ _ _ Hinv h v Hv) as [_ Hl].
    + intros l Hl.
      by apply (search_inv_shortest obstacles start max_distance d' frontier'
                  (fun h n => dist !! h = Some n) h).
    + destruct (si_bounded _ _ _ _ _ _ Hinv h v Hv) as [?|Hb]; [by left|].
      right. intros m ->. simpl in Hb. lia.
Qed.

Lemma bfs_records_shortest_witness :
  exists r,
    cube_bfs 30 (0, 0, 0) {[ (2, 0, -2) ]} {[ (1, 0, -1) ]} (Some 2) = Some r /\
    exists dist,
      r = Ok dist /\ dist !! (0, 0, 0) = Some 0 /\
      forall h v, dist !! h = Some v ->
        (exists l, route {[ (1, 0, -1) ]} (0, 0, 0) h l /\ steps l = v) /\
        (forall l, route {[ (1, 0, -1) ]} (0, 0, 0) h l -> v <= steps l) /\
        (v = 0 \/ forall m, Some 2 = Some m -> v <= m).
Proof.
  eexists. split; [vm_compute; reflexivity|].
  apply (bfs_records_shortest 30 (0, 0, 0) {[ (2, 0, -2) ]} {[ (1, 0, -1) ]}
           (Some 2)).
  vm_compute. reflexivity.
Defined.

Lemma hex_map_center (radius : Z) (center : CubeHex) :
  center ∈ generate_hex_map radius center.
Proof.
  unfold generate_hex_map. rewrite elem_of_list_to_set, cube_spiral_rings.
  apply list_elem_of_here.
Qed.

(** Under a bound every iteration takes a hex off the frontier, and a
    hex enters the frontier once, when it is recorded, within the bound:
    the hexes of the hexagonal map of that radius still to record and
    the length of the frontier together bound the iterations left. *)
Lemma bfs_loop_bounded (obstacles goals : gset CubeHex) (start : CubeHex)
    (m : Z) (n : nat) :
  forall st d,
    search_inv obstacles start (Some m) d (frontier st) (bfs_lev st) ->
    (size (generate_hex_map m start ∖ dom (distance st))
     + length (frontier st) <= n)%nat ->
    exists r, bfs_loop (S n) goals obstacles (Some m) st = Some r.
Proof.
  induction n as [|n IH]; intros st d Hinv Hm; rewrite bfs_loop_unfold.
  - destruct (frontier st) as [|current rest]; [eauto|]. simpl in Hm. lia.
  - destruct (frontier st) as [|current rest] eqn:Hfr; [eauto|].
    cbv zeta.
    destruct (bool_decide (current ∈ goals) && _); [eauto|].
    match goal with
    | |- context [foldM _ _ {| frontier := _; came_from := _; distance := _;
                               found_goals := ?found |}] =>
        destruct (bfs_search_step obstacles start (Some m) d st current rest
                    found Hinv)
          as (c & new & st2 & E & Hinv2 & Hfr2 & Hnd & Hnone & Hdist2)
    end.
    rewrite E. apply (IH st2 c); [done|].
    rewrite Hfr2, length_app. simpl in Hm.
    set (B := generate_hex_map m start) in *.
    set (N := list_to_set new : gset CubeHex).
    assert (Hdom : dom (distance st2) = dom (distance st) ∪ N).
    { apply set_eq. intros k. unfold N.
      rewrite elem_of_union, !elem_of_dom, elem_of_list_to_set, Hdist2.
      destruct (decide (k ∈ new)) as [Hin|Hout]; [split; eauto|tauto]. }
    assert (HN : N ⊆ B).
    { intros k Hk. unfold N in Hk. apply elem_of_list_to_set in Hk.
      assert (Hlev : bfs_lev st2 k (c + 1)).
      { unfold bfs_lev. rewrite Hdist2. by rewrite decide_True. }
      destruct (si_route _ _ _ _ _ _ Hinv2 k _ Hlev) as [_ (l & Hl & Hs)].
      pose proof (route_nonempty _ _ _ _ Hl) as H0.
      destruct (si_bounded _ _ _ _ _ _ Hinv2 k _ Hlev) as [Hz|Hb].
      - rewrite (route_steps_zero _ _ _ _ Hl) by lia. apply hex_map_center.
      - simpl in Hb.
        destruct (route_distance obstacles start (Z.to_nat (steps l)) k l)
          as [Hal Hd]; [lia|done|].
        unfold B, generate_hex_map. rewrite elem_of_list_to_set.
        apply cube_spiral_elem; [lia|]. split; [done|lia]. }
    assert (Hdisj : N ## dom (distance st)).
    { intros k Hk Hd. unfold N in Hk. apply elem_of_list_to_set in Hk.
      apply elem_of_dom in Hd as [v Hv]. rewrite (Hnone k Hk) in Hv. done. }
    assert (Hsplit : B ∖ dom (distance st)
                     = (B ∖ dom (distance st2)) ∪ N).
    { rewrite Hdom. apply set_eq. intros k.
      rewrite elem_of_union, !elem_of_difference, elem_of_union.
      destruct (decide (k ∈ N)) as [Hin|Hout].
      - split; [auto|]. intros _. split; [by apply HN|].
        intros Hd. by apply (Hdisj k).
      - tauto. }
    assert (Hsize : size (B ∖ dom (distance st))
                    = (size (B ∖ dom (distance st2)) + length new)%nat).
    { rewrite Hsplit, size_union.
      - unfold N. by rewrite size_list_to_set.
      - intros k Hk HkN. apply elem_of_difference in Hk as [_ Hk].
        apply Hk. rewrite Hdom. apply elem_of_union. by right. }
    lia.
Qed.

Lemma cube_bfs_bounded (fuel : nat) (start : CubeHex)
    (goals obstacles : gset CubeHex) (m : Z) :
  (size (generate_hex_map m start) + 2 <= fuel)%nat ->
  exists dist, cube_bfs fuel start goals obstacles (Some m) = Some (Ok dist).
Proof.
  intros Hfuel.
  set (st := {| frontier := [start];
                came_from := {[start := None]};
                distance := {[start := 0]};
                found_goals := ∅ |}).
  destruct (bfs_loop_bounded obstacles goals start m
              (size (generate_hex_map m start) + 1) st 0
              (bfs_search_init obstacles start (Some m))) as [r Hr].
  { simpl. rewrite dom_singleton_L.
    assert (size (generate_hex_map m start ∖ {[start]})
            <= size (generate_hex_map m start))%nat; [|lia].
    apply subseteq_size. intros k Hk.
    by apply elem_of_difference in Hk as [? _]. }
  apply (bfs_loop_mono _ _ _ _ fuel) in Hr; [|lia].
  destruct (bfs_loop_search obstacles goals start (Some m) fuel st 0 r
              (bfs_search_init obstacles start (Some m)) Hr)
    as (st' & _ & _ & -> & _).
  exists (distance st'). unfold cube_bfs. fold st. by rewrite Hr.
Qed.

(** X25. Under a bound [cube_bfs] always returns, whatever the
    obstacles and the goals: the loop runs at most once for each hex of
    the hexagonal map of that radius, so as many iterations as that map
    has hexes, and two more, are enough; it then answers the distances
    without an exception. *)
Theorem bounded_bfs_terminates (fuel : nat) (start : CubeHex)
    (goals obstacles : gset CubeHex) (m : Z) :
  (Z.to_nat (3 * Z.max m 0 * Z.max m 0 + 3 * Z.max m 0 + 3) <= fuel)%nat ->
  exists dist, cube_bfs fuel start goals obstacles (Some m) = Some (Ok dist).
Proof.
  intros Hfuel. apply cube_bfs_bounded.
  destruct (Z_lt_le_dec m 0) as [Hneg|Hpos].
  - unfold generate_hex_map. rewrite cube_spiral_nonpositive by lia.
    rewrite size_list_to_set by apply NoDup_singleton.
    replace (Z.max m 0) with 0 in Hfuel by lia. simpl length. lia.
  - unfold generate_hex_map.
    rewrite size_list_to_set by (by apply cube_spiral_NoDup).
    rewrite cube_spiral_length by done.
    replace (Z.max m 0) with m in Hfuel by lia. lia.
Qed.

Lemma bounded_bfs_terminates_witness :
  (Z.to_nat (3 * Z.max 1 0 * Z.max 1 0 + 3 * Z.max 1 0 + 3) <= 9)%nat /\
  exists dist,
    cube_bfs 9 (0, 0, 0) {[ (5, 0, -5) ]} {[ (1, 0, -1) ]} (Some 1)
    = Some (Ok dist).
Proof.
  assert (H : (Z.to_nat (3 * Z.max 1 0 * Z.max 1 0 + 3 * Z.max 1 0 + 3)
               <= 9)%nat) by (vm_compute; lia).
  split; [exact H|].
  exact (bounded_bfs_terminates 9 (0, 0, 0) {[ (5, 0, -5) ]} {[ (1, 0, -1) ]}
           1 H).
Defined.

(** Once the frontier is empty, every route within the bound stays
    within the hexes recorded. *)
Lemma exhausted_search (obstacles : gset CubeHex) (start : CubeHex)
    (max_distance : option Z) (d : Z) (lev : CubeHex -> Z -> Prop)
    (n : nat) :
  search_inv obstacles start max_distance d [] lev ->
  forall h l,
    steps l = Z.of_nat n -> route obstacles start h l ->
    steps l = 0 \/ expands max_distance (steps l - 1) ->
    exists v, lev h v.
Proof.
  intros Hinv. induction n as [|n IH]; intros h l Hs Hl Hopen.
  - destruct (si_min _ _ _ _ _ _ Hinv h l Hl) as (v & Hv & _); eauto.
    pose proof (si_level _ _ _ _ _ _ Hinv). lia.
  - destruct (route_snoc_inv _ _ _ _ Hl) as (l' & p & -> & Hl' & Hadj & Hobs);
      [lia|].
    rewrite steps_snoc in *.
    assert (Hopen' : expands max_distance (steps l')).
    { destruct Hopen as [?|Hopen]; [lia|].
      by replace (steps l' + 1 - 1) with (steps l') in Hopen by lia. }
    destruct (IH p l') as [v Hv]; [lia|done| |].
    { destruct (Z.eq_dec (steps l') 0); [by left|right].
      apply (expands_down _ (steps l')); [lia|done]. }
    pose proof (search_inv_shortest _ _ _ _ _ _ _ _ _ Hinv Hv Hl') as Hle.
    apply (si_closed _ _ _ _ _ _ Hinv p v h); try done.
    + apply not_elem_of_nil.
    + by apply (expands_down _ (steps l')).
Qed.

(** X26. Without goals [cube_bfs] is a flood fill: when it returns, the
    hexes it has recorded are exactly the hexes that a route from the
    start reaches without entering an obstacle, within the bound when
    there is one. *)
Theorem bfs_flood_fill (fuel : nat) (start : CubeHex)
    (obstacles : gset CubeHex) (max_distance : option Z)
    (dist : gmap CubeHex Z) :
  cube_bfs fuel start ∅ obstacles max_distance = Some (Ok dist) ->
  forall h,
    is_Some (dist !! h) <->
    exists l, route obstacles start h l /\
              forall m, max_distance = Some m -> steps l <= Z.max m 0.
Proof.
  intros H h.
  destruct (cube_bfs_search _ _ _ _ _ _ H)
    as (dist' & frontier' & d' & E & Hinv & Hexit).
  injection E as <-. split.
  - intros [v Hv].
    destruct (si_route _ _ _ _ _ _ Hinv h v Hv) as [_ (l & Hl & Hs)].
    pose proof (route_nonempty _ _ _ _ Hl).
    exists l. split; [done|]. intros m ->.
    destruct (si_bounded _ _ _ _ _ _ Hinv h v Hv) as [?|Hb]; simpl in *; lia.
  - intros (l & Hl & Hb).
    destruct Hexit as [->|[g Hg]]; [|by apply not_elem_of_empty in Hg].
    pose proof (route_nonempty _ _ _ _ Hl).
    destruct (exhausted_search obstacles start max_distance d'
                (fun h n => dist !! h = Some n) (Z.to_nat (steps l)) Hinv h l)
      as [v Hv]; [lia|done| |by exists v].
    destruct (Z.eq_dec (steps l) 0); [by left|right].
    destruct max_distance as [m|]; [|done]. simpl.
    specialize (Hb m eq_refl). lia.
Qed.

Lemma bfs_flood_fill_witness :
  exists dist,
    cube_bfs 9 (0, 0, 0) ∅ {[ (1, 0, -1) ]} (Some 1) = Some (Ok dist) /\
    forall h,
      is_Some (dist !! h) <->
      exists l, route {[ (1, 0, -1) ]} (0, 0, 0) h l /\
                forall m, Some 1 = Some m -> steps l <= Z.max m 0.
Proof.
  eexists. split; [vm_compute; reflexivity|].
  apply (bfs_flood_fill 9 (0, 0, 0) {[ (1, 0, -1) ]} (Some 1)).
  vm_compute. reflexivity.
Defined.

(** ** Pixels *)

Lemma float_of_int_errors (z : Z) (e : exn) :
  float_of_int z = Raise e -> e = OverflowError.
Proof.
  unfold float_of_int.
  destruct (binary_normalize prec emax z 0 false); intros [= <-]; done.
Qed.

Lemma float_mul_int_errors (f : float) (z : Z) (e : exn) :
  float_mul_int f z = Raise e -> e = OverflowError.
Proof.
  unfold float_mul_int. destruct (float_of_int z) as [g|e'] eqn:E; [done|].
  intros [= <-]. by apply float_of_int_errors in E.
Qed.

Lemma py_round_errors (x : num) (e : exn) :
  py_round x = Raise e -> conversion_error e.
Proof.
  destruct x as [z|f]; [done|]. unfold py_round, round_float, conversion_error.
  destruct (Prim2SF f); intros [= <-]; auto.
Qed.

Lemma num_sub_errors (x y : num) (e : exn) :
  num_sub x y = Raise e -> e = OverflowError.
Proof.
  destruct x as [a|f], y as [b|g]; simpl; try done.
  - destruct (float_of_int a) as [h|e'] eqn:E; [done|].
    intros [= <-]. by apply float_of_int_errors in E.
  - destruct (float_of_int b) as [h|e'] eqn:E; [done|].
    intros [= <-]. by apply float_of_int_errors in E.
Qed.

Lemma num_diff_errors (x y : num) (e : exn) :
  num_abs <$> num_sub x y = Raise e -> e = OverflowError.
Proof.
  destruct (num_sub x y) as [d|e'] eqn:E; [done|].
  intros [= <-]. by apply num_sub_errors in E.
Qed.

(** [cube_round] raises only for a fraction that is infinite or not a
    number, or too large an integer. *)
Lemma cube_round_errors (frac : num * num * num) (e : exn) :
  cube_round frac = Raise e -> conversion_error e.
Proof.
  destruct frac as [[frac0 frac1] frac2]. unfold cube_round.
  destruct (py_round frac0) as [q|e0] eqn:E0;
    [|intros [= <-]; by apply py_round_errors in E0].
  destruct (py_round frac1) as [r|e1] eqn:E1;
    [|intros [= <-]; by apply py_round_errors in E1].
  destruct (py_round frac2) as [s|e2] eqn:E2;
    [|intros [= <-]; by apply py_round_errors in E2].
  cbn beta iota delta [mbind result_bind].
  destruct (num_abs <$> num_sub (PyInt q) frac0) as [q_diff|e0] eqn:D0;
    [|intros [= <-]; left; by apply num_diff_errors in D0].
  destruct (num_abs <$> num_sub (PyInt r) frac1) as [r_diff|e1] eqn:D1;
    [|intros [= <-]; left; by apply num_diff_errors in D1].
  destruct (num_abs <$> num_sub (PyInt s) frac2) as [s_diff|e2] eqn:D2;
    [|intros [= <-]; left; by apply num_diff_errors in D2].
  cbn beta iota delta [mbind result_bind].
  destruct (num_gt q_diff r_diff && num_gt q_diff s_diff);
    [|destruct (num_gt r_diff s_diff)]; done.
Qed.

(** X27. [hex_to_pixel] never reads the third coordinate and raises
    nothing but [OverflowError].  [pixel_to_hex] raises
    [ZeroDivisionError] for a size that is zero (of either sign),
    whatever the point and the layout; for any other size it raises
    nothing but the two errors of a conversion to [int], and a hex it
    returns is a cube hex. *)
Theorem pixel_conversions (hex : CubeHex) (s' : Z) (point : float * float)
    (size : float) (layout : string) :
  hex_to_pixel hex size layout
  = hex_to_pixel (c0 hex, c1 hex, s') size layout /\
  (forall e, hex_to_pixel hex size layout = Raise e -> e = OverflowError) /\
  (PrimFloat.eqb size 0 = true ->
   pixel_to_hex point size layout = Raise ZeroDivisionError) /\
  (PrimFloat.eqb size 0 = false ->
   forall e, pixel_to_hex point size layout = Raise e -> conversion_error e) /\
  (forall h, pixel_to_hex point size layout = Ok h -> zero_sum h).
Proof.
  split; [reflexivity|]. split; [|split; [|split]].
  - intros e. unfold hex_to_pixel.
    destruct (float_mul_int (f0 _) (c0 hex)) as [x0|e0] eqn:E0;
      [|intros [= <-]; by apply float_mul_int_errors in E0].
    destruct (float_mul_int (f1 _) (c1 hex)) as [x1|e1] eqn:E1;
      [|intros [= <-]; by apply float_mul_int_errors in E1].
    cbn beta iota zeta delta [mbind result_bind].
    destruct (float_mul_int (f2 _) (c0 hex)) as [y0|e2] eqn:E2;
      [|intros [= <-]; by apply float_mul_int_errors in E2].
    destruct (float_mul_int (f3 _) (c1 hex)) as [y1|e3] eqn:E3;
      [|intros [= <-]; by apply float_mul_int_errors in E3].
    done.
  - intros Hz. unfold pixel_to_hex, float_div. destruct point as [x y].
    by rewrite Hz.
  - intros Hz e. unfold pixel_to_hex, float_div. destruct point as [x y].
    rewrite Hz. cbn beta iota zeta delta [mbind result_bind].
    apply cube_round_errors.
  - intros h. unfold pixel_to_hex. destruct point as [x y].
    destruct (float_div x size) as [x'|e]; [|done].
    destruct (float_div y size) as [y'|e]; [|done].
    cbn beta iota zeta delta [mbind result_bind].
    apply cube_round_zero_sum.
Qed.

(** The same by evaluation: a zero size of either sign, a size that is
    not a number, and a pixel projected and read back. *)
Lemma pixel_scenarios :
  pixel_to_hex (17, 1)%float 0 "pointy" = Raise ZeroDivisionError /\
  pixel_to_hex (17, 1)%float (-0) "flat" = Raise ZeroDivisionError /\
  pixel_to_hex (17, 1)%float nan "pointy"
  = Raise (ValueError "cannot convert float NaN to integer") /\
  (x ← hex_to_pixel (2, -3, 1) 10 "flat"; pixel_to_hex x 10 "flat")
  = Ok (2, -3, 1).
Proof. repeat split; vm_compute; reflexivity. Qed.

(** X28. [polygon_corners] fails only when [hex_to_pixel] fails, with
    the same exception; otherwise it returns six corners, the corner
    [i] being the centre moved by [hex_corner_offset i], whatever the
    cosine and the sine. *)
Theorem corners_around_center (math_cos math_sin : float -> float)
    (hex : CubeHex) (size : float) (layout : string) :
  match hex_to_pixel hex size layout with
  | Raise e => polygon_corners math_cos math_sin hex size layout = Raise e
  | Ok center =>
      exists corners,
        polygon_corners math_cos math_sin hex size layout = Ok corners /\
        length corners = 6%nat /\
        forall i, 0 <= i < 6 ->
          exists offset,
            hex_corner_offset math_cos math_sin i size layout = Ok offset /\
            corners !! Z.to_nat i
            = Some ((center.1 + offset.1)%float, (center.2 + offset.2)%float)
  end.
Proof.
  unfold polygon_corners.
  destruct (hex_to_pixel hex size layout) as [center|e]; [|done].
  cbn beta iota zeta delta [mbind result_bind].
  unfold polygon_corner, hex_corner_offset.
  destruct (String.eqb layout "pointy").
  - eexists. split; [vm_compute; reflexivity|]. split; [reflexivity|].
    intros i Hi.
    assert (i = 0 \/ i = 1 \/ i = 2 \/ i = 3 \/ i = 4 \/ i = 5)
      as [->|[->|[->|[->|[->| ->]]]]] by lia;
      eexists; (split; [vm_compute; reflexivity|reflexivity]).
  - eexists. split; [vm_compute; reflexivity|]. split; [reflexivity|].
    intros i Hi.
    assert (i = 0 \/ i = 1 \/ i = 2 \/ i = 3 \/ i = 4 \/ i = 5)
      as [->|[->|[->|[->|[->| ->]]]]] by lia;
      eexists; (split; [vm_compute; reflexivity|reflexivity]).
Qed.

(** ** Paths and fields of view in axial and offset coordinates *)


Section Wrapped.
Variable to_cube : Z * Z -> CubeHex.
Variable of_cube : CubeHex -> Z * Z.
Hypothesis to_cube_zero_sum : forall o, zero_sum (to_cube o).
Hypothesis of_to_cube : forall o, of_cube (to_cube o) = o.
Hypothesis to_of_cube : forall h, zero_sum h -> to_cube (of_cube h) = h.




End Wrapped.







(** In that scenario both paths go round the obstacle in three steps. *)
Lemma wrapped_path_scenario :
  axial_path 100 (0, 0) (2, 0) {[ (1, 0) ]}
  = Some (Ok (Some [(0, 0); (1, -1); (2, -1); (2, 0)])) /\
  offset_path 100 (0, 0) (2, 0) {[ (1, 0) ]} "odd-q"
  = Some (Ok (Some [(0, 0); (1, -1); (2, 0)])).
Proof. split; vm_compute; reflexivity. Qed.





